(** * Secure Gmail MCP server: a shallow embedding of [src/index.ts]

    The development follows the TypeScript source function by function.
    JavaScript strings are sequences of UTF-16 code units, numbers that
    hold millisecond timestamps are integers, the global rate-limit table
    is a finite map from client identifiers to timestamp arrays, and the
    asynchronous handlers are programs of a small state-and-exception
    monad over an abstract environment (mail API, file system, clock). *)

From Stdlib Require Import ZArith NArith Lia String Ascii DecimalString.
From stdpp Require Import base decidable option list sorting gmap.

Local Open Scope Z_scope.
Set Warnings "-register-all".

(** ** JavaScript strings *)

Module Js.

(** A string is a sequence of UTF-16 code units. *)
Abbreviation jschar := N (only parsing).
Abbreviation jsstring := (list N) (only parsing).

(** String literals of the source, written as Rocq strings. *)
Definition lit (s : string) : jsstring :=
  map N_of_ascii (list_ascii_of_string s).

(** [WhiteSpace] and [LineTerminator] of ECMAScript: the characters that
    [String.prototype.trim] strips and that the regular expression class
    [\s] matches. *)
Definition isSpace (c : jschar) : bool :=
  ((9 <=? c) && (c <=? 13) || (c =? 32) || (c =? 160) || (c =? 5760)
   || (8192 <=? c) && (c <=? 8202) || (c =? 8232) || (c =? 8233)
   || (c =? 8239) || (c =? 8287) || (c =? 12288) || (c =? 65279))%N.

Fixpoint trimStart (s : jsstring) : jsstring :=
  match s with
  | c :: s' => if isSpace c then trimStart s' else s
  | [] => []
  end.

Definition trimEnd (s : jsstring) : jsstring :=
  reverse (trimStart (reverse s)).

(** [s.trim()] *)
Definition trim (s : jsstring) : jsstring := trimEnd (trimStart s).

(** [s.length] *)
Definition strlen (s : jsstring) : Z := Z.of_nat (length s).

(** [s.substring(0, n)]; a negative [n] counts as 0. *)
Definition substring0 (n : Z) (s : jsstring) : jsstring := take (Z.to_nat n) s.

(** Truthiness of a string: the empty string is falsy. *)
Definition truthyStr (s : jsstring) : bool :=
  match s with [] => false | _ :: _ => true end.

(** Truthiness of an optional string field ([undefined] is falsy). *)
Definition truthyOpt (o : option jsstring) : bool :=
  match o with Some s => truthyStr s | None => false end.

End Js.
Import Js.

(** ** Regular expressions

    The regular expressions of the source, with the backtracking
    semantics of ECMAScript: alternatives are tried left to right and
    the quantifiers [*], [+] and [?] are greedy. The matcher is written
    in continuation-passing style; the continuation receives what is
    left of the input. *)

Module Regex.

Inductive regex : Type :=
| Eps
| Cls (p : jschar → bool)
| Cat (r1 r2 : regex)
| Alt (r1 r2 : regex)
| Star (r : regex).

Definition ch (a : ascii) : jschar := N_of_ascii a.

(** One given character, [r+], [r?], a literal string, and one letter
    under the [i] flag. *)
Definition Chr (a : ascii) : regex := Cls (N.eqb (ch a)).
Definition Plus (r : regex) : regex := Cat r (Star r).
Definition Opt (r : regex) : regex := Alt r Eps.
Definition Lit (s : string) : regex :=
  foldr (λ a r, Cat (Chr a) r) Eps (list_ascii_of_string s).
Definition ChrI (lower upper : ascii) : regex :=
  Cls (λ c, N.eqb (ch lower) c || N.eqb (ch upper) c).

(** Iterations of a starred expression, greedy. An iteration that
    consumes nothing is rejected, as ECMAScript's [RepeatMatcher] does,
    so every accepted iteration shortens the input and [fuel], the length
    of the input at the start, is never what stops the loop. *)
Fixpoint starLoop (step : jsstring → (jsstring → option jsstring) → option jsstring)
    (k : jsstring → option jsstring) (fuel : nat) (s : jsstring)
    : option jsstring :=
  match fuel with
  | O => k s
  | S fuel' =>
      match step s (λ s', if (length s' <? length s)%nat
                          then starLoop step k fuel' s' else None) with
      | Some out => Some out
      | None => k s
      end
  end.

Fixpoint matchK (r : regex) (s : jsstring)
    (k : jsstring → option jsstring) : option jsstring :=
  match r with
  | Eps => k s
  | Cls p =>
      match s with
      | c :: s' => if p c then k s' else None
      | [] => None
      end
  | Cat r1 r2 => matchK r1 s (λ s', matchK r2 s' k)
  | Alt r1 r2 =>
      match matchK r1 s k with
      | Some out => Some out
      | None => matchK r2 s k
      end
  | Star r' => starLoop (matchK r') k (length s) s
  end.

(** A match that starts at the first character of [s]: what the input
    holds after the match. *)
Definition exec (r : regex) (s : jsstring) : option jsstring :=
  matchK r s Some.

(** [/^r$/.test(s)], without the [m] flag. *)
Definition testAnchored (r : regex) (s : jsstring) : bool :=
  match matchK r s (λ rest, match rest with [] => Some [] | _ => None end) with
  | Some _ => true
  | None => false
  end.

(** [s.replace(/r/g, repl)] for a replacement text without [$]: the
    input is scanned from the left; where a match starts it is replaced
    and the scan resumes behind it ([skip] counts the characters of the
    match still to pass); an empty match moves on by one character. *)
Fixpoint replaceFrom (r : regex) (repl : jsstring) (skip : nat)
    (s : jsstring) : jsstring :=
  match s with
  | [] =>
      match skip, exec r [] with
      | O, Some _ => repl
      | _, _ => []
      end
  | c :: s' =>
      match skip with
      | S n => replaceFrom r repl n s'
      | O =>
          match exec r s with
          | Some rest =>
              match (length s - length rest)%nat with
              | O => repl ++ c :: replaceFrom r repl 0 s'
              | S n => repl ++ replaceFrom r repl n s'
              end
          | None => c :: replaceFrom r repl 0 s'
          end
      end
  end.

Definition replaceAll (r : regex) (repl : jsstring) (s : jsstring) : jsstring :=
  replaceFrom r repl 0 s.

(** The language of an expression. *)
Inductive matches : regex → jsstring → Prop :=
| m_eps : matches Eps []
| m_cls p c : p c = true → matches (Cls p) [c]
| m_cat r1 r2 s1 s2 :
    matches r1 s1 → matches r2 s2 → matches (Cat r1 r2) (s1 ++ s2)
| m_alt_l r1 r2 s : matches r1 s → matches (Alt r1 r2) s
| m_alt_r r1 r2 s : matches r2 s → matches (Alt r1 r2) s
| m_star_nil r : matches (Star r) []
| m_star_cons r s1 s2 :
    matches r s1 → matches (Star r) s2 → matches (Star r) (s1 ++ s2).

End Regex.

(** ** Input validation ([validateEmail], [sanitizeInput]) *)

Module Validation.
Import Regex.

(** The class [[^\s@]]. *)
Definition notSpaceAt (c : jschar) : bool :=
  negb (isSpace c || N.eqb c (ch "@")).

(** [/^[^\s@]+@[^\s@]+\.[^\s@]+$/] between its anchors. *)
Definition emailRegex : regex :=
  Cat (Plus (Cls notSpaceAt))
    (Cat (Chr "@")
       (Cat (Plus (Cls notSpaceAt))
          (Cat (Chr ".") (Plus (Cls notSpaceAt))))).

Definition validateEmail (email : jsstring) : bool :=
  testAnchored emailRegex email.

(** The class [[<>]]. *)
Definition isAngle (c : jschar) : bool :=
  N.eqb c (ch "<") || N.eqb c (ch ">").

Definition sanitizeInput (input : jsstring) : jsstring :=
  trim (replaceAll (Cls isAngle) [] input).

End Validation.

(** ** Rate limiting ([RATE_LIMIT], [checkRateLimit]) *)

Module RateLimit.

Definition maxRequests : nat := 50.
Definition windowMs : Z := 60000.

(** [checkRateLimit(clientId)] with [Date.now()] returning [now]: the
    result and the [RATE_LIMIT.requests] table afterwards. *)
Definition checkRateLimit (clientId : jsstring) (now : Z)
    (requests : gmap jsstring (list Z)) : bool * gmap jsstring (list Z) :=
  let windowStart := now - windowMs in
  let requests1 :=
    match requests !! clientId with
    | Some _ => requests
    | None => <[clientId := []]> requests
    end in
  let reqs := default [] (requests1 !! clientId) in
  let validRequests := filter (λ time, windowStart < time) reqs in
  if decide (maxRequests ≤ length validRequests)%nat then (false, requests1)
  else (true, <[clientId := validRequests ++ [now]]> requests1).

(** A sequence of calls for one client, at the given clock readings:
    the decision of each call, in order, and the final table. *)
Fixpoint serve (clientId : jsstring) (clock : list Z)
    (requests : gmap jsstring (list Z))
    : list (Z * bool) * gmap jsstring (list Z) :=
  match clock with
  | [] => ([], requests)
  | now :: clock' =>
      let '(ok, requests') := checkRateLimit clientId now requests in
      let '(ds, final) := serve clientId clock' requests' in
      ((now, ok) :: ds, final)
  end.

(** The timestamps of the calls that were granted. *)
Definition granted (ds : list (Z * bool)) : list Z :=
  map fst (filter (λ d, snd d = true) ds).

(** The stored history of a client ([[]] when the client is unknown). *)
Definition history (clientId : jsstring)
    (requests : gmap jsstring (list Z)) : list Z :=
  default [] (requests !! clientId).

(** Number of timestamps of [l] inside the closed interval [lo, hi]. *)
Definition countIn (lo hi : Z) (l : list Z) : nat :=
  length (filter (λ t, lo ≤ t ∧ t ≤ hi) l).

(** Number of timestamps of [l] inside the window that ends at [now],
    the way the source tests it: [time > now - windowMs]. *)
Definition inWindow (now : Z) (l : list Z) : list Z :=
  filter (λ time, now - windowMs < time) l.

End RateLimit.

(** ** Values that cross the tool interface *)

Module Value.

(** Tool arguments arrive as untyped JSON; the handlers test their shape
    at run time. Arrays hold strings, as the tool schemas declare. *)
Inductive jsval : Type :=
| VUndefined
| VNull
| VBool (b : bool)
| VNum (n : Z)
| VStr (s : jsstring)
| VArr (items : list jsstring).

(** [!!v] *)
Definition truthy (v : jsval) : bool :=
  match v with
  | VUndefined | VNull => false
  | VBool b => b
  | VNum n => negb (n =? 0)
  | VStr s => truthyStr s
  | VArr _ => true
  end.

(** [typeof v === 'string'] and [Array.isArray(v)] *)
Definition isString (v : jsval) : bool :=
  match v with VStr _ => true | _ => false end.
Definition isArray (v : jsval) : bool :=
  match v with VArr _ => true | _ => false end.

(** The objects handed to [JSON.stringify(_, null, 2)]. A field whose
    value is [undefined] is left out by [JSON.stringify]; [fieldOpt]
    builds such a field. *)
Inductive json : Type :=
| JNull
| JBool (b : bool)
| JNum (n : Z)
| JStr (s : jsstring)
| JArr (items : list json)
| JObj (fields : list (string * json)).

Definition kv (key : string) (v : json) : string * json := (key, v).

Definition fieldOpt (key : string) (v : option jsstring) : list (string * json) :=
  match v with Some s => [kv key (JStr s)] | None => [] end.

Fixpoint field (key : string) (fields : list (string * json)) : option json :=
  match fields with
  | [] => None
  | (k, v) :: rest => if String.eqb k key then Some v else field key rest
  end.

(** The field [key] of an object. *)
Definition get (key : string) (o : json) : option json :=
  match o with JObj fields => field key fields | _ => None end.

(** Errors: [name] and [message] of an [Error] object. *)
Record JsError : Type := MkError { errName : jsstring; errMessage : jsstring }.

(** [new Error(message)] *)
Definition Error (message : jsstring) : JsError := MkError (lit "Error") message.

(** The text of [`${error}`]. *)
Definition errorText (e : JsError) : jsstring :=
  match errName e, errMessage e with
  | n, [] => n
  | [], m => m
  | n, m => n ++ lit ": " ++ m
  end.

(** The text of [`${n}`] for a natural number. *)
Definition natText (n : nat) : jsstring :=
  lit (NilEmpty.string_of_uint (Nat.to_uint n)).

(** The text of [`${s}`] for a string that may be [undefined]. *)
Definition optText (o : option jsstring) : jsstring :=
  match o with Some s => s | None => lit "undefined" end.

(** [o || ''] *)
Definition orEmpty (o : option jsstring) : jsstring :=
  match o with Some s => s | None => [] end.

(** [items.join(sep)] *)
Fixpoint join (sep : jsstring) (items : list jsstring) : jsstring :=
  match items with
  | [] => []
  | [x] => x
  | x :: rest => x ++ sep ++ join sep rest
  end.

(** [s.split(',')]: the pieces between the separators (always at least
    one piece). *)
Fixpoint splitOn (sep : jschar) (s : jsstring) : list jsstring :=
  match s with
  | [] => [[]]
  | c :: s' =>
      if N.eqb c sep then [] :: splitOn sep s'
      else match splitOn sep s' with
           | piece :: pieces => (c :: piece) :: pieces
           | [] => [[c]]
           end
  end.

End Value.
Import Value.

(** ** Messages of the mail API *)

Module Mime.

Record Header : Type := { name : option jsstring; value : option jsstring }.

Record MessagePartBody : Type := {
  attachmentId : option jsstring;
  data : option jsstring;
  size : option Z
}.

(** A node of the MIME tree of a message: [gmail_v1.Schema$MessagePart]. *)
Inductive MessagePart : Type :=
  mkPart {
    mimeType : option jsstring;
    filename : option jsstring;
    headers : option (list Header);
    body : option MessagePartBody;
    parts : option (list MessagePart)
  }.

(** [gmail_v1.Schema$Message] *)
Record Message : Type := {
  id : option jsstring;
  threadId : option jsstring;
  snippet : option jsstring;
  payload : option MessagePart
}.

(** [part.body?.data] and [part.body?.attachmentId] *)
Definition bodyData (part : MessagePart) : option jsstring :=
  match body part with Some b => data b | None => None end.
Definition bodyAttachmentId (part : MessagePart) : option jsstring :=
  match body part with Some b => attachmentId b | None => None end.

(** [part.mimeType === t] *)
Definition mimeIs (t : string) (part : MessagePart) : bool :=
  bool_decide (mimeType part = Some (lit t)).

(** [headers.find(h => h.name === name)?.value || ''] *)
Definition getHeader (headers : list Header) (wanted : string) : jsstring :=
  match List.find (λ h, bool_decide (name h = Some (lit wanted))) headers with
  | Some h => orEmpty (value h)
  | None => []
  end.

(** The nodes of a tree, a node before its parts, parts in order. *)
Fixpoint preorder (part : MessagePart) : list MessagePart :=
  part ::
  match parts part with
  | Some ps =>
      (fix each (ps : list MessagePart) : list MessagePart :=
         match ps with
         | [] => []
         | p :: ps' => preorder p ++ each ps'
         end) ps
  | None => []
  end.

(** A node without its parts, and a payload whose parts have none. *)
Definition withoutParts (part : MessagePart) : MessagePart :=
  {| mimeType := mimeType part; filename := filename part;
     headers := headers part; body := body part; parts := None |}.

Definition topLevelOnly (payload : MessagePart) : MessagePart :=
  {| mimeType := mimeType payload; filename := filename payload;
     headers := headers payload; body := body payload;
     parts := map withoutParts <$> parts payload |}.

(** A payload with other parts. *)
Definition withParts (ps : option (list MessagePart)) (payload : MessagePart)
    : MessagePart :=
  {| mimeType := mimeType payload; filename := filename payload;
     headers := headers payload; body := body payload; parts := ps |}.

End Mime.
Import Mime.

(** ** The Node.js runtime and the world outside the process *)

Module Runtime.

(** Pure library functions of Node.js that the handlers call. *)
Class NodeRuntime : Type := {
  (** [Buffer.from(s, 'base64')] *)
  bufferFromBase64 : jsstring → list Byte.byte;
  (** [Buffer.from(s, 'base64url')] *)
  bufferFromBase64url : jsstring → list Byte.byte;
  (** [Buffer.from(s)] *)
  bufferFromUtf8 : jsstring → list Byte.byte;
  (** [buffer.toString()] *)
  bufferToString : list Byte.byte → jsstring;
  (** [buffer.toString('base64url')] *)
  bufferToBase64url : list Byte.byte → jsstring;
  (** [path.join(a, b)] *)
  pathJoin : jsstring → jsstring → jsstring;
  (** [os.homedir()] *)
  homedir : jsstring
}.

(** The answer of an operation of the outside world: a value, or a
    rejected promise. *)
Inductive Reply (A : Type) : Type :=
| Resolve (a : A)
| Reject (e : JsError).
Arguments Resolve {A} a.
Arguments Reject {A} e.

(** The mail API, the file system, the clock and the console. Each
    operation answers from the state of the world and may change it. *)
Class Environment : Type := {
  World : Type;
  (** [gmail.users.messages.list({userId: 'me', q, maxResults})]: the
      field [data.messages] of the response *)
  gmail_messages_list : jsstring → Z → World → Reply (option (list Message)) * World;
  (** [gmail.users.messages.get({userId: 'me', id, format})]: [data] *)
  gmail_messages_get : jsstring → jsstring → World → Reply Message * World;
  (** [gmail.users.messages.delete({userId: 'me', id})] *)
  gmail_messages_delete : jsstring → World → Reply () * World;
  (** [gmail.users.messages.send({userId: 'me', requestBody: {raw}})]:
      the field [data.id] of the response *)
  gmail_messages_send : jsstring → World → Reply (option jsstring) * World;
  (** [gmail.users.messages.attachments.get({userId: 'me', messageId, id})]:
      the field [data.data] of the response *)
  gmail_attachments_get : jsstring → jsstring → World → Reply (option jsstring) * World;
  (** [fs.mkdir(path, {recursive: true})] *)
  fs_mkdir : jsstring → World → Reply () * World;
  fs_appendFile : jsstring → jsstring → World → Reply () * World;
  fs_writeFile : jsstring → list Byte.byte → World → Reply () * World;
  (** [new Date().toISOString()] and [Date.now()] *)
  date_toISOString : World → jsstring * World;
  date_now : World → Z * World;
  (** [await new Promise(resolve => setTimeout(resolve, ms))] *)
  sleep : Z → World → World;
  (** [console.error(text, error)] *)
  console_error : jsstring → JsError → World → World
}.

(** What the process did to the world, in order, with the answers. *)
Inductive Event : Type :=
| EvMessagesList (q : jsstring) (maxResults : Z)
| EvMessagesGet (id : jsstring) (format : jsstring)
| EvMessagesDelete (id : jsstring) (reply : Reply ())
| EvMessagesSend (raw : jsstring)
| EvAttachmentsGet (messageId id : jsstring) (reply : Reply (option jsstring))
| EvMkdir (path : jsstring)
| EvAppendFile (path : jsstring) (text : jsstring)
| EvWriteFile (path : jsstring) (bytes : list Byte.byte) (reply : Reply ())
| EvDate
| EvSleep (ms : Z)
| EvConsoleError (text : jsstring)
| EvAudit (level : jsstring) (message : jsstring).

(** A call to the mail API. *)
Definition isMailApi (e : Event) : bool :=
  match e with
  | EvMessagesList _ _ | EvMessagesGet _ _ | EvMessagesDelete _ _
  | EvMessagesSend _ | EvAttachmentsGet _ _ _ => true
  | _ => false
  end.

End Runtime.
Import Runtime.

(** ** Reading a trace *)

Module Observe.

(** The deletions and the pauses, in order. *)
Definition deleteOrPause (e : Event) : option (jsstring + Z) :=
  match e with
  | EvMessagesDelete id _ => Some (inl id)
  | EvSleep ms => Some (inr ms)
  | _ => None
  end.

(** The deletions that the API rejected, with the error of each. *)
Definition failedDelete (e : Event) : option (jsstring * JsError) :=
  match e with
  | EvMessagesDelete id (Reject err) => Some (id, err)
  | _ => None
  end.

(** The messages handed to [auditLog] at level [ERROR]. *)
Definition errorAudit (e : Event) : option jsstring :=
  match e with
  | EvAudit level message =>
      if bool_decide (level = lit "ERROR") then Some message else None
  | _ => None
  end.

(** The files written, with their contents and the answer. *)
Definition fileWrite (e : Event) : option (jsstring * list Byte.byte * Reply ()) :=
  match e with
  | EvWriteFile path bytes reply => Some (path, bytes, reply)
  | _ => None
  end.

(** The answers of the attachment endpoint. *)
Definition attachmentReply (e : Event) : option (Reply (option jsstring)) :=
  match e with
  | EvAttachmentsGet _ _ reply => Some reply
  | _ => None
  end.

(** The text logged for a rejected deletion:
    [`Failed to delete spam email ${message.id}: ${error}`]. *)
Definition deleteFailure (f : jsstring * JsError) : jsstring :=
  lit "Failed to delete spam email " ++ f.1 ++ lit ": " ++ errorText f.2.

(** The identifiers of the messages of a batch that have one. *)
Definition attemptedIds (batch : list Message) : list jsstring :=
  omap (λ m, if truthyOpt (id m) then Some (orEmpty (id m)) else None) batch.

(** The events inside [auditLog], after the note of the call. *)
Definition isLogIO (e : Event) : bool :=
  match e with
  | EvMkdir _ | EvDate | EvAppendFile _ _ | EvConsoleError _ => true
  | _ => false
  end.

End Observe.
Import Observe.

(** ** The handlers *)

Module SendEmailRequest.
Record t : Type := {
  to : jsval;
  subject : jsval;
  body : jsval;
  cc : option (list jsstring);
  bcc : option (list jsstring)
}.
End SendEmailRequest.

Module DownloadAttachmentRequest.
Record t : Type := {
  messageId : option jsstring;
  attachmentId : option jsstring;
  filename : option jsstring
}.
End DownloadAttachmentRequest.

Module Server.
Import Regex Validation.

(** How a handler ends: with a value, with an exception, or, for the
    model of a loop, without an answer when its fuel is used up. *)
Inductive Outcome (A : Type) : Type :=
| Ok (a : A)
| Throw (e : JsError)
| OutOfFuel.
Arguments Ok {A} a.
Arguments Throw {A} e.
Arguments OutOfFuel {A}.

Reserved Notation "'let*' x := m 'in' k"
  (at level 10, x binder, m at level 100, k at level 200).

Section Handlers.
Context {RT : NodeRuntime} {ENV : Environment}.

(** The state a handler runs in: the world outside, the rate-limit table
    of the process, and the record of what the process has done. *)
Record State : Type := {
  world : World;
  requests : gmap jsstring (list Z);
  trace : list Event
}.

Definition M (A : Type) : Type := State → Outcome A * State.

Definition ret {A} (a : A) : M A := λ st, (Ok a, st).

Definition throw {A} (e : JsError) : M A := λ st, (Throw e, st).

Definition bind {A B} (m : M A) (k : A → M B) : M B :=
  λ st, match m st with
        | (Ok a, st') => k a st'
        | (Throw e, st') => (Throw e, st')
        | (OutOfFuel, st') => (OutOfFuel, st')
        end.

(** [try { m } catch (error) { handler }] *)
Definition tryCatch {A} (m : M A) (handler : JsError → M A) : M A :=
  λ st, match m st with
        | (Throw e, st') => handler e st'
        | other => other
        end.

Notation "'let*' x := m 'in' k" := (bind m (λ x, k)).

(** One operation of the outside world, recorded in the trace. *)
Definition perform {A} (op : World → Reply A * World) (ev : Reply A → Event) : M A :=
  λ st, let '(reply, w) := op (world st) in
        let st' := {| world := w; requests := requests st;
                      trace := trace st ++ [ev reply] |} in
        match reply with
        | Resolve a => (Ok a, st')
        | Reject e => (Throw e, st')
        end.

Definition record (ev : Event) : M () :=
  λ st, (Ok (), {| world := world st; requests := requests st;
                   trace := trace st ++ [ev] |}).

Definition messagesList (q : jsstring) (maxResults : Z) : M (option (list Message)) :=
  perform (gmail_messages_list q maxResults) (λ _, EvMessagesList q maxResults).
Definition messagesGet (id format : jsstring) : M Message :=
  perform (gmail_messages_get id format) (λ _, EvMessagesGet id format).
Definition messagesDelete (id : jsstring) : M () :=
  perform (gmail_messages_delete id) (EvMessagesDelete id).
Definition messagesSend (raw : jsstring) : M (option jsstring) :=
  perform (gmail_messages_send raw) (λ _, EvMessagesSend raw).
Definition attachmentsGet (messageId id : jsstring) : M (option jsstring) :=
  perform (gmail_attachments_get messageId id) (EvAttachmentsGet messageId id).
Definition fsMkdir (path : jsstring) : M () :=
  perform (fs_mkdir path) (λ _, EvMkdir path).
Definition fsAppendFile (path text : jsstring) : M () :=
  perform (fs_appendFile path text) (λ _, EvAppendFile path text).
Definition fsWriteFile (path : jsstring) (bytes : list Byte.byte) : M () :=
  perform (fs_writeFile path bytes) (EvWriteFile path bytes).
Definition dateISO : M jsstring :=
  perform (λ w, let '(t, w') := date_toISOString w in (Resolve t, w')) (λ _, EvDate).
Definition setTimeout (ms : Z) : M () :=
  perform (λ w, (Resolve (), sleep ms w)) (λ _, EvSleep ms).
Definition consoleError (text : jsstring) (error : JsError) : M () :=
  perform (λ w, (Resolve (), console_error text error w)) (λ _, EvConsoleError text).

Definition CONFIG_DIR : jsstring := pathJoin homedir (lit ".secure-gmail-mcp").
Definition AUDIT_LOG_PATH : jsstring := pathJoin CONFIG_DIR (lit "audit.log").

(** [auditLog(level, message)]. The call itself is noted in the trace
    ([EvAudit]) before the file system is touched. *)
Definition auditLog (level : string) (message : jsstring) : M () :=
  let* _ := record (EvAudit (lit level) message) in
  tryCatch
    (let* _ := fsMkdir CONFIG_DIR in
     let* timestamp := dateISO in
     let logEntry := lit "[" ++ timestamp ++ lit "] " ++ lit level
                     ++ lit ": " ++ message ++ [10%N] in
     fsAppendFile AUDIT_LOG_PATH logEntry)
    (λ error, consoleError (lit "Failed to write audit log:") error).

(** *** [readEmail] *)

(** The loop over [payload.parts] in [extractBody]. *)
Fixpoint firstPlainPart (parts : list MessagePart) : option jsstring :=
  match parts with
  | [] => None
  | part :: rest =>
      if mimeIs "text/plain" part && truthyOpt (bodyData part)
      then Some (bufferToString (bufferFromBase64 (orEmpty (bodyData part))))
      else firstPlainPart rest
  end.

Definition extractBody (payload : MessagePart) : jsstring :=
  if truthyOpt (bodyData payload)
  then bufferToString (bufferFromBase64 (orEmpty (bodyData payload)))
  else match parts payload with
       | Some ps => default [] (firstPlainPart ps)
       | None => []
       end.

(** The decoded body of a node: [Buffer.from(part.body.data, 'base64').toString()]. *)
Definition decoded (part : MessagePart) : jsstring :=
  bufferToString (bufferFromBase64 (orEmpty (bodyData part))).

(** A top-level part that the scan of [extractBody] stops at. *)
Definition plainWithData (part : MessagePart) : bool :=
  mimeIs "text/plain" part && truthyOpt (bodyData part).

(** The body that the scan of the top-level parts alone gives, whatever
    the payload itself carries. *)
Definition topLevelPlainBody (payload : MessagePart) : jsstring :=
  default [] (firstPlainPart (default [] (parts payload))).

(** [getHeader('To').split(',').map(t => t.trim())] *)
Definition recipients (hs : list Header) : json :=
  JArr (map (λ t, JStr (trim t)) (splitOn (ch ",") (getHeader hs "To"))).

(** Reading a property of [message.payload] when it is [undefined]. *)
Definition undefinedPayload : JsError :=
  MkError (lit "TypeError")
    (lit "Cannot read properties of undefined (reading 'body')").

(** The handlers return [{content: [{type: 'text', text:
    JSON.stringify(o, null, 2)}]}]; the model returns [o]. *)
Definition readEmail (messageId : jsval) : M json :=
  match messageId with
  | VStr mid =>
      if negb (truthyStr mid) then throw (Error (lit "Invalid messageId parameter"))
      else
        tryCatch
          (let* message := messagesGet mid (lit "full") in
           let hs := default [] (match payload message with
                                 | Some p => headers p | None => None end) in
           let* body :=
             match payload message with
             | Some p => ret (extractBody p)
             | None => throw undefinedPayload
             end in
           ret (JObj [kv "id" (JStr mid);
                      kv "threadId" (JStr (orEmpty (threadId message)));
                      kv "subject" (JStr (getHeader hs "Subject"));
                      kv "from" (JStr (getHeader hs "From"));
                      kv "to" (recipients hs);
                      kv "date" (JStr (getHeader hs "Date"));
                      kv "snippet" (JStr (orEmpty (snippet message)));
                      kv "body" (JStr (substring0 5000 body))]))
          (λ error, throw (Error (lit "Failed to read email: " ++ errorText error)))
  | _ => throw (Error (lit "Invalid messageId parameter"))
  end.

(** *** [readEmailHtml] *)

(** The three variables that [extractContent] assigns. *)
Record Extracted : Type := {
  htmlBody : jsstring;
  textBody : jsstring;
  attachmentCount : nat
}.

(** What [extractContent] does at one node, before it visits the parts. *)
Definition visit (acc : Extracted) (payload : MessagePart) : Extracted :=
  let acc1 :=
    if truthyOpt (bodyData payload) then
      let content := bufferToString (bufferFromBase64 (orEmpty (bodyData payload))) in
      if mimeIs "text/html" payload then
        {| htmlBody := content; textBody := textBody acc;
           attachmentCount := attachmentCount acc |}
      else if mimeIs "text/plain" payload then
        {| htmlBody := htmlBody acc; textBody := content;
           attachmentCount := attachmentCount acc |}
      else acc
    else acc in
  if truthyOpt (filename payload) && truthyOpt (bodyAttachmentId payload) then
    {| htmlBody := htmlBody acc1; textBody := textBody acc1;
       attachmentCount := S (attachmentCount acc1) |}
  else acc1.

Fixpoint extractContent (payload : MessagePart) (acc : Extracted) : Extracted :=
  let acc' := visit acc payload in
  match parts payload with
  | Some ps =>
      (fix forEach (ps : list MessagePart) (acc : Extracted) : Extracted :=
         match ps with
         | [] => acc
         | part :: rest => forEach rest (extractContent part acc)
         end) ps acc'
  | None => acc'
  end.

(** A node whose body [extractContent] keeps as the body of type [t]. *)
Definition carries (t : string) (part : MessagePart) : bool :=
  truthyOpt (bodyData part) && mimeIs t part.

(** The body of the last, and of the first, node of type [t] in a list
    of nodes; [[]] when there is none. *)
Definition lastBody (t : string) (nodes : list MessagePart) : jsstring :=
  match last (List.filter (carries t) nodes) with
  | Some part => decoded part
  | None => []
  end.

Definition firstBody (t : string) (nodes : list MessagePart) : jsstring :=
  match head (List.filter (carries t) nodes) with
  | Some part => decoded part
  | None => []
  end.

(** A node that [extractContent] counts as an attachment, and a node
    that carries an attachment identifier. *)
Definition countedAttachment (part : MessagePart) : bool :=
  truthyOpt (filename part) && truthyOpt (bodyAttachmentId part).

Definition hasAttachmentId (part : MessagePart) : bool :=
  truthyOpt (bodyAttachmentId part).

(** [/<br\s*\/?>/gi], [/<\/p>/gi], [/<[^>]*>/g] *)
Definition brRegex : regex :=
  Cat (Chr "<") (Cat (ChrI "b" "B") (Cat (ChrI "r" "R")
    (Cat (Star (Cls isSpace)) (Cat (Opt (Chr "/")) (Chr ">"))))).
Definition pCloseRegex : regex :=
  Cat (Chr "<") (Cat (Chr "/") (Cat (ChrI "p" "P") (Chr ">"))).
Definition tagRegex : regex :=
  Cat (Chr "<") (Cat (Star (Cls (λ c, negb (N.eqb c (ch ">"))))) (Chr ">")).

(** The basic HTML to text conversion. *)
Definition htmlToText (html : jsstring) : jsstring :=
  trim
    (replaceAll (Lit "&quot;") [34%N]
    (replaceAll (Lit "&gt;") (lit ">")
    (replaceAll (Lit "&lt;") (lit "<")
    (replaceAll (Lit "&amp;") (lit "&")
    (replaceAll (Lit "&nbsp;") (lit " ")
    (replaceAll tagRegex []
    (replaceAll pCloseRegex [10%N; 10%N]
    (replaceAll brRegex [10%N] html)))))))).

Definition readableContent (e : Extracted) : jsstring :=
  if negb (truthyStr (textBody e)) && truthyStr (htmlBody e)
  then htmlToText (htmlBody e)
  else textBody e.

Definition noContent : Extracted :=
  {| htmlBody := []; textBody := []; attachmentCount := 0 |}.

Definition readEmailHtml (messageId : jsval) : M json :=
  match messageId with
  | VStr mid =>
      if negb (truthyStr mid) then throw (Error (lit "Invalid messageId parameter"))
      else
        tryCatch
          (let* message := messagesGet mid (lit "full") in
           let hs := default [] (match payload message with
                                 | Some p => headers p | None => None end) in
           let* e :=
             match payload message with
             | Some p => ret (extractContent p noContent)
             | None => throw undefinedPayload
             end in
           ret (JObj [kv "id" (JStr mid);
                      kv "threadId" (JStr (orEmpty (threadId message)));
                      kv "subject" (JStr (getHeader hs "Subject"));
                      kv "from" (JStr (getHeader hs "From"));
                      kv "to" (recipients hs);
                      kv "date" (JStr (getHeader hs "Date"));
                      kv "snippet" (JStr (orEmpty (snippet message)));
                      kv "textContent" (JStr (substring0 10000 (readableContent e)));
                      kv "hasHtml" (JBool (truthyStr (htmlBody e)));
                      kv "attachmentCount" (JNum (Z.of_nat (attachmentCount e)));
                      kv "contentType"
                        (JStr (if truthyStr (htmlBody e) then lit "html" else lit "text"))]))
          (λ error, throw (Error (lit "Failed to read email HTML: " ++ errorText error)))
  | _ => throw (Error (lit "Invalid messageId parameter"))
  end.

(** *** [sendEmail] *)

(** The loop [for (const email of allEmails)]. *)
Fixpoint validateAll (allEmails : list jsstring) : M () :=
  match allEmails with
  | [] => ret ()
  | email :: rest =>
      if negb (validateEmail email)
      then throw (Error (lit "Invalid email address: " ++ email))
      else validateAll rest
  end.

(** [[...to, ...cc, ...bcc]], with [cc] and [bcc] defaulting to [[]]. *)
Definition allEmails (args : SendEmailRequest.t) : list jsstring :=
  match SendEmailRequest.to args with VArr to => to | _ => [] end
  ++ default [] (SendEmailRequest.cc args)
  ++ default [] (SendEmailRequest.bcc args).

Definition sendEmail (args : SendEmailRequest.t) : M json :=
  let cc := default [] (SendEmailRequest.cc args) in
  let bcc := default [] (SendEmailRequest.bcc args) in
  match SendEmailRequest.to args with
  | VArr to =>
      if (length to =? 0)%nat
      then throw (Error (lit "Recipients (to) must be a non-empty array"))
      else
      match SendEmailRequest.subject args with
      | VStr subject =>
          if negb (truthyStr subject) || (strlen subject >? 255)
          then throw (Error (lit "Subject must be a string with max 255 characters"))
          else
          match SendEmailRequest.body args with
          | VStr body =>
              if negb (truthyStr body) || (strlen body >? 10000)
              then throw (Error (lit "Body must be a string with max 10000 characters"))
              else
                let* _ := validateAll (to ++ cc ++ bcc) in
                let* _ := auditLog "WARN"
                  (lit "Email send attempt - To: " ++ join (lit ", ") to
                   ++ lit ", Subject: " ++ subject) in
                tryCatch
                  (let emailLines :=
                     [lit "To: " ++ join (lit ", ") to]
                     ++ (if (0 <? length cc)%nat
                         then [lit "Cc: " ++ join (lit ", ") cc] else [])
                     ++ (if (0 <? length bcc)%nat
                         then [lit "Bcc: " ++ join (lit ", ") bcc] else [])
                     ++ [lit "Subject: " ++ sanitizeInput subject;
                         lit "Content-Type: text/plain; charset=utf-8";
                         [];
                         sanitizeInput body] in
                   let email := join [10%N] emailLines in
                   let encodedEmail := bufferToBase64url (bufferFromUtf8 email) in
                   let* responseId := messagesSend encodedEmail in
                   let* _ := auditLog "INFO"
                     (lit "Email sent successfully - ID: " ++ optText responseId) in
                   let* timestamp := dateISO in
                   ret (JObj ([kv "success" (JBool true)]
                              ++ fieldOpt "messageId" responseId
                              ++ [kv "to" (JArr (map JStr to));
                                  kv "subject" (JStr (sanitizeInput subject));
                                  kv "timestamp" (JStr timestamp)])))
                  (λ error,
                     let* _ := auditLog "ERROR"
                       (lit "Email send failed: " ++ errorText error) in
                     throw (Error (lit "Failed to send email: " ++ errorText error)))
          | _ => throw (Error (lit "Body must be a string with max 10000 characters"))
          end
      | _ => throw (Error (lit "Subject must be a string with max 255 characters"))
      end
  | _ => throw (Error (lit "Recipients (to) must be a non-empty array"))
  end.

(** *** [downloadAttachment] *)

Definition downloadAttachment (args : DownloadAttachmentRequest.t) : M json :=
  if negb (truthyOpt (DownloadAttachmentRequest.messageId args))
     || negb (truthyOpt (DownloadAttachmentRequest.attachmentId args))
  then throw (Error (lit "messageId and attachmentId are required"))
  else
    let messageId := orEmpty (DownloadAttachmentRequest.messageId args) in
    let attachmentId := orEmpty (DownloadAttachmentRequest.attachmentId args) in
    tryCatch
      (let* attachmentData := attachmentsGet messageId attachmentId in
       if negb (truthyOpt attachmentData)
       then throw (Error (lit "No attachment data received"))
       else
         let buffer := bufferFromBase64url (orEmpty attachmentData) in
         let downloadsDir := pathJoin CONFIG_DIR (lit "downloads") in
         let* _ := fsMkdir downloadsDir in
         let* now := dateISO in
         let timestamp :=
           replaceAll (Cls (λ c, N.eqb c (ch ":") || N.eqb c (ch "."))) (lit "-") now in
         let finalFilename :=
           if truthyOpt (DownloadAttachmentRequest.filename args)
           then orEmpty (DownloadAttachmentRequest.filename args)
           else lit "attachment_" ++ timestamp in
         let filePath := pathJoin downloadsDir finalFilename in
         let* _ := fsWriteFile filePath buffer in
         let* _ := auditLog "INFO"
           (lit "Downloaded attachment " ++ attachmentId ++ lit " as "
            ++ finalFilename ++ lit " (" ++ natText (length buffer) ++ lit " bytes)") in
         let* downloadedAt := dateISO in
         ret (JObj [kv "success" (JBool true);
                    kv "messageId" (JStr messageId);
                    kv "attachmentId" (JStr attachmentId);
                    kv "filename" (JStr finalFilename);
                    kv "filePath" (JStr filePath);
                    kv "size" (JNum (Z.of_nat (length buffer)));
                    kv "downloadedAt" (JStr downloadedAt)]))
      (λ error,
         let* _ := auditLog "ERROR"
           (lit "Failed to download attachment: " ++ errorText error) in
         throw (Error (lit "Failed to download attachment: " ++ errorText error))).

(** *** [emptySpam] *)

Definition batchSize : nat := 50.

(** [spamMessages.slice(i, j)] *)
Definition slice {A} (i j : nat) (l : list A) : list A :=
  take (j - i) (drop i l).

(** The inner loop [for (const message of batch)]. *)
Fixpoint deleteBatch (batch : list Message) (deletedCount : nat) : M nat :=
  match batch with
  | [] => ret deletedCount
  | message :: rest =>
      if truthyOpt (id message) then
        let* deletedCount' :=
          tryCatch
            (let* _ := messagesDelete (orEmpty (id message)) in
             ret (S deletedCount))
            (λ error,
               let* _ := auditLog "ERROR"
                 (lit "Failed to delete spam email " ++ orEmpty (id message)
                  ++ lit ": " ++ errorText error) in
               ret deletedCount) in
        deleteBatch rest deletedCount'
      else deleteBatch rest deletedCount
  end.

(** The outer loop [for (let i = 0; i < spamMessages.length; i += batchSize)],
    entered at index [i]; one unit of [fuel] per turn. *)
Fixpoint batchLoop (fuel : nat) (spamMessages : list Message)
    (i deletedCount : nat) : M nat :=
  match fuel with
  | O => λ st, (OutOfFuel, st)
  | S fuel' =>
      if (i <? length spamMessages)%nat then
        let batch := slice i (i + batchSize) spamMessages in
        let* deletedCount' := deleteBatch batch deletedCount in
        let* _ := (if (i + batchSize <? length spamMessages)%nat
                   then setTimeout 1000 else ret ()) in
        batchLoop fuel' spamMessages (i + batchSize) deletedCount'
      else ret deletedCount
  end.

Definition refusal : json :=
  JObj [kv "error" (JStr (lit "Confirmation required"));
        kv "message" (JStr (lit "To empty spam, you must set confirm: true"));
        kv "warning"
          (JStr (lit "This will permanently delete ALL emails in spam folder"))].

Definition emptySpam (confirm : jsval) : M json :=
  if negb (truthy confirm) then ret refusal
  else
    tryCatch
      (let* _ := auditLog "WARN"
         (lit "Starting spam folder cleanup - USER INITIATED") in
       let* listed := messagesList (lit "in:spam") 500 in
       let spamMessages := default [] listed in
       if (length spamMessages =? 0)%nat then
         let* _ := auditLog "INFO" (lit "Spam folder is already empty") in
         ret (JObj [kv "success" (JBool true);
                    kv "message" (JStr (lit "Spam folder is already empty"));
                    kv "deletedCount" (JNum 0)])
       else
         let* deletedCount :=
           batchLoop (S (length spamMessages)) spamMessages 0 0 in
         let* _ := auditLog "WARN"
           (lit "Spam cleanup completed - Deleted " ++ natText deletedCount
            ++ lit " emails") in
         let* completedAt := dateISO in
         ret (JObj [kv "success" (JBool true);
                    kv "message" (JStr (lit "Spam folder successfully emptied"));
                    kv "totalFound" (JNum (Z.of_nat (length spamMessages)));
                    kv "deletedCount" (JNum (Z.of_nat deletedCount));
                    kv "completedAt" (JStr completedAt)]))
      (λ error,
         let* _ := auditLog "ERROR"
           (lit "Failed to empty spam folder: " ++ errorText error) in
         throw (Error (lit "Failed to empty spam folder: " ++ errorText error))).

End Handlers.

Notation "'let*' x := m 'in' k" := (bind m (λ x, k)).

End Server.

(** ** A simulated runtime and mailbox

    One instance of the two interfaces, to run the handlers on concrete
    inputs: base64 of RFC 4648 in both alphabets, text restricted to
    ASCII, and a mailbox held in a record. *)

Module Sim.

(** The value of a base64 digit, in either alphabet. *)
Definition sextet (c : jschar) : option N :=
  (if (65 <=? c) && (c <=? 90) then Some (c - 65)
   else if (97 <=? c) && (c <=? 122) then Some (c - 71)
   else if (48 <=? c) && (c <=? 57) then Some (c + 4)
   else if (c =? 43) || (c =? 45) then Some 62
   else if (c =? 47) || (c =? 95) then Some 63
   else None)%N.

(** The digits up to the first padding character. *)
Fixpoint sextets (s : jsstring) : list N :=
  match s with
  | [] => []
  | c :: s' =>
      if (c =? 61)%N then []
      else match sextet c with
           | Some v => v :: sextets s'
           | None => sextets s'
           end
  end.

Definition byteOf (n : N) : Byte.byte :=
  default Byte.x00 (Byte.of_N (n mod 256)).

Fixpoint packBytes (vs : list N) : list Byte.byte :=
  match vs with
  | a :: b :: c :: d :: rest =>
      byteOf (a * 4 + b / 16) :: byteOf (b * 16 + c / 4)
      :: byteOf (c * 64 + d) :: packBytes rest
  | [a; b; c] => [byteOf (a * 4 + b / 16); byteOf (b * 16 + c / 4)]
  | [a; b] => [byteOf (a * 4 + b / 16)]
  | _ => []
  end%N.

Definition decode64 (s : jsstring) : list Byte.byte :=
  packBytes (sextets s).

Definition digit64url (v : N) : jschar :=
  (if v <? 26 then v + 65
   else if v <? 52 then v + 71
   else if v <? 62 then v - 4
   else if v =? 62 then 45 else 95)%N.

Fixpoint encode64url (bytes : list Byte.byte) : jsstring :=
  match bytes with
  | x :: y :: z :: rest =>
      let '(a, b, c) := (Byte.to_N x, Byte.to_N y, Byte.to_N z) in
      (digit64url (a / 4) :: digit64url ((a mod 4) * 16 + b / 16)
       :: digit64url ((b mod 16) * 4 + c / 64) :: digit64url (c mod 64)
       :: encode64url rest)%N
  | [x; y] =>
      let '(a, b) := (Byte.to_N x, Byte.to_N y) in
      [digit64url (a / 4); digit64url ((a mod 4) * 16 + b / 16);
       digit64url ((b mod 16) * 4)]%N
  | [x] =>
      let a := Byte.to_N x in
      [digit64url (a / 4); digit64url ((a mod 4) * 16)]%N
  | [] => []
  end.

#[export] Instance runtime : NodeRuntime := {|
  bufferFromBase64 := decode64;
  bufferFromBase64url := decode64;
  bufferFromUtf8 := map byteOf;
  bufferToString := map Byte.to_N;
  bufferToBase64url := encode64url;
  pathJoin := λ a b, a ++ lit "/" ++ b;
  homedir := lit "/home/user"
|}.

Record Mailbox : Type := {
  inbox : list Message;
  spam : list Message;
  (** identifiers whose deletion the API rejects *)
  locked : list jsstring;
  (** the attachment that any attachment request yields *)
  attachment : option jsstring;
  disk : list (jsstring * list Byte.byte);
  slept : Z
}.

Definition hasId (mid : jsstring) (m : Message) : bool :=
  bool_decide (id m = Some mid).

#[export] Instance environment : Environment := {|
  World := Mailbox;
  gmail_messages_list := λ q maxResults w,
    (Resolve (match spam w with [] => None | l => Some l end), w);
  gmail_messages_get := λ mid format w,
    (match List.find (hasId mid) (inbox w) with
     | Some m => Resolve m
     | None => Reject (Error (lit "Not Found"))
     end, w);
  gmail_messages_delete := λ mid w,
    if bool_decide (mid ∈ locked w)
    then (Reject (Error (lit "Forbidden")), w)
    else (Resolve (),
          {| inbox := inbox w;
             spam := List.filter (λ m, negb (hasId mid m)) (spam w);
             locked := locked w; attachment := attachment w;
             disk := disk w; slept := slept w |});
  gmail_messages_send := λ raw w, (Resolve (Some (lit "sent-1")), w);
  gmail_attachments_get := λ mid aid w, (Resolve (attachment w), w);
  fs_mkdir := λ path w, (Resolve (), w);
  fs_appendFile := λ path text w, (Resolve (), w);
  fs_writeFile := λ path bytes w,
    (Resolve (),
     {| inbox := inbox w; spam := spam w; locked := locked w;
        attachment := attachment w; disk := disk w ++ [(path, bytes)];
        slept := slept w |});
  date_toISOString := λ w, (lit "2024-01-01T00:00:00.000Z", w);
  date_now := λ w, (1704067200000, w);
  sleep := λ ms w,
    {| inbox := inbox w; spam := spam w; locked := locked w;
       attachment := attachment w; disk := disk w; slept := slept w + ms |};
  console_error := λ text error w, w
|}.

Definition emptyMailbox : Mailbox :=
  {| inbox := []; spam := []; locked := []; attachment := None;
     disk := []; slept := 0 |}.

(** A field that is absent when the text is empty. *)
Definition present (s : string) : option jsstring :=
  match s with EmptyString => None | _ => Some (lit s) end.

(** A leaf of a MIME tree; an empty text stands for an absent field. *)
Definition leaf (type name content attachment : string) : MessagePart :=
  {| mimeType := Some (lit type);
     filename := present name;
     headers := None;
     body := Some {| attachmentId := present attachment;
                     data := present content; size := None |};
     parts := None |}.

(** A multipart container. *)
Definition multipart (type : string) (children : list MessagePart) : MessagePart :=
  {| mimeType := Some (lit type); filename := Some []; headers := None;
     body := Some {| attachmentId := None; data := None; size := Some 0 |};
     parts := Some children |}.

Definition message (mid : string) (p : MessagePart) : Message :=
  {| id := Some (lit mid); threadId := Some (lit "t1");
     snippet := Some []; payload := Some p |}.

(** [n] spam messages [m0], [m1], ... *)
Definition spamOf (n : nat) : list Message :=
  map (λ i, {| id := Some (lit "m" ++ natText i); threadId := None;
              snippet := None; payload := None |}) (seq 0 n).

(** The state of a process that has done nothing yet. *)
Definition start (w : Mailbox) : Server.State :=
  {| Server.world := w; Server.requests := ∅; Server.trace := [] |}.

(** A message of type [text/html] only: ["<b>hi</b>"]. *)
Definition htmlOnly : MessagePart :=
  leaf "text/html" "" "PGI+aGk8L2I+" "".

(** A payload that carries a body itself, next to a plain-text part. *)
Definition bodyAndParts : MessagePart :=
  withParts (Some [leaf "text/plain" "" "UA==" ""]) htmlOnly.

(** A multipart message: a nested alternative (plain ["A"], HTML
    ["<p>x</p>"]), a second plain part ["B"], an attachment with a file
    name, and a part with an attachment identifier but no file name. *)
Definition mixed : MessagePart :=
  multipart "multipart/mixed"
    [multipart "multipart/alternative"
       [leaf "text/plain" "" "QQ==" "";
        leaf "text/html" "" "PHA+eDwvcD4=" ""];
     leaf "text/plain" "" "Qg==" "";
     leaf "application/pdf" "a.pdf" "" "att-1";
     leaf "image/png" "" "" "att-2"].

(** An HTML body and no plain-text part.  *)
Definition htmlLetter : MessagePart :=
  multipart "multipart/related"
    [leaf "text/html" ""
       "PHA+SGk8YnIvPnRoZXJlICZhbXA7IDxiPnlvdTwvYj48L3A+" ""].

Definition box : Mailbox :=
  {| inbox := [message "m1" mixed; message "m2" htmlOnly;
               message "m3" htmlLetter; message "m4" bodyAndParts];
     spam := spamOf 120;
     locked := [lit "m3"; lit "m77"];
     attachment := Some (lit "SGVsbG8");
     disk := []; slept := 0 |}.

End Sim.

(** ** Calls of several clients *)

Module RateLimitMany.
Import RateLimit.

(** A sequence of calls, each by a client at a clock reading: the
    decision of each call, in order, and the final table. *)
Fixpoint serveAll (calls : list (jsstring * Z))
    (requests : gmap jsstring (list Z))
    : list (jsstring * Z * bool) * gmap jsstring (list Z) :=
  match calls with
  | [] => ([], requests)
  | (clientId, now) :: calls' =>
      let '(ok, requests') := checkRateLimit clientId now requests in
      let '(ds, final) := serveAll calls' requests' in
      ((clientId, now, ok) :: ds, final)
  end.

(** The clock readings of the calls of one client, and the decisions
    taken for that client. *)
Definition callsOf (clientId : jsstring) (calls : list (jsstring * Z)) : list Z :=
  snd <$> filter (λ call, call.1 = clientId) calls.

Definition decisionsOf (clientId : jsstring)
    (ds : list (jsstring * Z * bool)) : list (Z * bool) :=
  (λ d, (d.1.2, d.2)) <$> filter (λ d, d.1.1 = clientId) ds.

End RateLimitMany.

(** ** [listAttachments] *)

Module Attachments.
Import Server.

Section Handlers.
Context {RT : NodeRuntime} {ENV : Environment}.

(** One entry of the list: [AttachmentInfo]. *)
Definition attachmentInfo (part : MessagePart) (index : nat) : json :=
  JObj [kv "id" (JStr (orEmpty (bodyAttachmentId part)));
        kv "filename"
          (JStr (if truthyOpt (filename part) then orEmpty (filename part)
                 else lit "attachment_" ++ natText index));
        kv "mimeType"
          (JStr (if truthyOpt (mimeType part) then orEmpty (mimeType part)
                 else lit "application/octet-stream"));
        kv "size"
          (JNum (match body part with
                 | Some b => default 0 (size b)
                 | None => 0
                 end))].

(** [extractAttachments(parts)]: the entries pushed for the parts of one
    array and, after each part, for the parts below it. *)
Fixpoint extractFrom (part : MessagePart) (index : nat)
    (attachments : list json) : list json :=
  let attachments1 :=
    if truthyOpt (filename part) && truthyOpt (bodyAttachmentId part)
    then attachments ++ [attachmentInfo part index]
    else attachments in
  match parts part with
  | Some ps =>
      (fix forEach (ps : list MessagePart) (index : nat) (acc : list json)
         : list json :=
         match ps with
         | [] => acc
         | p :: rest => forEach rest (S index) (extractFrom p index acc)
         end) ps 0%nat attachments1
  | None => attachments1
  end.

Definition extractAttachments (ps : list MessagePart)
    (attachments : list json) : list json :=
  (fix forEach (ps : list MessagePart) (index : nat) (acc : list json)
     : list json :=
     match ps with
     | [] => acc
     | p :: rest => forEach rest (S index) (extractFrom p index acc)
     end) ps 0%nat attachments.

(** The attachments of a payload: those of its parts when it has parts,
    else the payload itself when it is an attachment. *)
Definition attachmentsOf (payload : option MessagePart) : list json :=
  match payload with
  | Some p =>
      match parts p with
      | Some ps => extractAttachments ps []
      | None =>
          if truthyOpt (filename p) && truthyOpt (bodyAttachmentId p)
          then [JObj [kv "id" (JStr (orEmpty (bodyAttachmentId p)));
                      kv "filename" (JStr (orEmpty (filename p)));
                      kv "mimeType"
                        (JStr (if truthyOpt (mimeType p)
                               then orEmpty (mimeType p)
                               else lit "application/octet-stream"));
                      kv "size"
                        (JNum (match body p with
                               | Some b => default 0 (size b)
                               | None => 0
                               end))]]
          else []
      end
  | None => []
  end.

Definition listAttachments (messageId : jsval) : M json :=
  match messageId with
  | VStr mid =>
      if negb (truthyStr mid) then throw (Error (lit "Invalid messageId parameter"))
      else
        tryCatch
          (let* message := messagesGet mid (lit "full") in
           let attachments := attachmentsOf (payload message) in
           let* _ := auditLog "INFO"
             (lit "Listed " ++ natText (length attachments)
              ++ lit " attachments for message " ++ mid) in
           ret (JObj [kv "messageId" (JStr mid);
                      kv "attachmentCount" (JNum (Z.of_nat (length attachments)));
                      kv "attachments" (JArr attachments)]))
          (λ error,
             throw (Error (lit "Failed to list attachments: " ++ errorText error)))
  | _ => throw (Error (lit "Invalid messageId parameter"))
  end.

(** The nodes below a payload, in preorder. *)
Definition below (payload : MessagePart) : list MessagePart :=
  match preorder payload with
  | _ :: nodes => nodes
  | [] => []
  end.

End Handlers.
End Attachments.

(** ** More readings of a trace *)

Module ObserveMore.

(** The identifier of a deletion, the length of a pause, the arguments
    of a listing, the text of a message sent and the file appended to. *)
Definition deletedId (e : Event) : option jsstring :=
  match e with EvMessagesDelete id _ => Some id | _ => None end.

Definition pauseOf (e : Event) : option Z :=
  match e with EvSleep ms => Some ms | _ => None end.


Definition sentRaw (e : Event) : option jsstring :=
  match e with EvMessagesSend raw => Some raw | _ => None end.

Definition appended (e : Event) : option (jsstring * jsstring) :=
  match e with EvAppendFile path text => Some (path, text) | _ => None end.

(** The calls of [auditLog], with level and message. *)
Definition auditCall (e : Event) : option (jsstring * jsstring) :=
  match e with EvAudit level message => Some (level, message) | _ => None end.

End ObserveMore.

(** ** The conditions under which [sendEmail] sends *)

Module SendGate.
Import Validation Server.

(** [to] is a non-empty array, [subject] a non-empty string of at most
    255 characters, [body] a non-empty string of at most 10000, and
    every address of [to], [cc] and [bcc] passes [validateEmail]. *)
Definition wellFormed (args : SendEmailRequest.t) : bool :=
  match SendEmailRequest.to args, SendEmailRequest.subject args,
        SendEmailRequest.body args with
  | VArr (_ :: _), VStr subject, VStr body =>
      truthyStr subject && (strlen subject <=? 255)
      && truthyStr body && (strlen body <=? 10000)
      && forallb validateEmail (allEmails args)
  | _, _, _ => false
  end.

End SendGate.

(** ** The server object: the remaining handlers and the request handler *)

Module Label.
(** [gmail_v1.Schema$Label], the fields that [listLabels] reads. *)
Record t : Type := {
  id : option jsstring;
  name : option jsstring;
  type : option jsstring;
  messagesTotal : option Z;
  messagesUnread : option Z
}.
End Label.

Module SearchEmailsArgs.
(** The arguments of [searchEmails]: [query] as it arrives, and
    [maxResults], an integer, when it is given. *)
Record t : Type := {
  query : jsval;
  maxResults : option Z
}.
End SearchEmailsArgs.

Module Request.
(** [request.params]: the tool name and the untyped [arguments] object,
    as each handler reads it at its declared type ([args as any]), and
    the text that [JSON.stringify(args)] gives. *)
Record t : Type := {
  name : jsstring;
  argumentsText : jsstring;
  asSearch : SearchEmailsArgs.t;
  asMessageId : jsval;
  asDownload : DownloadAttachmentRequest.t;
  asSend : SendEmailRequest.t;
  asConfirm : jsval
}.
End Request.

Module Dispatch.
Import Regex Validation Server Attachments.

(** The operations of the outside world that the handlers of [Server]
    do not use: two more of the mail API, reading a file, and the
    OAuth2 client of [google-auth-library]. *)
Class Services {ENV : Environment} : Type := {
  OAuth2Client : Type;
  Credentials : Type;
  (** [gmail.users.labels.list({userId: 'me'})]: [data.labels] *)
  gmail_labels_list : World → Reply (option (list Label.t)) * World;
  (** [gmail.users.messages.get({userId: 'me', id, format: 'metadata',
      metadataHeaders})]: [data] *)
  gmail_messages_get_metadata :
    jsstring → list jsstring → World → Reply Message * World;
  (** [fs.readFile(path, 'utf8')] *)
  fs_readFile : jsstring → World → Reply jsstring * World;
  (** [JSON.parse(credentialsContent)], the destructuring of
      [credentials.web || credentials.installed] and
      [new google.auth.OAuth2(client_id, client_secret, redirect_uris[0])] *)
  newOAuth2 : jsstring → Reply OAuth2Client;
  (** [JSON.parse(tokenContent)] *)
  parseToken : jsstring → Reply Credentials;
  (** [auth.setCredentials(token); await auth.getAccessToken()] *)
  oauth_getAccessToken : OAuth2Client → Credentials → World → Reply () * World
}.

(** What the server did, in order: the events of the handlers of
    [Server] and those of the operations above. *)
Inductive Step : Type :=
| Core (e : Event)
| EvLabelsList
| EvMessagesGetMetadata (id : jsstring) (metadataHeaders : list jsstring)
| EvReadFile (path : jsstring)
| EvGetAccessToken.

(** A call to the mail API. *)
Definition isApiStep (s : Step) : bool :=
  match s with
  | Core e => isMailApi e
  | EvLabelsList | EvMessagesGetMetadata _ _ => true
  | EvReadFile _ | EvGetAccessToken => false
  end.

(** A call of [auditLog], with its level and message. *)
Definition auditOf (s : Step) : option (jsstring * jsstring) :=
  match s with
  | Core (EvAudit level message) => Some (level, message)
  | _ => None
  end.

(** A deletion, with the identifier. *)
Definition deletionOf (s : Step) : option jsstring :=
  match s with
  | Core (EvMessagesDelete id _) => Some id
  | _ => None
  end.

(** A metadata request, with the identifier. *)
Definition metadataOf (s : Step) : option jsstring :=
  match s with
  | EvMessagesGetMetadata id _ => Some id
  | _ => None
  end.

(** A listing request, with the query and the bound. *)
Definition listingOf (s : Step) : option (jsstring * Z) :=
  match s with
  | Core (EvMessagesList q maxResults) => Some (q, maxResults)
  | _ => None
  end.

Reserved Notation "'let+' x := m 'in' k"
  (at level 10, x binder, m at level 100, k at level 200).

Section Handlers.
Context {RT : NodeRuntime} {ENV : Environment} {SVC : Services}.

(** The server object and its surroundings: the outside world, the
    table [RATE_LIMIT.requests], the fields [this.auth] and [this.gmail]
    ([gmail] tells whether the client handle is set), and the record of
    what was done. *)
Record Process : Type := {
  outside : World;
  limits : gmap jsstring (list Z);
  auth : option OAuth2Client;
  gmail : bool;
  log : list Step
}.

Definition P (A : Type) : Type := Process → Outcome A * Process.

Definition retP {A} (a : A) : P A := λ p, (Ok a, p).

Definition throwP {A} (e : JsError) : P A := λ p, (Throw e, p).

Definition bindP {A B} (m : P A) (k : A → P B) : P B :=
  λ p, match m p with
       | (Ok a, p') => k a p'
       | (Throw e, p') => (Throw e, p')
       | (OutOfFuel, p') => (OutOfFuel, p')
       end.

Definition tryCatchP {A} (m : P A) (handler : JsError → P A) : P A :=
  λ p, match m p with
       | (Throw e, p') => handler e p'
       | other => other
       end.

Notation "'let+' x := m 'in' k" := (bindP m (λ x, k)).

(** A handler of [Server] run by the server object: it sees the world
    and the table, and what it appends to its trace goes to the log. *)
Definition liftM {A} (m : M A) : P A :=
  λ p, let '(r, st) := m {| world := outside p; requests := limits p;
                            trace := [] |} in
       (r, {| outside := world st; limits := requests st; auth := auth p;
              gmail := gmail p; log := log p ++ (Core <$> trace st) |}).

Definition performP {A} (op : World → Reply A * World) (ev : Step) : P A :=
  λ p, let '(reply, w) := op (outside p) in
       let p' := {| outside := w; limits := limits p; auth := auth p;
                    gmail := gmail p; log := log p ++ [ev] |} in
       match reply with
       | Resolve a => (Ok a, p')
       | Reject e => (Throw e, p')
       end.

(** A pure operation that may throw. *)
Definition attempt {A} (r : Reply A) : P A :=
  match r with Resolve a => retP a | Reject e => throwP e end.

Definition labelsList : P (option (list Label.t)) :=
  performP gmail_labels_list EvLabelsList.
Definition messagesGetMetadata (id : jsstring) (metadataHeaders : list jsstring)
    : P Message :=
  performP (gmail_messages_get_metadata id metadataHeaders)
    (EvMessagesGetMetadata id metadataHeaders).
Definition fsReadFile (path : jsstring) : P jsstring :=
  performP (fs_readFile path) (EvReadFile path).
Definition getAccessToken (client : OAuth2Client) (token : Credentials) : P () :=
  performP (oauth_getAccessToken client token) EvGetAccessToken.

(** [Date.now()] *)
Definition dateNow : M Z :=
  perform (λ w, let '(t, w') := date_now w in (Resolve t, w')) (λ _, EvDate).

Definition CREDENTIALS_PATH : jsstring := pathJoin CONFIG_DIR (lit "credentials.json").
Definition TOKEN_PATH : jsstring := pathJoin CONFIG_DIR (lit "token.json").

(** *** [checkRateLimit] *)

Definition checkRateLimit (clientId : jsstring) : P bool :=
  let+ now := liftM dateNow in
  λ p, let '(ok, table) := RateLimit.checkRateLimit clientId now (limits p) in
       (Ok ok, {| outside := outside p; limits := table; auth := auth p;
                  gmail := gmail p; log := log p |}).

(** *** [authenticate] *)

Definition authenticate : P () :=
  tryCatchP
    (let+ credentialsContent := fsReadFile CREDENTIALS_PATH in
     let+ client := attempt (newOAuth2 credentialsContent) in
     let+ _ := (λ p, (Ok (), {| outside := outside p; limits := limits p;
                                auth := Some client; gmail := gmail p;
                                log := log p |})) in
     tryCatchP
       (let+ tokenContent := fsReadFile TOKEN_PATH in
        let+ token := attempt (parseToken tokenContent) in
        let+ _ := getAccessToken client token in
        let+ _ := (λ p, (Ok (), {| outside := outside p; limits := limits p;
                                   auth := auth p; gmail := true;
                                   log := log p |})) in
        liftM (auditLog "INFO" (lit "Authentication successful")))
       (λ error,
          let+ _ := liftM (auditLog "WARN"
            (lit "Token validation failed, re-authentication required")) in
          throwP (Error (lit "Authentication required. Please run: npm run auth"))))
    (λ error,
       let+ _ := liftM (auditLog "ERROR"
         (lit "Authentication failed: " ++ errorText error)) in
       throwP (Error (lit "Gmail authentication failed. Check credentials file."))).

(** *** [searchEmails] *)

(** One entry of the result: [EmailMessage] without a body. *)
Definition summary (mid : jsstring) (detail : Message) : json :=
  let hs := default [] (match payload detail with
                        | Some p => headers p | None => None end) in
  JObj [kv "id" (JStr mid);
        kv "threadId" (JStr (orEmpty (threadId detail)));
        kv "subject" (JStr (getHeader hs "Subject"));
        kv "from" (JStr (getHeader hs "From"));
        kv "to" (recipients hs);
        kv "date" (JStr (getHeader hs "Date"));
        kv "snippet" (JStr (orEmpty (snippet detail)))].

(** The loop [for (const message of messages)]. *)
Fixpoint fetchDetails (messages : list Message) (detailedMessages : list json)
    : P (list json) :=
  match messages with
  | [] => retP detailedMessages
  | message :: rest =>
      if truthyOpt (id message) then
        let+ detail :=
          messagesGetMetadata (orEmpty (id message))
            [lit "From"; lit "To"; lit "Subject"; lit "Date"] in
        fetchDetails rest
          (detailedMessages ++ [summary (orEmpty (id message)) detail])
      else fetchDetails rest detailedMessages
  end.

Definition searchEmails (args : SearchEmailsArgs.t) : P json :=
  let maxResults := default 10 (SearchEmailsArgs.maxResults args) in
  match SearchEmailsArgs.query args with
  | VStr query =>
      if negb (truthyStr query) then throwP (Error (lit "Invalid query parameter"))
      else
        let sanitizedQuery := sanitizeInput query in
        tryCatchP
          (let+ listed := liftM (messagesList sanitizedQuery (Z.min maxResults 50)) in
           let messages := default [] listed in
           let+ detailedMessages := fetchDetails messages [] in
           retP (JObj [kv "query" (JStr sanitizedQuery);
                       kv "resultCount" (JNum (Z.of_nat (length detailedMessages)));
                       kv "messages" (JArr detailedMessages)]))
          (λ error,
             throwP (Error (lit "Failed to search emails: " ++ errorText error)))
  | _ => throwP (Error (lit "Invalid query parameter"))
  end.

(** *** [listLabels] *)

Definition optNum (key : string) (v : option Z) : list (string * json) :=
  match v with Some n => [kv key (JNum n)] | None => [] end.

Definition labelEntry (label : Label.t) : json :=
  JObj (fieldOpt "id" (Label.id label) ++ fieldOpt "name" (Label.name label)
        ++ fieldOpt "type" (Label.type label)
        ++ optNum "messagesTotal" (Label.messagesTotal label)
        ++ optNum "messagesUnread" (Label.messagesUnread label)).

Definition listLabels : P json :=
  tryCatchP
    (let+ listed := labelsList in
     let filteredLabels := map labelEntry (default [] listed) in
     retP (JObj [kv "labels" (JArr filteredLabels);
                 kv "count" (JNum (Z.of_nat (length filteredLabels)))]))
    (λ error, throwP (Error (lit "Failed to list labels: " ++ errorText error))).

(** *** [deleteEmail] *)

Definition deleteEmail (messageId : jsval) : P json :=
  match messageId with
  | VStr mid =>
      if negb (truthyStr mid) then throwP (Error (lit "Invalid messageId parameter"))
      else
        tryCatchP
          (let+ emailResponse :=
             messagesGetMetadata mid [lit "From"; lit "Subject"; lit "Date"] in
           let hs := default [] (match payload emailResponse with
                                 | Some p => headers p | None => None end) in
           let subject := getHeader hs "Subject" in
           let from := getHeader hs "From" in
           let+ _ := liftM (messagesDelete mid) in
           let+ _ := liftM (auditLog "WARN"
             (lit "Email deleted - ID: " ++ mid ++ lit ", Subject: " ++ subject
              ++ lit ", From: " ++ from)) in
           let+ deletedAt := liftM dateISO in
           retP (JObj [kv "success" (JBool true);
                       kv "messageId" (JStr mid);
                       kv "subject" (JStr subject);
                       kv "from" (JStr from);
                       kv "deletedAt" (JStr deletedAt);
                       kv "action" (JStr (lit "permanently_deleted"))]))
          (λ error,
             let+ _ := liftM (auditLog "ERROR"
               (lit "Failed to delete email " ++ mid ++ lit ": " ++ errorText error)) in
             throwP (Error (lit "Failed to delete email: " ++ errorText error)))
  | _ => throwP (Error (lit "Invalid messageId parameter"))
  end.

(** *** The request handlers *)

(** The names in the answer to [ListToolsRequestSchema]. *)
Definition advertised : list jsstring :=
  [lit "search_emails"; lit "read_email"; lit "send_email";
   lit "list_attachments"; lit "download_attachment"; lit "read_email_html";
   lit "delete_email"; lit "empty_spam"].

(** The [switch (name)] of the handler of [CallToolRequestSchema]:
    [None] stands for the [default] branch. *)
Definition route (request : Request.t) : option (P json) :=
  let name := Request.name request in
  if bool_decide (name = lit "search_emails")
  then Some (searchEmails (Request.asSearch request))
  else if bool_decide (name = lit "read_email")
  then Some (liftM (readEmail (Request.asMessageId request)))
  else if bool_decide (name = lit "read_email_html")
  then Some (liftM (readEmailHtml (Request.asMessageId request)))
  else if bool_decide (name = lit "list_attachments")
  then Some (liftM (listAttachments (Request.asMessageId request)))
  else if bool_decide (name = lit "download_attachment")
  then Some (liftM (downloadAttachment (Request.asDownload request)))
  else if bool_decide (name = lit "delete_email")
  then Some (deleteEmail (Request.asMessageId request))
  else if bool_decide (name = lit "empty_spam")
  then Some (liftM (emptySpam (Request.asConfirm request)))
  else if bool_decide (name = lit "send_email")
  then Some (liftM (sendEmail (Request.asSend request)))
  else if bool_decide (name = lit "list_labels")
  then Some listLabels
  else None.

Definition callTool (request : Request.t) : P json :=
  let name := Request.name request in
  let+ allowed := checkRateLimit (lit "default") in
  if negb allowed
  then throwP (Error (lit "Rate limit exceeded. Please wait before making more requests."))
  else
    let+ _ := (λ p, if gmail p then retP () p else authenticate p) in
    let+ _ := liftM (auditLog "INFO"
      (lit "Tool called: " ++ name ++ lit " with args: "
       ++ Request.argumentsText request)) in
    tryCatchP
      (match route request with
       | Some handler => handler
       | None => throwP (Error (lit "Unknown tool: " ++ name))
       end)
      (λ error,
         let+ _ := liftM (auditLog "ERROR"
           (lit "Tool " ++ name ++ lit " failed: " ++ errorText error)) in
         throwP error).

End Handlers.

Notation "'let+' x := m 'in' k" := (bindP m (λ x, k)).

End Dispatch.

(** ** The simulated mailbox with its other services *)

Module SimServices.
Import Server Dispatch Sim.

Definition labels : list Label.t :=
  [{| Label.id := Some (lit "INBOX"); Label.name := Some (lit "INBOX");
      Label.type := Some (lit "system"); Label.messagesTotal := Some 4;
      Label.messagesUnread := Some 1 |};
   {| Label.id := Some (lit "Label_1"); Label.name := Some (lit "Work");
      Label.type := Some (lit "user"); Label.messagesTotal := None;
      Label.messagesUnread := None |}].

(** The file at a path, when one was written there. *)
Definition fileAt (path : jsstring) (w : Mailbox) : option (list Byte.byte) :=
  snd <$> List.find (λ f, bool_decide (f.1 = path)) (disk w).

#[export] Instance services : Services := {|
  OAuth2Client := ();
  Credentials := ();
  gmail_labels_list := λ w, (Resolve (Some labels), w);
  gmail_messages_get_metadata := λ mid metadataHeaders w,
    (match List.find (hasId mid) (inbox w ++ spam w) with
     | Some m => Resolve m
     | None => Reject (Error (lit "Not Found"))
     end, w);
  fs_readFile := λ path w,
    (match fileAt path w with
     | Some bytes => Resolve (bufferToString bytes)
     | None => Reject (Error (lit "ENOENT: no such file or directory"))
     end, w);
  newOAuth2 := λ content,
    if truthyStr content then Resolve ()
    else Reject (MkError (lit "SyntaxError") (lit "Unexpected end of JSON input"));
  parseToken := λ content,
    if truthyStr content then Resolve ()
    else Reject (MkError (lit "SyntaxError") (lit "Unexpected end of JSON input"));
  oauth_getAccessToken := λ client token w, (Resolve (), w)
|}.

(** A server that has not authenticated yet, and one that has. *)
Definition boot (w : Mailbox) : Process :=
  {| outside := w; limits := ∅; auth := None; gmail := false; log := [] |}.

Definition ready (w : Mailbox) : Process :=
  {| outside := w; limits := ∅; auth := Some (); gmail := true; log := [] |}.

(** The mailbox [box] with a credentials file and a token file. *)
Definition configured : Mailbox :=
  {| inbox := inbox box; spam := spam box; locked := locked box;
     attachment := attachment box;
     disk := [(CREDENTIALS_PATH, map byteOf (lit "{}"));
              (TOKEN_PATH, map byteOf (lit "{}"))];
     slept := 0 |}.

(** A request for a tool, with a message identifier as its argument. *)
Definition request (tool : string) (mid : string) : Request.t :=
  {| Request.name := lit tool;
     Request.argumentsText := lit "{}";
     Request.asSearch := {| SearchEmailsArgs.query := VStr (lit mid);
                            SearchEmailsArgs.maxResults := None |};
     Request.asMessageId := VStr (lit mid);
     Request.asDownload :=
       {| DownloadAttachmentRequest.messageId := Some (lit mid);
          DownloadAttachmentRequest.attachmentId := Some (lit "att-1");
          DownloadAttachmentRequest.filename := None |};
     Request.asSend :=
       {| SendEmailRequest.to := VUndefined;
          SendEmailRequest.subject := VUndefined;
          SendEmailRequest.body := VUndefined;
          SendEmailRequest.cc := None; SendEmailRequest.bcc := None |};
     Request.asConfirm := VUndefined |}.

(** A server whose table holds fifty calls of the present instant. *)
Definition saturated (w : Mailbox) : Process :=
  {| outside := w; limits := {[ lit "default" := replicate 50 1704067200000 ]};
     auth := Some (); gmail := true; log := [] |}.

(** A message that is one plain-text part: ["Hi"]. *)
Definition note : MessagePart := leaf "text/plain" "" "SGk=" "".

Definition notes : Mailbox :=
  {| inbox := [message "n1" note]; spam := []; locked := [];
     attachment := None; disk := []; slept := 0 |}.

(** The simulated mailbox behind a mail API that rejects every
    listing. *)
Definition outage : Environment := {|
  World := Mailbox;
  gmail_messages_list := λ q maxResults w,
    (Reject (Error (lit "Service Unavailable")), w);
  gmail_messages_get := @gmail_messages_get environment;
  gmail_messages_delete := @gmail_messages_delete environment;
  gmail_messages_send := @gmail_messages_send environment;
  gmail_attachments_get := @gmail_attachments_get environment;
  fs_mkdir := @fs_mkdir environment;
  fs_appendFile := @fs_appendFile environment;
  fs_writeFile := @fs_writeFile environment;
  date_toISOString := @date_toISOString environment;
  date_now := @date_now environment;
  sleep := @sleep environment;
  console_error := @console_error environment
|}.

(** The services of [services] with a mail API that refuses the
    metadata of the locked messages, and a server on them. *)
Definition strict : Services := {|
  OAuth2Client := ();
  Credentials := ();
  gmail_labels_list := @gmail_labels_list environment services;
  gmail_messages_get_metadata := λ mid metadataHeaders w,
    if bool_decide (mid ∈ locked w)
    then (Reject (Error (lit "Forbidden")), w)
    else @gmail_messages_get_metadata environment services mid metadataHeaders w;
  fs_readFile := @fs_readFile environment services;
  newOAuth2 := @newOAuth2 environment services;
  parseToken := @parseToken environment services;
  oauth_getAccessToken := @oauth_getAccessToken environment services
|}.

Definition readyStrict (w : Mailbox) : @Process environment strict :=
  @Build_Process environment strict w ∅ (Some ()) true [].

(** [path.join(a, b)] of POSIX for an absolute [a], to run the
    handlers on names with [..]: the segments of [a + '/' + b] without
    the empty ones and the [.], each [..] taking away the segment
    before it (a separator at the end, which Node keeps, is dropped). *)
Fixpoint resolveSegments (kept : list jsstring) (segments : list jsstring)
    : list jsstring :=
  match segments with
  | [] => rev kept
  | segment :: rest =>
      if bool_decide (segment = []) || bool_decide (segment = lit ".")
      then resolveSegments kept rest
      else if bool_decide (segment = lit "..")
      then resolveSegments (tail kept) rest
      else resolveSegments (segment :: kept) rest
  end.

Definition posixJoin (a b : jsstring) : jsstring :=
  lit "/" ++ join (lit "/")
               (resolveSegments [] (splitOn (Regex.ch "/") (a ++ lit "/" ++ b))).

(** The simulated runtime with that [path.join]. *)
Definition posix : NodeRuntime := {|
  bufferFromBase64 := @bufferFromBase64 runtime;
  bufferFromBase64url := @bufferFromBase64url runtime;
  bufferFromUtf8 := @bufferFromUtf8 runtime;
  bufferToString := @bufferToString runtime;
  bufferToBase64url := @bufferToBase64url runtime;
  pathJoin := posixJoin;
  homedir := @homedir runtime
|}.

(** The state of a process that has done nothing yet, behind that
    mail API. *)
Definition startOutage (w : Mailbox) : @Server.State outage :=
  @Server.Build_State outage w ∅ [].

End SimServices.


(** * Proofs *)

(** ** The rate limiter *)

Module RateLimitFacts.
Import RateLimit.

(** The two branches of [checkRateLimit], over the stored history. *)
Lemma checkRateLimit_unfold c now st :
  checkRateLimit c now st =
    if decide (maxRequests ≤ length (inWindow now (history c st)))%nat
    then (false, st)
    else (true, <[c := inWindow now (history c st) ++ [now]]> st).
Proof.
  unfold checkRateLimit, history, inWindow.
  destruct (st !! c) as [w|] eqn:Hc; simpl.
  - rewrite Hc. simpl. reflexivity.
  - rewrite lookup_insert_eq. simpl.
    by rewrite insert_insert_eq.
Qed.

Lemma serve_app c pre post st :
  serve c (pre ++ post) st =
    let '(ds1, st1) := serve c pre st in
    let '(ds2, st2) := serve c post st1 in
    (ds1 ++ ds2, st2).
Proof.
  revert st. induction pre as [|t pre IH]; intros st; simpl.
  - by destruct (serve c post st).
  - destruct (checkRateLimit c t st) as [ok st'].
    rewrite IH. destruct (serve c pre st') as [ds1 st1].
    by destruct (serve c post st1).
Qed.

Lemma granted_app ds1 ds2 :
  granted (ds1 ++ ds2) = granted ds1 ++ granted ds2.
Proof. unfold granted. by rewrite filter_app, map_app. Qed.

(** What links the stored history [w] of a client to the timestamps
    [adm] granted so far, when no later call reads the clock below [lb]. *)
Record Inv (lb : Z) (adm w : list Z) : Prop := {
  inv_len : (length w ≤ maxRequests)%nat;
  inv_sorted : StronglySorted Z.le w;
  inv_past : Forall (λ t, t ≤ lb) w;
  inv_recent : ∀ x, lb - windowMs ≤ x →
      filter (λ t, x < t) adm = filter (λ t, x < t) w;
  inv_adm_past : Forall (λ t, t ≤ lb) adm;
  inv_bound : ∀ lo hi, hi - lo < windowMs →
      (countIn lo hi adm ≤ maxRequests)%nat
}.

Lemma Inv_init lb : Inv lb [] [].
Proof.
  split; simpl; try constructor; try done.
  - unfold maxRequests. lia.
  - intros. unfold countIn. rewrite filter_nil. simpl. lia.
Qed.

Lemma Inv_empty c lb : Inv lb [] (history c ∅).
Proof. unfold history. rewrite lookup_empty. apply Inv_init. Qed.

Lemma filter_gt_sorted x (w : list Z) :
  StronglySorted Z.le w → StronglySorted Z.le (filter (λ t, x < t) w).
Proof.
  induction 1 as [|a w Hs IH Hall]; [rewrite filter_nil; constructor|].
  rewrite filter_cons. destruct (decide _); [|done].
  constructor; [done|].
  rewrite Forall_forall in *. intros y Hy.
  apply list_elem_of_filter in Hy as [_ Hy]. by apply Hall.
Qed.

Lemma Inv_denied lb now adm w :
  Inv lb adm w → lb ≤ now → Inv now adm w.
Proof.
  intros [] Hle. split; try done.
  - eapply Forall_impl; [done|]. simpl. lia.
  - intros x Hx. apply inv_recent0. lia.
  - eapply Forall_impl; [done|]. simpl. lia.
Qed.

Lemma Inv_granted lb now adm w :
  Inv lb adm w → lb ≤ now →
  (length (inWindow now w) < maxRequests)%nat →
  Inv now (adm ++ [now]) (inWindow now w ++ [now]).
Proof.
  intros [] Hle Hlt. unfold inWindow in *.
  assert (Hvalid : Forall (λ t, t ≤ now) (filter (λ time, now - windowMs < time) w)).
  { rewrite Forall_forall in *. intros y Hy.
    apply list_elem_of_filter in Hy as [_ Hy]. specialize (inv_past0 y Hy). simpl in *. lia. }
  split.
  - rewrite length_app. simpl. lia.
  - apply StronglySorted_app_2.
    + intros x1 x2 H1 H2. apply list_elem_of_singleton in H2 as ->.
      rewrite Forall_forall in Hvalid. by apply Hvalid.
    + by apply filter_gt_sorted.
    + repeat constructor.
  - apply Forall_app. split; [done|]. repeat constructor. lia.
  - intros x Hx. rewrite !filter_app. f_equal.
    rewrite inv_recent0 by lia.
    rewrite list_filter_filter. apply list_filter_iff. intros t. lia.
  - apply Forall_app. split; [|repeat constructor; lia].
    eapply Forall_impl; [done|]. simpl. lia.
  - intros lo hi Hspan. unfold countIn. rewrite filter_app, length_app.
    destruct (decide (lo ≤ now ∧ now ≤ hi)) as [Hin|Hout].
    + rewrite filter_cons_True, filter_nil by done. simpl.
      assert (length (filter (λ t, (lo ≤ t ∧ t ≤ hi)%Z) adm)
              ≤ length (filter (λ time, (now - windowMs < time)%Z) w))%nat; [|lia].
      rewrite <- (inv_recent0 (now - windowMs)) by lia.
      assert (filter (λ t, lo ≤ t ∧ t ≤ hi) adm
              = filter (λ t, lo ≤ t ∧ t ≤ hi) (filter (λ t, now - windowMs < t) adm)) as ->.
      { rewrite list_filter_filter. apply list_filter_iff. intros t. lia. }
      apply length_filter.
    + rewrite filter_cons_False, filter_nil by done. simpl.
      specialize (inv_bound0 lo hi Hspan). unfold countIn in inv_bound0. lia.
Qed.

(** The invariant is kept by every sequence of calls whose clock readings
    do not decrease; [ub] is any instant not before the last call. *)
Lemma serve_Inv c clock : ∀ st adm lb,
  Inv lb adm (history c st) →
  StronglySorted Z.le (lb :: clock) →
  ∀ ub, Forall (λ t, t ≤ ub) (lb :: clock) →
    Inv ub (adm ++ granted (serve c clock st).1)
        (history c (serve c clock st).2).
Proof.
  induction clock as [|now clock IH]; intros st adm lb HI Hs ub Hub; simpl.
  - rewrite app_nil_r. apply Forall_cons in Hub as [Hub _].
    by eapply Inv_denied.
  - apply StronglySorted_inv in Hs as [Hs Hall].
    apply Forall_cons in Hall as [Hnow Hall].
    apply Forall_cons in Hub as [_ Hub].
    rewrite checkRateLimit_unfold.
    destruct (decide _) as [Hfull|Hfree].
    + specialize (IH st adm now (Inv_denied _ _ _ _ HI Hnow) Hs ub Hub).
      destruct (serve c clock st) as [ds st'] eqn:Hserve. simpl in *.
      unfold granted in *. by rewrite filter_cons_False by (simpl; congruence).
    + assert (HI' : Inv now (adm ++ [now])
          (history c (<[c := inWindow now (history c st) ++ [now]]> st))).
      { unfold history at 1. rewrite lookup_insert_eq. simpl.
        eapply Inv_granted; [done|done|lia]. }
      specialize (IH _ _ now HI' Hs ub Hub).
      destruct (serve c clock _) as [ds st'] eqn:Hserve. simpl in *.
      unfold granted in *. rewrite filter_cons_True by done. simpl.
      by rewrite <- app_assoc in IH.
Qed.

Lemma upper_bound_exists (l : list Z) : ∃ ub, Forall (λ t, t ≤ ub) l.
Proof.
  induction l as [|a l [ub Hub]]; [by exists 0|].
  exists (Z.max a ub). constructor; [lia|].
  eapply Forall_impl; [done|]. simpl. lia.
Qed.

Lemma filter_all_length {A} (P : A → Prop) `{∀ x, Decision (P x)} (l : list A) :
  length (filter P l) = length l → filter P l = l.
Proof.
  induction l as [|a l IH]; [done|].
  rewrite filter_cons. destruct (decide (P a)); simpl.
  - intros [=]. f_equal. by apply IH.
  - pose proof (length_filter P l). lia.
Qed.

Lemma filter_all_Forall {A} (P : A → Prop) `{∀ x, Decision (P x)} (l : list A) :
  Forall P l → filter P l = l.
Proof.
  induction 1 as [|a l Ha _ IH]; [done|].
  rewrite filter_cons_True by done. by f_equal.
Qed.

(** On a sorted history that fills the table, the window test is decided
    by the oldest entry alone. *)
Lemma full_history_window (w : list Z) now :
  StronglySorted Z.le w → (length w ≤ maxRequests)%nat →
  (maxRequests ≤ length (inWindow now w))%nat ↔
  ∃ oldest rest, w = oldest :: rest ∧ length rest = 49%nat
                 ∧ now - windowMs < oldest.
Proof.
  intros Hs Hlen. unfold inWindow, maxRequests in *. split.
  - intros Hfull. pose proof (length_filter (λ time, now - windowMs < time) w) as Hf.
    assert (Hall : filter (λ time, now - windowMs < time) w = w).
    { apply filter_all_length. lia. }
    destruct w as [|oldest rest]; [simpl in *; lia|].
    exists oldest, rest. split_and!; [done|simpl in *; lia|].
    assert (oldest ∈ filter (λ time, now - windowMs < time) (oldest :: rest)) as Hin.
    { rewrite Hall. left. }
    by apply list_elem_of_filter in Hin as [? _].
  - intros (oldest & rest & -> & Hrest & Hold).
    apply StronglySorted_inv in Hs as [_ Hall].
    assert (filter (λ time, now - windowMs < time) (oldest :: rest) = oldest :: rest) as ->.
    { apply filter_all_Forall. constructor; [done|].
      eapply Forall_impl; [done|]. simpl. lia. }
    simpl. lia.
Qed.

(** C1. For every sequence of rate-limit checks of one client whose clock
    readings do not decrease, starting from the empty table: (1) any span
    of 60,000 consecutive milliseconds holds at most
    50 granted calls; (2) a call is denied exactly when 50 granted
    timestamps lie inside its window [(now - 60000, now]]; (3) in that
    case the table holds exactly those 50 timestamps, oldest first, and
    on that table a call is denied exactly as long as the oldest one is
    still inside the window; (4) a denied call leaves the whole table as
    it was, so it records no timestamp; (5) a granted call records its
    own timestamp after the ones still inside the window. *)
Theorem rate_limit_sliding_window (c : jsstring) (clock : list Z) :
  Sorted Z.le clock →
  (∀ lo hi, hi - lo < windowMs →
     (countIn lo hi (granted (serve c clock ∅).1) ≤ 50)%nat) ∧
  (∀ pre now post, clock = pre ++ now :: post →
     let st := (serve c pre ∅).2 in
     let adm := granted (serve c pre ∅).1 in
     let r := checkRateLimit c now st in
     (r.1 = false ↔ length (inWindow now adm) = 50%nat) ∧
     (r.1 = false →
        ∃ oldest rest, inWindow now adm = oldest :: rest ∧
          history c st = oldest :: rest ∧
          ∀ now', (checkRateLimit c now' st).1 = false
                  ↔ now' - windowMs < oldest) ∧
     (r.1 = false → r.2 = st) ∧
     (r.1 = true → history c r.2 = inWindow now adm ++ [now])).
Proof.
  intros Hsorted. apply Sorted_StronglySorted in Hsorted; [|intros x y z; lia].
  split.
  - intros lo hi Hspan.
    destruct (upper_bound_exists clock) as [ub Hub].
    destruct clock as [|t0 clock].
    { simpl. unfold countIn, granted. simpl. lia. }
    assert (HI := serve_Inv c (t0 :: clock) ∅ [] t0 (Inv_init t0)).
    assert (Hs : StronglySorted Z.le (t0 :: t0 :: clock)).
    { constructor; [done|]. constructor; [lia|]. by apply StronglySorted_inv in Hsorted as []. }
    specialize (HI Hs ub ltac:(constructor; [by apply Forall_cons in Hub as []|done])).
    simpl app in HI. by apply (inv_bound _ _ _ HI).
  - intros pre now post -> st adm r.
    apply StronglySorted_app in Hsorted as (Hcross & Hpre & Hpost).
    assert (HI : Inv now adm (history c st)).
    { destruct pre as [|t0 pre].
      - apply Inv_empty.
      - apply (serve_Inv c (t0 :: pre) ∅ [] t0 (Inv_empty c t0)).
        + constructor; [done|]. constructor; [lia|]. by apply StronglySorted_inv in Hpre as [].
        + constructor.
          * apply Hcross; [left|left].
          * apply Forall_forall. intros x Hx. apply Hcross; [done|left]. }
    assert (Hwin : inWindow now adm = inWindow now (history c st)).
    { unfold inWindow. apply (inv_recent _ _ _ HI). lia. }
    pose proof (inv_len _ _ _ HI) as Hlen.
    pose proof (length_filter (λ time, now - windowMs < time) (history c st)) as Hfl.
    fold (inWindow now (history c st)) in Hfl.
    subst r. rewrite checkRateLimit_unfold, Hwin.
    unfold maxRequests in *.
    destruct (decide _) as [Hfull|Hfree]; simpl.
    + split_and!; try done.
      * split; [lia|done].
      * intros _.
        pose proof (proj1 (full_history_window _ now (inv_sorted _ _ _ HI) Hlen) Hfull)
          as (oldest & rest & Hw & Hrest & Hold).
        exists oldest, rest. split_and!; [|done|].
        -- unfold inWindow. rewrite <- Hw. apply filter_all_length.
           fold (inWindow now (history c st)). rewrite Hw in *. simpl in *. lia.
        -- intros now'. rewrite checkRateLimit_unfold.
           pose proof (full_history_window _ now' (inv_sorted _ _ _ HI) Hlen) as Hiff.
           unfold maxRequests in *.
           destruct (decide _) as [Hfull'|Hfree']; simpl.
           ++ apply Hiff in Hfull' as (o & r & Hw' & _ & Hold').
              rewrite Hw in Hw'. injection Hw' as <- <-. done.
           ++ split; [done|]. intros Hold'. exfalso. apply Hfree'.
              apply Hiff. by exists oldest, rest.
    + split_and!; try done.
      * split; [done|lia].
      * intros _. unfold history at 1. by rewrite lookup_insert_eq.
Qed.

End RateLimitFacts.

(** ** The regular-expression matcher *)

Module RegexFacts.
Import Regex.

Lemma matchK_sound r : ∀ s k out,
  matchK r s k = Some out →
  ∃ s1 s2, s = s1 ++ s2 ∧ matches r s1 ∧ k s2 = Some out.
Proof.
  induction r as [|p|r1 IH1 r2 IH2|r1 IH1 r2 IH2|r IH]; intros s k out; simpl.
  - intros Hk. exists [], s. split_and!; [done|constructor|done].
  - destruct s as [|c s']; [done|]. destruct (p c) eqn:Hp; [|done].
    intros Hk. exists [c], s'. split_and!; [done|by constructor|done].
  - intros H. apply IH1 in H as (a & rest & -> & Ha & H).
    apply IH2 in H as (b & s2 & -> & Hb & H).
    exists (a ++ b), s2. split_and!; [by rewrite app_assoc|by constructor|done].
  - destruct (matchK r1 s k) as [o|] eqn:H1.
    + intros [= ->]. apply IH1 in H1 as (s1 & s2 & -> & Hm & Hk).
      exists s1, s2. split_and!; [done|by apply m_alt_l|done].
    + intros H2. apply IH2 in H2 as (s1 & s2 & -> & Hm & Hk).
      exists s1, s2. split_and!; [done|by apply m_alt_r|done].
  - generalize (length s) as fuel. intros fuel. revert s.
    induction fuel as [|fuel IHf]; intros s; simpl.
    + intros Hk. exists [], s. split_and!; [done|constructor|done].
    + destruct (matchK r s _) as [o|] eqn:Hstep.
      * intros [= ->]. apply IH in Hstep as (a & rest & -> & Ha & Hrest).
        destruct (_ <? _)%nat; [|done].
        apply IHf in Hrest as (b & s2 & -> & Hb & Hk).
        exists (a ++ b), s2. split_and!; [by rewrite app_assoc|by constructor|done].
      * intros Hk. exists [], s. split_and!; [done|constructor|done].
Qed.

(** A match of [r*] is empty or starts with a non-empty match of [r]. *)
Lemma matches_star_inv r s :
  matches (Star r) s →
  s = [] ∨ ∃ a b, a ≠ [] ∧ s = a ++ b ∧ matches r a ∧ matches (Star r) b.
Proof.
  remember (Star r) as r0 eqn:Hr0. intros H.
  induction H as [| | | | | |r' s1 s2 H1 _ H2 IH2]; try discriminate; [by left|].
  injection Hr0 as ->.
  destruct s1 as [|c s1]; [by apply IH2|].
  right. exists (c :: s1), s2. by split_and!.
Qed.

Lemma starLoop_complete step k :
  ∀ r, (∀ s1 s2 k', matches r s1 → is_Some (k' s2) → is_Some (step (s1 ++ s2) k')) →
  ∀ fuel s1 s2, (length (s1 ++ s2) ≤ fuel)%nat →
    matches (Star r) s1 → is_Some (k s2) →
    is_Some (starLoop step k fuel (s1 ++ s2)).
Proof.
  intros r Hstep fuel. induction fuel as [|fuel IHf]; intros s1 s2 Hlen Hm Hk; simpl.
  - destruct s1; [done|simpl in Hlen; lia].
  - apply matches_star_inv in Hm as [->|(a & b & Ha & -> & Hma & Hmb)].
    + simpl. by destruct (step s2 _).
    + rewrite <- app_assoc in *.
      assert (is_Some (step (a ++ (b ++ s2))
        (λ s', if (length s' <? length (a ++ b ++ s2))%nat
               then starLoop step k fuel s' else None))) as [o Ho].
      { apply Hstep; [done|].
        assert (length (b ++ s2) < length (a ++ b ++ s2))%nat as Hlt.
        { destruct a; [done|]. rewrite !length_app. simpl. lia. }
        apply Nat.ltb_lt in Hlt as ->.
        apply IHf; [|done|done].
        rewrite !length_app in *. destruct a; [done|]. simpl in *. lia. }
      by rewrite Ho.
Qed.

Lemma matchK_complete r : ∀ s1 s2 k,
  matches r s1 → is_Some (k s2) → is_Some (matchK r (s1 ++ s2) k).
Proof.
  induction r as [|p|r1 IH1 r2 IH2|r1 IH1 r2 IH2|r IH]; intros s1 s2 k Hm Hk; simpl.
  - by inv Hm.
  - inv Hm. simpl. by rewrite H0.
  - inv Hm. rewrite <- app_assoc. apply IH1; [done|]. by apply IH2.
  - inv Hm.
    + destruct (IH1 _ s2 k H2 Hk) as [o ->]. done.
    + destruct (matchK r1 _ k); [done|]. by apply IH2.
  - by eapply starLoop_complete.
Qed.

(** The anchored test decides membership in the language. *)
Lemma testAnchored_matches r s : testAnchored r s = true ↔ matches r s.
Proof.
  unfold testAnchored. split.
  - destruct (matchK r s _) as [o|] eqn:H; [|done]. intros _.
    apply matchK_sound in H as (s1 & s2 & -> & Hm & Hk).
    destruct s2; [|done]. by rewrite app_nil_r.
  - intros Hm.
    destruct (matchK_complete r s [] (λ rest, match rest with [] => Some [] | _ => None end) Hm)
      as [o Ho]; [done|].
    rewrite app_nil_r in Ho. by rewrite Ho.
Qed.

Lemma matches_cls p s : matches (Cls p) s ↔ ∃ c, s = [c] ∧ p c = true.
Proof.
  split; [intros H; inv H; eauto|]. intros (c & -> & Hc). by constructor.
Qed.

Lemma matches_star_cls p s :
  matches (Star (Cls p)) s ↔ Forall (λ c, p c = true) s.
Proof.
  split.
  - remember (Star (Cls p)) as r0 eqn:Hr0. intros H.
    induction H as [| | | | | |r' s1 s2 H1 _ H2 IH2]; try discriminate; [constructor|].
    injection Hr0 as ->. inv H1. constructor; [done|]. by apply IH2.
  - induction 1 as [|c s Hc _ IH]; [constructor|].
    apply (m_star_cons _ [c] s); [by constructor|done].
Qed.

Lemma matches_plus_cls p s :
  matches (Plus (Cls p)) s ↔ s ≠ [] ∧ Forall (λ c, p c = true) s.
Proof.
  unfold Plus. split.
  - intros H. inv H. inv H2. simpl. apply matches_star_cls in H4.
    split; [done|by constructor].
  - intros [Hne Hall]. destruct s as [|c s]; [done|].
    apply Forall_cons in Hall as [Hc Hall].
    apply (m_cat _ _ [c] s); [by constructor|by apply matches_star_cls].
Qed.

Lemma matches_chr a s : matches (Chr a) s ↔ s = [ch a].
Proof.
  unfold Chr. rewrite matches_cls. split.
  - intros (c & -> & Hc). apply N.eqb_eq in Hc. by subst.
  - intros ->. exists (ch a). split; [done|]. apply N.eqb_refl.
Qed.

Lemma matches_cat r1 r2 s :
  matches (Cat r1 r2) s ↔ ∃ s1 s2, s = s1 ++ s2 ∧ matches r1 s1 ∧ matches r2 s2.
Proof.
  split; [intros H; inv H; eauto|]. intros (s1 & s2 & -> & H1 & H2). by constructor.
Qed.

(** Where [exec] finds a match, what it consumes is in the language,
    and it finds one wherever a word of the language starts. *)
Lemma exec_matches r s rest :
  exec r s = Some rest → ∃ m, s = m ++ rest ∧ matches r m.
Proof.
  unfold exec. intros H. apply matchK_sound in H as (m & s2 & -> & Hm & [= ->]).
  by exists m.
Qed.

Lemma exec_complete r m rest : matches r m → is_Some (exec r (m ++ rest)).
Proof. intros Hm. unfold exec. by apply matchK_complete. Qed.

Lemma matches_eps s : matches Eps s ↔ s = [].
Proof. split; [intros H; by inv H|intros ->; constructor]. Qed.

Lemma matches_alt r1 r2 s :
  matches (Alt r1 r2) s ↔ matches r1 s ∨ matches r2 s.
Proof.
  split; [intros H; inv H; eauto|].
  intros [H|H]; [by apply m_alt_l|by apply m_alt_r].
Qed.

Lemma matches_chrI lower upper s :
  matches (ChrI lower upper) s ↔ s = [ch lower] ∨ s = [ch upper].
Proof.
  unfold ChrI. rewrite matches_cls. split.
  - intros (c & -> & Hc). apply orb_true_iff in Hc as [Hc|Hc];
      apply N.eqb_eq in Hc; subst; eauto.
  - intros [->| ->]; eexists; (split; [done|]);
      rewrite N.eqb_refl; [done|apply orb_true_r].
Qed.

(** Replacing every character of a class by nothing filters the class out. *)
Lemma replaceAll_cls_empty p s :
  replaceAll (Cls p) [] s = filter (λ c, p c = false) s.
Proof.
  unfold replaceAll. induction s as [|c s IH]; [done|].
  cbn [replaceFrom]. unfold exec. cbn [matchK]. destruct (p c) eqn:Hp.
  - replace (length (c :: s) - length s)%nat with 1%nat by (simpl; lia).
    rewrite filter_cons_False by congruence. done.
  - rewrite filter_cons_True by done. by rewrite IH.
Qed.

End RegexFacts.

(** ** Validation and sanitising *)

Module ValidationFacts.
Import Regex Validation RegexFacts.

Lemma trimStart_split s :
  ∃ l, s = l ++ trimStart s ∧ Forall (λ c, isSpace c = true) l
       ∧ ∀ c, head (trimStart s) = Some c → isSpace c = false.
Proof.
  induction s as [|c s (l & Hs & Hl & Hh)]; simpl.
  - exists []. by split_and!.
  - destruct (isSpace c) eqn:Hc.
    + exists (c :: l). split_and!; [by rewrite Hs at 1|by constructor|done].
    + exists []. split_and!; [done|constructor|]. simpl. by intros ? [= <-].
Qed.

Lemma trimEnd_split s :
  ∃ r, s = trimEnd s ++ r ∧ Forall (λ c, isSpace c = true) r
       ∧ ∀ c, last (trimEnd s) = Some c → isSpace c = false.
Proof.
  unfold trimEnd. destruct (trimStart_split (reverse s)) as (l & Hs & Hl & Hh).
  exists (reverse l). split_and!.
  - rewrite <- reverse_app, <- Hs. by rewrite reverse_involutive.
  - by apply Forall_reverse.
  - intros c. rewrite last_reverse. apply Hh.
Qed.

(** What [trim] removes and what it leaves. *)
Lemma trim_split s :
  ∃ l r, s = l ++ trim s ++ r
    ∧ Forall (λ c, isSpace c = true) l ∧ Forall (λ c, isSpace c = true) r
    ∧ (∀ c, head (trim s) = Some c → isSpace c = false)
    ∧ (∀ c, last (trim s) = Some c → isSpace c = false).
Proof.
  unfold trim.
  destruct (trimStart_split s) as (l & Hs & Hl & Hh).
  destruct (trimEnd_split (trimStart s)) as (r & Ht & Hr & Hlast).
  exists l, r. split_and!; [by rewrite <- Ht|done|done| |done].
  intros c Hc. apply Hh. rewrite Ht.
  destruct (trimEnd (trimStart s)); [done|]. done.
Qed.

Lemma notSpaceAt_true c :
  notSpaceAt c = true ↔ isSpace c = false ∧ c ≠ ch "@".
Proof.
  unfold notSpaceAt. rewrite negb_true_iff, orb_false_iff, N.eqb_neq. done.
Qed.

(** C9. [validateEmail] accepts exactly the strings
    [local @ domain . tail] whose three parts are non-empty and hold
    neither whitespace nor ["@"]; it accepts ["a@b.co"] and rejects
    ["not-an-email"] and ["a@b"]. *)
Theorem validateEmail_shape :
  (∀ email : jsstring,
     validateEmail email = true ↔
     ∃ local domain tail : jsstring,
       email = local ++ ch "@" :: domain ++ ch "." :: tail
       ∧ local ≠ [] ∧ domain ≠ [] ∧ tail ≠ []
       ∧ Forall (λ c, isSpace c = false ∧ c ≠ ch "@") (local ++ domain ++ tail))
  ∧ validateEmail (lit "a@b.co") = true
  ∧ validateEmail (lit "not-an-email") = false
  ∧ validateEmail (lit "a@b") = false.
Proof.
  split; [|by vm_compute].
  intros email. unfold validateEmail, emailRegex.
  rewrite testAnchored_matches. split.
  - intros H.
    apply matches_cat in H as (local & s1 & -> & Hlocal & H).
    apply matches_cat in H as (at' & s2 & -> & Hat & H).
    apply matches_cat in H as (domain & s3 & -> & Hdomain & H).
    apply matches_cat in H as (dot & tail & -> & Hdot & Htail).
    apply matches_chr in Hat as ->. apply matches_chr in Hdot as ->.
    apply matches_plus_cls in Hlocal as [? Hl].
    apply matches_plus_cls in Hdomain as [? Hd].
    apply matches_plus_cls in Htail as [? Ht].
    exists local, domain, tail. split_and!; try done.
    rewrite !Forall_app. split_and!;
      (eapply Forall_impl; [eassumption|]; intros c; apply notSpaceAt_true).
  - intros (local & domain & tail & -> & Hl & Hd & Ht & Hall).
    rewrite !Forall_app in Hall. destruct Hall as (Hal & Had & Hat).
    assert (∀ s : jsstring, s ≠ [] →
              Forall (λ c, isSpace c = false ∧ c ≠ ch "@") s →
              matches (Plus (Cls notSpaceAt)) s) as Hplus.
    { intros s Hne Hs. apply matches_plus_cls. split; [done|].
      eapply Forall_impl; [done|]. intros c. apply notSpaceAt_true. }
    apply m_cat; [by apply Hplus|].
    apply (m_cat _ _ [ch "@"]); [by apply matches_chr|].
    apply m_cat; [by apply Hplus|].
    apply (m_cat _ _ [ch "."]); [by apply matches_chr|].
    by apply Hplus.
Qed.

(** C8. [sanitizeInput] deletes every ["<"] and [">"], keeps every other
    character in place, and then removes the whitespace at both ends and
    nothing more: what is left of the input without angle brackets is
    the result between two runs of whitespace, and the result neither
    starts nor ends with whitespace. On ["<script>x</script>  "] the
    result is ["scriptx/script"]. *)
Theorem sanitizeInput_exact :
  (∀ input : jsstring,
     sanitizeInput input
       = trim (filter (λ c, c ≠ ch "<" ∧ c ≠ ch ">") input))
  ∧ (∀ input : jsstring, ∃ l r : jsstring,
       filter (λ c, c ≠ ch "<" ∧ c ≠ ch ">") input
         = l ++ sanitizeInput input ++ r
       ∧ Forall (λ c, isSpace c = true) l
       ∧ Forall (λ c, isSpace c = true) r
       ∧ (∀ c, head (sanitizeInput input) = Some c → isSpace c = false)
       ∧ (∀ c, last (sanitizeInput input) = Some c → isSpace c = false))
  ∧ sanitizeInput (lit "<script>x</script>  ") = lit "scriptx/script".
Proof.
  assert (Hfilter : ∀ input : jsstring,
    sanitizeInput input = trim (filter (λ c, c ≠ ch "<" ∧ c ≠ ch ">") input)).
  { intros input. unfold sanitizeInput. rewrite replaceAll_cls_empty.
    f_equal. apply list_filter_iff. intros c. unfold isAngle.
    rewrite orb_false_iff, !N.eqb_neq. done. }
  split_and!; [done| |by vm_compute].
  intros input. rewrite Hfilter. apply trim_split.
Qed.

End ValidationFacts.
(** ** The handlers *)

Module ServerFacts.
Import Regex Validation Server RegexFacts.

Section WithWorld.
Context {RT : NodeRuntime} {ENV : Environment}.

(** [steps m st r evs st']: from [st], [m] ends with [r] in [st'], having
    appended [evs] to the trace and left the rate-limit table alone. *)
Definition steps {A} (m : M A) (st : State) (r : Outcome A)
    (evs : list Event) (st' : State) : Prop :=
  m st = (r, st') ∧ trace st' = trace st ++ evs ∧ requests st' = requests st.

Lemma steps_ret {A} (a : A) st : steps (ret a) st (Ok a) [] st.
Proof. split_and!; [done|by rewrite app_nil_r|done]. Qed.

Lemma steps_throw {A} e st : steps (throw (A:=A) e) st (Throw e) [] st.
Proof. split_and!; [done|by rewrite app_nil_r|done]. Qed.

Lemma steps_bind {A B} (m : M A) (k : A → M B) st a evs1 st1 r evs2 st2 :
  steps m st (Ok a) evs1 st1 → steps (k a) st1 r evs2 st2 →
  steps (bind m k) st r (evs1 ++ evs2) st2.
Proof.
  intros (Hm & Ht1 & Hr1) (Hk & Ht2 & Hr2). unfold steps, bind.
  rewrite Hm. split_and!; [done| |congruence].
  by rewrite Ht2, Ht1, app_assoc.
Qed.

Lemma steps_bind_throw {A B} (m : M A) (k : A → M B) st e evs st1 :
  steps m st (Throw e) evs st1 → steps (bind m k) st (Throw e) evs st1.
Proof. intros (Hm & Ht & Hr). unfold steps, bind. by rewrite Hm. Qed.

Lemma steps_try_ok {A} (m : M A) h st a evs st1 :
  steps m st (Ok a) evs st1 → steps (tryCatch m h) st (Ok a) evs st1.
Proof. intros (Hm & Ht & Hr). unfold steps, tryCatch. by rewrite Hm. Qed.

Lemma steps_try_throw {A} (m : M A) h st e evs1 st1 r evs2 st2 :
  steps m st (Throw e) evs1 st1 → steps (h e) st1 r evs2 st2 →
  steps (tryCatch m h) st r (evs1 ++ evs2) st2.
Proof.
  intros (Hm & Ht1 & Hr1) (Hk & Ht2 & Hr2). unfold steps, tryCatch.
  rewrite Hm. split_and!; [done| |congruence].
  by rewrite Ht2, Ht1, app_assoc.
Qed.

(** The answer of one operation decides how [perform] ends. *)
Lemma steps_perform {A} (op : World → Reply A * World) ev st :
  ∃ st', trace st' = trace st ++ [ev (op (world st)).1]
    ∧ requests st' = requests st ∧ world st' = (op (world st)).2
    ∧ perform op ev st =
        (match (op (world st)).1 with
         | Resolve a => Ok a
         | Reject e => Throw e
         end, st').
Proof.
  unfold perform. destruct (op (world st)) as [reply w]. simpl.
  eexists. split_and!; [| | |by destruct reply]; done.
Qed.

Lemma steps_record ev st :
  ∃ st', steps (record ev) st (Ok ()) [ev] st'.
Proof. eexists. split_and!; done. Qed.

(** [auditLog] never throws; besides the note of the call it only
    touches the file system, the clock and the console. *)
Lemma auditLog_steps level message st :
  ∃ evs st', steps (auditLog level message) st (Ok ())
               (EvAudit (lit level) message :: evs) st'
             ∧ forallb isLogIO evs = true.
Proof.
  unfold auditLog.
  destruct (steps_record (EvAudit (lit level) message) st) as (st0 & Hrec).
  destruct (steps_perform (fs_mkdir CONFIG_DIR) (λ _, EvMkdir CONFIG_DIR) st0)
    as (st1 & Ht1 & Hr1 & _ & Hmk).
  destruct (fs_mkdir CONFIG_DIR (world st0)).1 as [[]|e] eqn:Hmkdir.
  - destruct (steps_perform
        (λ w, let '(t, w') := date_toISOString w in (Resolve t, w'))
        (λ _, EvDate) st1) as (st2 & Ht2 & Hr2 & _ & Hdate).
    destruct (date_toISOString (world st1)) as [ts w2] eqn:Hd. simpl in Hdate, Ht2.
    set (entry := lit "[" ++ ts ++ lit "] " ++ lit level ++ lit ": " ++ message ++ [10%N]).
    destruct (steps_perform (fs_appendFile AUDIT_LOG_PATH entry)
                (λ _, EvAppendFile AUDIT_LOG_PATH entry) st2)
      as (st3 & Ht3 & Hr3 & _ & Happ).
    destruct (fs_appendFile AUDIT_LOG_PATH entry (world st2)).1 as [[]|e] eqn:Hap.
    + exists [EvMkdir CONFIG_DIR; EvDate; EvAppendFile AUDIT_LOG_PATH entry], st3.
      split; [|done].
      eapply (steps_bind _ _ _ _ [_]); [exact Hrec|].
      apply steps_try_ok.
      eapply (steps_bind _ _ _ _ [_]); [by split_and!|].
      eapply (steps_bind _ _ _ _ [_]); [by split_and!|].
      by split_and!.
    + destruct (steps_perform
          (λ w, (Resolve (), console_error (lit "Failed to write audit log:") e w))
          (λ _, EvConsoleError (lit "Failed to write audit log:")) st3)
        as (st4 & Ht4 & Hr4 & _ & Hce). simpl in Hce, Ht4.
      exists [EvMkdir CONFIG_DIR; EvDate; EvAppendFile AUDIT_LOG_PATH entry;
              EvConsoleError (lit "Failed to write audit log:")], st4.
      split; [|done].
      eapply (steps_bind _ _ _ _ [_]); [exact Hrec|].
      eapply (steps_try_throw _ _ _ _ [_; _; _] _ _ [_]); [|by split_and!].
      eapply (steps_bind _ _ _ _ [_] _ _ [_; _]); [by split_and!|].
      eapply (steps_bind _ _ _ _ [_] _ _ [_]); [by split_and!|].
      by split_and!.
  - destruct (steps_perform
        (λ w, (Resolve (), console_error (lit "Failed to write audit log:") e w))
        (λ _, EvConsoleError (lit "Failed to write audit log:")) st1)
      as (st4 & Ht4 & Hr4 & _ & Hce). simpl in Hce, Ht4.
    exists [EvMkdir CONFIG_DIR; EvConsoleError (lit "Failed to write audit log:")], st4.
    split; [|done].
    eapply (steps_bind _ _ _ _ [_]); [exact Hrec|].
    eapply (steps_try_throw _ _ _ _ [_] _ _ [_]); [|by split_and!].
    apply steps_bind_throw. by split_and!.
Qed.

Lemma perform_Ok {A} (op : World → Reply A * World) ev st a w :
  op (world st) = (Resolve a, w) →
  steps (perform op ev) st (Ok a) [ev (Resolve a)]
    {| world := w; requests := requests st;
       trace := trace st ++ [ev (Resolve a)] |}.
Proof. intros H. unfold steps, perform. by rewrite H. Qed.

Lemma perform_Throw {A} (op : World → Reply A * World) ev st e w :
  op (world st) = (Reject e, w) →
  steps (perform op ev) st (Throw e) [ev (Reject e)]
    {| world := w; requests := requests st;
       trace := trace st ++ [ev (Reject e)] |}.
Proof. intros H. unfold steps, perform. by rewrite H. Qed.

Lemma dateISO_steps st :
  ∃ t st', steps dateISO st (Ok t) [EvDate] st'.
Proof.
  unfold dateISO.
  destruct (date_toISOString (world st)) as [t w] eqn:Hd.
  eexists t, _. apply (perform_Ok _ (λ _, EvDate) st t w). by rewrite Hd.
Qed.

Lemma setTimeout_steps ms st :
  ∃ st', steps (setTimeout ms) st (Ok ()) [EvSleep ms] st'.
Proof. eexists. by apply (perform_Ok _ (λ _, EvSleep ms)). Qed.

(** A handler of the shape [catch (error) { await auditLog(..); throw .. }]
    turns an exception of the body into an exception. *)
Lemma steps_caught {A} (m : M A) level (f g : JsError → jsstring) st e evs st1 :
  steps m st (Throw e) evs st1 →
  ∃ evs' st',
    steps (tryCatch m (λ error,
             let* _ := auditLog level (f error) in throw (Error (g error))))
          st (Throw (Error (g e))) evs' st'.
Proof.
  intros Hm.
  destruct (auditLog_steps level (f e) st1) as (evsA & stA & HA & _).
  eexists _, _. eapply steps_try_throw; [exact Hm|].
  eapply steps_bind; [exact HA|apply steps_throw].
Qed.

(** The events inside [auditLog] are none of the observed kinds. *)
Lemma logIO_unobserved (evs : list Event) :
  forallb isLogIO evs = true →
  omap deleteOrPause evs = [] ∧ omap failedDelete evs = []
  ∧ omap errorAudit evs = [] ∧ omap fileWrite evs = []
  ∧ omap attachmentReply evs = [] ∧ List.filter isMailApi evs = [].
Proof.
  induction evs as [|e evs IH]; [done|]. simpl.
  intros [He Hevs]%andb_true_iff. destruct (IH Hevs) as (?&?&?&?&?&?).
  destruct e; try discriminate; simpl; by split_and!.
Qed.

(** *** [emptySpam] without confirmation *)

(** C4. When [confirm] is [false], absent or any other falsy value,
    [emptySpam] returns the refusal object and the state after the call
    is the state before it: the mailbox and the rest of the outside
    world, the rate-limit table and the trace are unchanged, so no
    operation of the mail API (or any other) was performed. *)
Theorem emptySpam_refuses_without_confirm (confirm : jsval) (st : State) :
  truthy confirm = false →
  emptySpam confirm st = (Ok refusal, st)
  ∧ get "error" refusal = Some (JStr (lit "Confirmation required")).
Proof. intros Hc. unfold emptySpam. rewrite Hc. done. Qed.

(** *** Validation in [sendEmail] *)

Lemma validateAll_invalid (emails : list jsstring) (st : State) :
  (∃ e, e ∈ emails ∧ validateEmail e = false) →
  ∃ bad, validateEmail bad = false ∧ bad ∈ emails
    ∧ validateAll emails st
      = (Throw (Error (lit "Invalid email address: " ++ bad)), st).
Proof.
  induction emails as [|email rest IH]; intros (e & He & Hbad).
  - by apply elem_of_nil in He.
  - cbn [validateAll]. destruct (validateEmail email) eqn:Hv; cbn [negb].
    + apply elem_of_cons in He as [->|He]; [congruence|].
      destruct IH as (bad & ? & ? & ?); [by exists e|].
      exists bad. split_and!; [done|by right|done].
    + exists email. split_and!; [done|by left|done].
Qed.

Lemma validateAll_valid (emails : list jsstring) (st : State) :
  Forall (λ e, validateEmail e = true) emails →
  validateAll emails st = (Ok (), st).
Proof.
  induction 1 as [|email rest Hv _ IH]; [done|].
  cbn [validateAll]. by rewrite Hv.
Qed.

(** C5. A [sendEmail] call whose subject is longer than 255 characters,
    or whose body is longer than 10000 characters, or one of whose
    addresses in [to], [cc] or [bcc] fails [validateEmail], throws one of
    the four validation errors and leaves the state as it was: nothing is
    truncated, nothing is logged and no operation of the mail API is
    performed. *)
Theorem sendEmail_rejects_invalid (args : SendEmailRequest.t) (st : State) :
  (∃ s, SendEmailRequest.subject args = VStr s ∧ 255 < strlen s)
  ∨ (∃ b, SendEmailRequest.body args = VStr b ∧ 10000 < strlen b)
  ∨ (∃ e, e ∈ allEmails args ∧ validateEmail e = false) →
  ∃ message,
    sendEmail args st = (Throw (Error message), st)
    ∧ (message = lit "Recipients (to) must be a non-empty array"
       ∨ message = lit "Subject must be a string with max 255 characters"
       ∨ message = lit "Body must be a string with max 10000 characters"
       ∨ ∃ bad, bad ∈ allEmails args ∧ validateEmail bad = false
                ∧ message = lit "Invalid email address: " ++ bad).
Proof.
  intros H. unfold sendEmail, allEmails in *.
  destruct (SendEmailRequest.to args) as [| | | | |to];
    try (eexists; split; [reflexivity|by left]).
  destruct (length to =? 0)%nat; [eexists; split; [reflexivity|by left]|].
  destruct (SendEmailRequest.subject args) as [| | | |subject|];
    try (eexists; split; [reflexivity|by right; left]).
  destruct (negb (truthyStr subject) || (strlen subject >? 255)) eqn:Hs;
    [eexists; split; [reflexivity|by right; left]|].
  destruct (SendEmailRequest.body args) as [| | | |body|];
    try (eexists; split; [reflexivity|by right; right; left]).
  destruct (negb (truthyStr body) || (strlen body >? 10000)) eqn:Hb;
    [eexists; split; [reflexivity|by right; right; left]|].
  apply orb_false_iff in Hs as [_ Hs]. apply orb_false_iff in Hb as [_ Hb].
  destruct H as [(s & [= <-] & Hlen)|[(b & [= <-] & Hlen)|Hbad]]; [lia|lia|].
  destruct (validateAll_invalid _ st Hbad) as (bad & Hv & Hin & Hthrow).
  eexists. split.
  - unfold bind at 1. rewrite Hthrow. reflexivity.
  - right; right; right. by exists bad.
Qed.

(** *** [readEmail] *)

Lemma firstPlainPart_first (ps : list MessagePart) pre part post :
  ps = pre ++ part :: post →
  Forall (λ q, plainWithData q = false) pre →
  plainWithData part = true →
  firstPlainPart ps = Some (decoded part).
Proof.
  intros -> Hpre Hpart. induction Hpre as [|q pre Hq _ IH]; simpl.
  - unfold plainWithData in Hpart. by rewrite Hpart.
  - unfold plainWithData in Hq. by rewrite Hq.
Qed.

Lemma firstPlainPart_none (ps : list MessagePart) :
  Forall (λ q, plainWithData q = false) ps → firstPlainPart ps = None.
Proof.
  induction 1 as [|q ps Hq _ IH]; [done|]. simpl.
  unfold plainWithData in Hq. by rewrite Hq.
Qed.

Lemma firstPlainPart_withoutParts (ps : list MessagePart) :
  firstPlainPart (map withoutParts ps) = firstPlainPart ps.
Proof. induction ps as [|q ps IH]; [done|]. simpl. by rewrite IH. Qed.

Lemma extractBody_topLevelOnly (p : MessagePart) :
  extractBody (topLevelOnly p) = extractBody p.
Proof.
  unfold extractBody, topLevelOnly, bodyData. simpl.
  destruct (parts p) as [ps|]; [|done]. simpl.
  by rewrite firstPlainPart_withoutParts.
Qed.

Lemma length_substring0 n (s : jsstring) :
  0 ≤ n → strlen (substring0 n s) ≤ n.
Proof. intros Hn. unfold strlen, substring0. rewrite length_take. lia. Qed.

(** What [readEmail] returns once the API has answered with a message
    that has a payload. *)
Lemma readEmail_fetched mid st message w' p :
  truthyStr mid = true →
  gmail_messages_get mid (lit "full") (world st) = (Resolve message, w') →
  payload message = Some p →
  ∃ o st', readEmail (VStr mid) st = (Ok o, st')
    ∧ get "body" o = Some (JStr (substring0 5000 (extractBody p)))
    ∧ get "id" o = Some (JStr mid)
    ∧ world st' = w'
    ∧ trace st' = trace st ++ [EvMessagesGet mid (lit "full")].
Proof.
  intros Hmid Hget Hp. unfold readEmail. rewrite Hmid. cbn [negb].
  unfold tryCatch, bind, messagesGet, perform. rewrite Hget, Hp.
  eexists _, _. split; [reflexivity|]. by split_and!.
Qed.

(** C6, amended. Once the API has answered with a message, [readEmail]
    returns as [body] the first 5000 characters at most of what
    [extractBody] yields, and [extractBody] never looks below the
    top-level parts. When the payload carries no body data of its own,
    that is the decoded data of the first top-level part of type
    [text/plain] that carries body data, and the empty string when no
    top-level part is one. *)
Theorem readEmail_scans_top_level_parts mid st message w' p :
  truthyStr mid = true →
  gmail_messages_get mid (lit "full") (world st) = (Resolve message, w') →
  payload message = Some p →
  ∃ o st' text,
    readEmail (VStr mid) st = (Ok o, st')
    ∧ get "body" o = Some (JStr text)
    ∧ text = substring0 5000 (extractBody p)
    ∧ strlen text ≤ 5000
    ∧ extractBody p = extractBody (topLevelOnly p)
    ∧ (truthyOpt (bodyData p) = false →
         extractBody p = topLevelPlainBody p
         ∧ (∀ pre part post,
              default [] (parts p) = pre ++ part :: post →
              Forall (λ q, plainWithData q = false) pre →
              plainWithData part = true →
              extractBody p = decoded part)
         ∧ (Forall (λ q, plainWithData q = false) (default [] (parts p)) →
              extractBody p = [])).
Proof.
  intros Hmid Hget Hp.
  destruct (readEmail_fetched mid st message w' p Hmid Hget Hp)
    as (o & st' & Hrun & Hbody & _).
  exists o, st', (substring0 5000 (extractBody p)).
  split_and!; try done.
  - by apply length_substring0.
  - by rewrite extractBody_topLevelOnly.
  - intros Hnone.
    assert (Hscan : extractBody p = topLevelPlainBody p).
    { unfold extractBody, topLevelPlainBody. rewrite Hnone.
      by destruct (parts p). }
    split_and!; [done| |].
    + intros pre part post Hps Hpre Hpart. rewrite Hscan.
      unfold topLevelPlainBody.
      by rewrite (firstPlainPart_first _ pre part post Hps Hpre Hpart).
    + intros Hall. rewrite Hscan. unfold topLevelPlainBody.
      by rewrite firstPlainPart_none.
Qed.

(** C10. When the top-level payload carries body data itself,
    [extractBody] returns that data decoded, whatever the MIME type of
    the payload and whatever its parts are, and [readEmail] returns its
    first 5000 characters as [body]; the parts are scanned only when
    the payload carries no body data. *)
Theorem readEmail_prefers_payload_body mid st message w' p :
  truthyStr mid = true →
  gmail_messages_get mid (lit "full") (world st) = (Resolve message, w') →
  payload message = Some p →
  ∃ o st',
    readEmail (VStr mid) st = (Ok o, st')
    ∧ (truthyOpt (bodyData p) = true →
         extractBody p = decoded p
         ∧ get "body" o = Some (JStr (substring0 5000 (decoded p)))
         ∧ ∀ type ps,
             extractBody {| mimeType := type; filename := filename p;
                            headers := headers p; body := body p;
                            parts := ps |} = decoded p)
    ∧ (truthyOpt (bodyData p) = false →
         extractBody p = topLevelPlainBody p).
Proof.
  intros Hmid Hget Hp.
  destruct (readEmail_fetched mid st message w' p Hmid Hget Hp)
    as (o & st' & Hrun & Hbody & _).
  exists o, st'. split_and!; [done| |].
  - intros Hdata.
    assert (Hdirect : extractBody p = decoded p).
    { unfold extractBody. by rewrite Hdata. }
    split_and!; [done|by rewrite <- Hdirect|].
    intros type ps. unfold extractBody, decoded, bodyData in *. simpl.
    by rewrite Hdata.
  - intros Hnone. unfold extractBody, topLevelPlainBody. rewrite Hnone.
    by destruct (parts p).
Qed.

(** *** [readEmailHtml] *)

(** Induction on MIME trees, with the parts of a node as premises. *)
Lemma MessagePart_forest_ind (P : MessagePart → Prop) :
  (∀ type name hs b, P (mkPart type name hs b None)) →
  (∀ type name hs b ps, Forall P ps → P (mkPart type name hs b (Some ps))) →
  ∀ p, P p.
Proof.
  intros Hleaf Hnode. fix IH 1. intros [type name hs b [ps|]].
  - apply Hnode. revert ps. fix IHps 1. intros [|q ps].
    + constructor.
    + constructor; [apply IH|apply IHps].
  - apply Hleaf.
Qed.

(** [extractContent] visits the nodes in preorder. *)
Lemma extractContent_preorder (p : MessagePart) :
  ∀ acc, extractContent p acc = foldl visit acc (preorder p).
Proof.
  induction p as [type name hs b|type name hs b ps IH]
    using MessagePart_forest_ind; intros acc; [done|].
  cbn [extractContent preorder parts foldl].
  generalize (visit acc (mkPart type name hs b (Some ps))). clear acc.
  induction IH as [|q ps Hq _ IHps]; intros acc; [done|].
  rewrite foldl_app, <- Hq. apply IHps.
Qed.

Lemma mimeIs_plain_not_html (p : MessagePart) :
  mimeIs "text/plain" p = true → mimeIs "text/html" p = false.
Proof.
  unfold mimeIs. intros H%bool_decide_eq_true. rewrite H.
  by apply bool_decide_eq_false.
Qed.

Lemma last_filter_cons {A} (f : A → bool) (x : A) (l : list A) :
  last (List.filter f (x :: l)) =
    match last (List.filter f l) with
    | Some y => Some y
    | None => if f x then Some x else None
    end.
Proof.
  simpl. destruct (f x); [apply last_cons|]. by destruct (last _).
Qed.

Lemma visit_htmlBody acc (n : MessagePart) :
  htmlBody (visit acc n) =
    if carries "text/html" n then decoded n else htmlBody acc.
Proof.
  unfold visit, carries, decoded.
  destruct (truthyOpt (bodyData n)); simpl;
    [destruct (mimeIs "text/html" n); simpl;
     [|destruct (mimeIs "text/plain" n)]|];
    by destruct (_ && _).
Qed.

Lemma visit_textBody acc (n : MessagePart) :
  textBody (visit acc n) =
    if carries "text/plain" n then decoded n else textBody acc.
Proof.
  unfold visit, carries, decoded.
  destruct (truthyOpt (bodyData n)); simpl.
  - destruct (mimeIs "text/plain" n) eqn:Hplain.
    + rewrite (mimeIs_plain_not_html n Hplain). by destruct (_ && _).
    + destruct (mimeIs "text/html" n); by destruct (_ && _).
  - by destruct (_ && _).
Qed.

Lemma visit_attachmentCount acc (n : MessagePart) :
  attachmentCount (visit acc n) =
    (attachmentCount acc + if countedAttachment n then 1 else 0)%nat.
Proof.
  unfold visit, countedAttachment.
  destruct (truthyOpt (bodyData n)); simpl;
    [destruct (mimeIs "text/html" n); simpl;
     [|destruct (mimeIs "text/plain" n)]|];
    destruct (_ && _); simpl; lia.
Qed.

Lemma foldl_visit_htmlBody (nodes : list MessagePart) : ∀ acc,
  htmlBody (foldl visit acc nodes) =
    match last (List.filter (carries "text/html") nodes) with
    | Some n => decoded n
    | None => htmlBody acc
    end.
Proof.
  induction nodes as [|n nodes IH]; intros acc; [done|].
  cbn [foldl]. rewrite IH, last_filter_cons, visit_htmlBody.
  destruct (last _); [done|]. by destruct (carries _ n).
Qed.

Lemma foldl_visit_textBody (nodes : list MessagePart) : ∀ acc,
  textBody (foldl visit acc nodes) =
    match last (List.filter (carries "text/plain") nodes) with
    | Some n => decoded n
    | None => textBody acc
    end.
Proof.
  induction nodes as [|n nodes IH]; intros acc; [done|].
  cbn [foldl]. rewrite IH, last_filter_cons, visit_textBody.
  destruct (last _); [done|]. by destruct (carries _ n).
Qed.

Lemma foldl_visit_attachmentCount (nodes : list MessagePart) : ∀ acc,
  attachmentCount (foldl visit acc nodes) =
    (attachmentCount acc + length (List.filter countedAttachment nodes))%nat.
Proof.
  induction nodes as [|n nodes IH]; intros acc; [simpl; lia|].
  cbn [foldl List.filter]. rewrite IH, visit_attachmentCount.
  destruct (countedAttachment n); simpl; lia.
Qed.

(** The words that the three expressions of the HTML conversion match:
    a tag is ["<"], any characters but [">"], and [">"]. *)
Lemma tagRegex_language (m : jsstring) :
  matches tagRegex m ↔
  ∃ inner, m = ch "<" :: inner ++ [ch ">"] ∧ Forall (λ c, c ≠ ch ">") inner.
Proof.
  unfold tagRegex. rewrite matches_cat. split.
  - intros (a & rest & -> & ->%matches_chr & H).
    apply matches_cat in H as (inner & b & -> & Hinner & ->%matches_chr).
    apply matches_star_cls in Hinner. exists inner. split; [done|].
    eapply Forall_impl; [done|]. intros c Hc.
    by apply negb_true_iff, N.eqb_neq in Hc.
  - intros (inner & -> & Hinner). exists [ch "<"], (inner ++ [ch ">"]).
    split_and!; [done|by apply matches_chr|].
    apply m_cat; [|by apply matches_chr]. apply matches_star_cls.
    eapply Forall_impl; [done|]. intros c Hc.
    by apply negb_true_iff, N.eqb_neq.
Qed.

Lemma brRegex_language (m : jsstring) :
  matches brRegex m ↔
  ∃ b r ws slash,
    m = [ch "<"; b; r] ++ ws ++ slash ++ [ch ">"]
    ∧ (b = ch "b" ∨ b = ch "B") ∧ (r = ch "r" ∨ r = ch "R")
    ∧ Forall (λ c, isSpace c = true) ws
    ∧ (slash = [] ∨ slash = [ch "/"]).
Proof.
  unfold brRegex, Opt. split.
  - intros H.
    apply matches_cat in H as (x1 & s1 & -> & ->%matches_chr & H).
    apply matches_cat in H as (x2 & s2 & -> & Hb%matches_chrI & H).
    apply matches_cat in H as (x3 & s3 & -> & Hr%matches_chrI & H).
    apply matches_cat in H as (ws & s4 & -> & Hws%matches_star_cls & H).
    apply matches_cat in H as (slash & x5 & -> & Hslash%matches_alt & ->%matches_chr).
    assert (∃ b, x2 = [b] ∧ (b = ch "b" ∨ b = ch "B")) as (b & -> & Hb')
      by (destruct Hb as [->| ->]; eauto).
    assert (∃ r, x3 = [r] ∧ (r = ch "r" ∨ r = ch "R")) as (r & -> & Hr')
      by (destruct Hr as [->| ->]; eauto).
    exists b, r, ws, slash. split_and!; try done.
    destruct Hslash as [->%matches_chr| ->%matches_eps]; eauto.
  - intros (b & r & ws & slash & -> & Hb & Hr & Hws & Hslash).
    apply (m_cat _ _ [ch "<"]); [by apply matches_chr|].
    apply (m_cat _ _ [b]); [apply matches_chrI; destruct Hb as [->| ->]; eauto|].
    apply (m_cat _ _ [r]); [apply matches_chrI; destruct Hr as [->| ->]; eauto|].
    apply m_cat; [by apply matches_star_cls|].
    apply m_cat; [|by apply matches_chr].
    apply matches_alt. destruct Hslash as [->| ->];
      [right; constructor|left; by apply matches_chr].
Qed.

Lemma pCloseRegex_language (m : jsstring) :
  matches pCloseRegex m ↔ m = lit "</p>" ∨ m = lit "</P>".
Proof.
  unfold pCloseRegex. split.
  - intros H.
    apply matches_cat in H as (x1 & s1 & -> & ->%matches_chr & H).
    apply matches_cat in H as (x2 & s2 & -> & ->%matches_chr & H).
    apply matches_cat in H as (x3 & s3 & -> & Hp%matches_chrI & ->%matches_chr).
    destruct Hp as [->| ->]; eauto.
  - intros Hm.
    assert (∃ p, m = [ch "<"; ch "/"; p; ch ">"] ∧ (p = ch "p" ∨ p = ch "P"))
      as (p0 & -> & Hp) by (destruct Hm as [->| ->]; eauto).
    apply (m_cat _ _ [ch "<"]); [by apply matches_chr|].
    apply (m_cat _ _ [ch "/"]); [by apply matches_chr|].
    apply (m_cat _ _ [p0]); [|by apply matches_chr].
    apply matches_chrI. destruct Hp as [->| ->]; eauto.
Qed.

(** What [readEmailHtml] returns once the API has answered with a
    message that has a payload. *)
Lemma readEmailHtml_fetched mid st message w' p :
  truthyStr mid = true →
  gmail_messages_get mid (lit "full") (world st) = (Resolve message, w') →
  payload message = Some p →
  ∃ o st', readEmailHtml (VStr mid) st = (Ok o, st')
    ∧ get "textContent" o
      = Some (JStr (substring0 10000
                      (readableContent (extractContent p noContent))))
    ∧ get "attachmentCount" o
      = Some (JNum (Z.of_nat (attachmentCount (extractContent p noContent))))
    ∧ get "hasHtml" o
      = Some (JBool (truthyStr (htmlBody (extractContent p noContent))))
    ∧ world st' = w'
    ∧ trace st' = trace st ++ [EvMessagesGet mid (lit "full")].
Proof.
  intros Hmid Hget Hp. unfold readEmailHtml. rewrite Hmid. cbn [negb].
  unfold tryCatch, bind, messagesGet, perform. rewrite Hget, Hp.
  eexists _, _. split; [reflexivity|]. by split_and!.
Qed.

(** C3, amended. Once the API has answered with a message,
    [readEmailHtml] walks the whole MIME tree in preorder; it keeps the
    body of the last node of type [text/html] that carries body data and
    the body of the last such node of type [text/plain], and counts the
    nodes that carry both a non-empty file name and an attachment
    identifier. When the plain-text body is empty and the HTML body is
    not, the readable content is the HTML body with [<br>] replaced by a
    newline, [</p>] by two newlines, the remaining tags deleted, the
    entities [&nbsp;], [&amp;], [&lt;], [&gt;] and [&quot;] replaced in
    that order, and the result trimmed; otherwise it is the plain-text
    body. [textContent] holds its first 10000 characters at most. *)
Theorem readEmailHtml_walks_whole_tree mid st message w' p :
  truthyStr mid = true →
  gmail_messages_get mid (lit "full") (world st) = (Resolve message, w') →
  payload message = Some p →
  ∃ o st' e text,
    readEmailHtml (VStr mid) st = (Ok o, st')
    ∧ e = extractContent p noContent
    ∧ htmlBody e = lastBody "text/html" (preorder p)
    ∧ textBody e = lastBody "text/plain" (preorder p)
    ∧ attachmentCount e = length (List.filter countedAttachment (preorder p))
    ∧ get "attachmentCount" o = Some (JNum (Z.of_nat (attachmentCount e)))
    ∧ get "textContent" o = Some (JStr text)
    ∧ strlen text ≤ 10000
    ∧ text = substring0 10000
               (if negb (truthyStr (textBody e)) && truthyStr (htmlBody e)
                then
                  trim
                    (replaceAll (Lit "&quot;") [34%N]
                    (replaceAll (Lit "&gt;") (lit ">")
                    (replaceAll (Lit "&lt;") (lit "<")
                    (replaceAll (Lit "&amp;") (lit "&")
                    (replaceAll (Lit "&nbsp;") (lit " ")
                    (replaceAll tagRegex []
                    (replaceAll pCloseRegex [10%N; 10%N]
                    (replaceAll brRegex [10%N] (htmlBody e)))))))))
                else textBody e).
Proof.
  intros Hmid Hget Hp.
  destruct (readEmailHtml_fetched mid st message w' p Hmid Hget Hp)
    as (o & st' & Hrun & Htext & Hcount & _).
  exists o, st', (extractContent p noContent),
    (substring0 10000 (readableContent (extractContent p noContent))).
  rewrite extractContent_preorder in *.
  split_and!; try done.
  - rewrite foldl_visit_htmlBody. unfold lastBody. by destruct (last _).
  - rewrite foldl_visit_textBody. unfold lastBody. by destruct (last _).
  - by rewrite foldl_visit_attachmentCount.
  - by apply length_substring0.
Qed.

(** *** [downloadAttachment] *)

(** How a call of [downloadAttachment] ends, and what it has done then. *)
Lemma downloadAttachment_outcome (args : DownloadAttachmentRequest.t) st :
  ∃ r evs st',
    steps (downloadAttachment args) st r evs st'
    ∧ match r with
      | Ok o =>
          ∃ content path,
            omap attachmentReply evs = [Resolve (Some content)]
            ∧ omap fileWrite evs
              = [(path, bufferFromBase64url content, Resolve ())]
            ∧ get "filePath" o = Some (JStr path)
            ∧ get "size" o
              = Some (JNum (Z.of_nat (length (bufferFromBase64url content))))
      | Throw _ => True
      | OutOfFuel => False
      end.
Proof.
  unfold downloadAttachment.
  destruct (negb _ || negb _).
  { eexists _, _, _. split; [apply steps_throw|done]. }
  set (messageId := orEmpty (DownloadAttachmentRequest.messageId args)).
  set (attachmentId := orEmpty (DownloadAttachmentRequest.attachmentId args)).
  match goal with
  | |- ∃ r evs st', steps (tryCatch ?m ?h) _ _ _ _ ∧ _ => set (body := m)
  end.
  assert (Hfail : ∀ e evs st1, steps body st (Throw e) evs st1 →
    ∃ r evs' st', steps (tryCatch body (λ error,
        let* _ := auditLog "ERROR"
          (lit "Failed to download attachment: " ++ errorText error) in
        throw (Error (lit "Failed to download attachment: " ++ errorText error))))
      st r evs' st'
      ∧ match r with Ok _ => False | Throw _ => True | OutOfFuel => False end).
  { intros e evs st1 Hb.
    destruct (steps_caught body "ERROR"
      (λ error, lit "Failed to download attachment: " ++ errorText error)
      (λ error, lit "Failed to download attachment: " ++ errorText error)
      st e evs st1 Hb) as (evs' & st' & Hc).
    by eexists _, _, _. }
  assert (Hthrow : ∀ e evs st1, steps body st (Throw e) evs st1 →
    ∃ r evs' st', steps (tryCatch body (λ error,
        let* _ := auditLog "ERROR"
          (lit "Failed to download attachment: " ++ errorText error) in
        throw (Error (lit "Failed to download attachment: " ++ errorText error))))
      st r evs' st'
      ∧ match r with
        | Ok o =>
            ∃ content path,
              omap attachmentReply evs' = [Resolve (Some content)]
              ∧ omap fileWrite evs'
                = [(path, bufferFromBase64url content, Resolve ())]
              ∧ get "filePath" o = Some (JStr path)
              ∧ get "size" o
                = Some (JNum (Z.of_nat (length (bufferFromBase64url content))))
        | Throw _ => True
        | OutOfFuel => False
        end).
  { intros e evs st1 Hb. destruct (Hfail e evs st1 Hb) as (r & evs' & st' & Hs & Hr).
    exists r, evs', st'. split; [done|]. by destruct r. }
  clear Hfail.
  destruct (gmail_attachments_get messageId attachmentId (world st))
    as [[content|e] w1] eqn:Hget.
  2: { eapply Hthrow. apply steps_bind_throw.
       by apply (perform_Throw _ (EvAttachmentsGet messageId attachmentId)). }
  pose proof (perform_Ok _ (EvAttachmentsGet messageId attachmentId) st _ _ Hget)
    as Hs1.
  set (st1 := {| world := w1 |}) in Hs1.
  destruct (truthyOpt content) eqn:Hcontent.
  2: { eapply Hthrow. eapply steps_bind; [exact Hs1|].
       rewrite Hcontent. apply steps_throw. }
  destruct content as [content|]; [|done].
  set (downloadsDir := pathJoin CONFIG_DIR (lit "downloads")).
  destruct (fs_mkdir downloadsDir (world st1)) as [[[]|e] w2] eqn:Hmk.
  2: { eapply Hthrow. eapply steps_bind; [exact Hs1|].
       rewrite Hcontent. apply steps_bind_throw.
       by apply (perform_Throw _ (λ _, EvMkdir downloadsDir)). }
  pose proof (perform_Ok _ (λ _, EvMkdir downloadsDir) st1 _ _ Hmk) as Hs2.
  set (st2 := {| world := w2 |}) in Hs2.
  destruct (dateISO_steps st2) as (now & st3 & Hs3).
  set (finalFilename :=
    if truthyOpt (DownloadAttachmentRequest.filename args)
    then orEmpty (DownloadAttachmentRequest.filename args)
    else lit "attachment_"
         ++ replaceAll (Cls (λ c, N.eqb c (ch ":") || N.eqb c (ch ".")))
              (lit "-") now).
  set (filePath := pathJoin downloadsDir finalFilename).
  set (buffer := bufferFromBase64url content).
  destruct (fs_writeFile filePath buffer (world st3)) as [[[]|e] w4] eqn:Hwr.
  2: { eapply Hthrow. eapply steps_bind; [exact Hs1|].
       rewrite Hcontent. eapply steps_bind; [exact Hs2|].
       eapply steps_bind; [exact Hs3|]. apply steps_bind_throw.
       by apply (perform_Throw _ (EvWriteFile filePath buffer)). }
  pose proof (perform_Ok _ (EvWriteFile filePath buffer) st3 _ _ Hwr) as Hs4.
  set (st4 := {| world := w4 |}) in Hs4.
  destruct (auditLog_steps "INFO"
    (lit "Downloaded attachment " ++ attachmentId ++ lit " as "
     ++ finalFilename ++ lit " (" ++ natText (length buffer) ++ lit " bytes)") st4)
    as (evsA & st5 & Hs5 & HlogIO).
  destruct (dateISO_steps st5) as (downloadedAt & st6 & Hs6).
  eexists _, _, _. split.
  - apply steps_try_ok. eapply steps_bind; [exact Hs1|].
    rewrite Hcontent. eapply steps_bind; [exact Hs2|].
    eapply steps_bind; [exact Hs3|]. eapply steps_bind; [exact Hs4|].
    eapply steps_bind; [exact Hs5|]. eapply steps_bind; [exact Hs6|].
    apply steps_ret.
  - exists content, filePath.
    destruct (logIO_unobserved evsA HlogIO) as (_ & _ & _ & Hw & Ha & _).
    repeat match goal with
           | |- context [?e :: evsA] => change (e :: evsA) with ([e] ++ evsA)
           end.
    rewrite ?omap_app, Hw, Ha. split_and!; reflexivity.
Qed.

(** The directory, the file name and the path of a download, as
    [downloadAttachment] computes them from its arguments and from the
    time stamp [now] that [new Date().toISOString()] gave. *)
Definition downloadsDir : jsstring := pathJoin CONFIG_DIR (lit "downloads").

Definition finalFilename (args : DownloadAttachmentRequest.t) (now : jsstring)
    : jsstring :=
  if truthyOpt (DownloadAttachmentRequest.filename args)
  then orEmpty (DownloadAttachmentRequest.filename args)
  else lit "attachment_"
       ++ replaceAll (Cls (λ c, N.eqb c (ch ":") || N.eqb c (ch ".")))
            (lit "-") now.

Definition filePath (args : DownloadAttachmentRequest.t) (now : jsstring)
    : jsstring :=
  pathJoin downloadsDir (finalFilename args now).

(** The state in which the attachment endpoint has answered [data] and
    left the world [w]; the state in which, after that, the directory
    was made, the clock read and the file written, leaving the world
    [w]. *)
Definition fetched (args : DownloadAttachmentRequest.t) (st : State)
    (data : option jsstring) (w : World) : State :=
  {| world := w; requests := requests st;
     trace := trace st
              ++ [EvAttachmentsGet
                    (orEmpty (DownloadAttachmentRequest.messageId args))
                    (orEmpty (DownloadAttachmentRequest.attachmentId args))
                    (Resolve data)] |}.

Definition written (args : DownloadAttachmentRequest.t) (st : State)
    (content now : jsstring) (w : World) : State :=
  {| world := w; requests := requests st;
     trace := trace st
              ++ [EvAttachmentsGet
                    (orEmpty (DownloadAttachmentRequest.messageId args))
                    (orEmpty (DownloadAttachmentRequest.attachmentId args))
                    (Resolve (Some content));
                  EvMkdir downloadsDir; EvDate;
                  EvWriteFile (filePath args now)
                    (bufferFromBase64url content) (Resolve ())] |}.

(** The record of a download in the audit log. *)
Definition downloaded (args : DownloadAttachmentRequest.t)
    (content now : jsstring) : jsstring :=
  lit "Downloaded attachment "
  ++ orEmpty (DownloadAttachmentRequest.attachmentId args) ++ lit " as "
  ++ finalFilename args now ++ lit " ("
  ++ natText (length (bufferFromBase64url content)) ++ lit " bytes)".

(** The error for a payload without data, as the handler of
    [downloadAttachment] words it. *)
Definition noData : jsstring :=
  lit "Failed to download attachment: "
  ++ errorText (Error (lit "No attachment data received")).

(** A payload that is absent or empty is refused: after the answer of
    the endpoint only [auditLog] runs. *)
Lemma downloadAttachment_refused (args : DownloadAttachmentRequest.t) st data w1 :
  truthyOpt (DownloadAttachmentRequest.messageId args) = true →
  truthyOpt (DownloadAttachmentRequest.attachmentId args) = true →
  gmail_attachments_get (orEmpty (DownloadAttachmentRequest.messageId args))
    (orEmpty (DownloadAttachmentRequest.attachmentId args)) (world st)
    = (Resolve data, w1) →
  truthyOpt data = false →
  downloadAttachment args st
  = (Throw (Error noData), (auditLog "ERROR" noData (fetched args st data w1)).2).
Proof.
  intros Hm Ha Hget Hdata. unfold downloadAttachment. rewrite Hm, Ha.
  cbn [negb orb].
  set (messageId := orEmpty (DownloadAttachmentRequest.messageId args)) in *.
  set (attachmentId := orEmpty (DownloadAttachmentRequest.attachmentId args)) in *.
  pose proof (perform_Ok _ (EvAttachmentsGet messageId attachmentId) st _ _ Hget)
    as Hs1.
  destruct (auditLog_steps "ERROR" noData (fetched args st data w1))
    as (evsA & st2 & HA & _).
  match goal with
  | |- tryCatch ?m ?h st = _ =>
      assert (Hrun : steps (tryCatch m h) st (Throw (Error noData))
                ([EvAttachmentsGet messageId attachmentId (Resolve data)]
                 ++ (EvAudit (lit "ERROR") noData :: evsA) ++ []) st2)
  end.
  { eapply steps_try_throw.
    - rewrite <- (app_nil_r [_]). eapply steps_bind; [exact Hs1|].
      rewrite Hdata. apply steps_throw.
    - eapply steps_bind; [exact HA|apply steps_throw]. }
  destruct Hrun as (-> & _). destruct HA as (-> & _). done.
Qed.

(** A payload with data, a directory that can be made and a file that
    can be written: the decoded bytes are written once, where
    [filePath] says, and reported. *)
Lemma downloadAttachment_written (args : DownloadAttachmentRequest.t) st
    content w1 w2 now w3 w4 :
  truthyOpt (DownloadAttachmentRequest.messageId args) = true →
  truthyOpt (DownloadAttachmentRequest.attachmentId args) = true →
  gmail_attachments_get (orEmpty (DownloadAttachmentRequest.messageId args))
    (orEmpty (DownloadAttachmentRequest.attachmentId args)) (world st)
    = (Resolve (Some content), w1) →
  truthyStr content = true →
  fs_mkdir downloadsDir w1 = (Resolve (), w2) →
  date_toISOString w2 = (now, w3) →
  fs_writeFile (filePath args now) (bufferFromBase64url content) w3
    = (Resolve (), w4) →
  ∃ o st',
    downloadAttachment args st = (Ok o, st')
    ∧ get "size" o
      = Some (JNum (Z.of_nat (length (bufferFromBase64url content))))
    ∧ get "filePath" o = Some (JStr (filePath args now))
    ∧ get "filename" o = Some (JStr (finalFilename args now))
    ∧ st' = (dateISO (auditLog "INFO" (downloaded args content now)
                        (written args st content now w4)).2).2
    ∧ ∃ evs, trace st' = trace st ++ evs
        ∧ omap attachmentReply evs = [Resolve (Some content)]
        ∧ omap fileWrite evs
          = [(filePath args now, bufferFromBase64url content, Resolve ())].
Proof.
  intros Hm Ha Hget Hcontent Hmk Hdate Hwr. unfold downloadAttachment.
  rewrite Hm, Ha. cbn [negb orb].
  set (messageId := orEmpty (DownloadAttachmentRequest.messageId args)) in *.
  set (attachmentId := orEmpty (DownloadAttachmentRequest.attachmentId args)) in *.
  pose proof (perform_Ok _ (EvAttachmentsGet messageId attachmentId) st _ _ Hget)
    as Hs1.
  set (st1 := {| world := w1 |}) in Hs1.
  pose proof (perform_Ok _ (λ _, EvMkdir downloadsDir) st1 _ _ Hmk) as Hs2.
  set (st2 := {| world := w2 |}) in Hs2.
  assert (Hd : (λ w, let '(t, w') := date_toISOString w in (Resolve t, w')) w2
               = (Resolve now, w3)) by (cbv beta; by rewrite Hdate).
  pose proof (perform_Ok _ (λ _, EvDate) st2 _ _ Hd) as Hs3.
  set (st3 := {| world := w3 |}) in Hs3.
  set (buffer := bufferFromBase64url content) in *.
  pose proof (perform_Ok _ (EvWriteFile (filePath args now) buffer) st3 _ _ Hwr)
    as Hs4.
  set (st4 := {| world := w4 |}) in Hs4.
  assert (Hst4 : st4 = written args st content now w4).
  { unfold st4, st3, st2, st1, written. cbn [trace requests]. f_equal.
    by rewrite <- !app_assoc. }
  destruct (auditLog_steps "INFO" (downloaded args content now) st4)
    as (evsA & st5 & Hs5 & HlogIO).
  destruct (dateISO_steps st5) as (downloadedAt & st6 & Hs6).
  match goal with
  | |- ∃ o st', tryCatch ?m ?h st = _ ∧ _ =>
      eassert (Hrun : steps (tryCatch m h) st (Ok _) _ st6)
  end.
  { apply steps_try_ok. eapply steps_bind; [exact Hs1|].
    cbn [truthyOpt]. rewrite Hcontent. cbn [negb].
    eapply steps_bind; [exact Hs2|]. eapply steps_bind; [exact Hs3|].
    eapply steps_bind; [exact Hs4|]. eapply steps_bind; [exact Hs5|].
    eapply steps_bind; [exact Hs6|]. apply steps_ret. }
  destruct Hrun as (Hrun & Htrace & _).
  eexists _, st6. split; [exact Hrun|]. split; [reflexivity|].
  split; [reflexivity|]. split; [reflexivity|]. split.
  - rewrite <- Hst4. destruct Hs5 as (H5 & _). destruct Hs6 as (H6 & _).
    rewrite H5. cbn [snd]. by rewrite H6.
  - eexists. split; [exact Htrace|].
    destruct (logIO_unobserved evsA HlogIO) as (_ & _ & _ & Hw & Hr & _).
    repeat match goal with
           | |- context [?e :: evsA] => change (e :: evsA) with ([e] ++ evsA)
           end.
    rewrite ?omap_app, Hw, Hr. split; reflexivity.
Qed.

(** C7, amended. Let the attachment endpoint answer [data] to a call
    that names a message and an attachment. When [data] is absent or
    empty, [downloadAttachment] refuses: it throws, and after the
    answer of the endpoint only [auditLog] has run, so nothing is
    written. When [data] is a non-empty text [content], the directory
    can be made and the file written, it decodes [content] with
    [Buffer.from(content, 'base64url')], writes those bytes in one
    write to [path.join(downloadsDir, finalFilename)], on the world
    that the clock left, and reports that path and, as [size], the
    number of those bytes; the final state is the state of that write
    followed by [auditLog] and a reading of the clock. It returns in no
    other case. *)
Theorem downloadAttachment_size_is_bytes_written
    (args : DownloadAttachmentRequest.t) (st : State)
    (data : option jsstring) (w1 : World) :
  truthyOpt (DownloadAttachmentRequest.messageId args) = true →
  truthyOpt (DownloadAttachmentRequest.attachmentId args) = true →
  gmail_attachments_get (orEmpty (DownloadAttachmentRequest.messageId args))
    (orEmpty (DownloadAttachmentRequest.attachmentId args)) (world st)
    = (Resolve data, w1) →
  (truthyOpt data = false →
   downloadAttachment args st
   = (Throw (Error noData),
      (auditLog "ERROR" noData (fetched args st data w1)).2))
  ∧ (∀ content w2 now w3 w4,
       data = Some content → truthyStr content = true →
       fs_mkdir downloadsDir w1 = (Resolve (), w2) →
       date_toISOString w2 = (now, w3) →
       fs_writeFile (filePath args now) (bufferFromBase64url content) w3
         = (Resolve (), w4) →
       ∃ o st',
         downloadAttachment args st = (Ok o, st')
         ∧ get "size" o
           = Some (JNum (Z.of_nat (length (bufferFromBase64url content))))
         ∧ get "filePath" o = Some (JStr (filePath args now))
         ∧ st' = (dateISO (auditLog "INFO" (downloaded args content now)
                             (written args st content now w4)).2).2
         ∧ ∃ evs, trace st' = trace st ++ evs
             ∧ omap attachmentReply evs = [Resolve (Some content)]
             ∧ omap fileWrite evs
               = [(filePath args now, bufferFromBase64url content, Resolve ())])
  ∧ (∀ o st',
       downloadAttachment args st = (Ok o, st') →
       ∃ content w2 now w3 w4,
         data = Some content ∧ truthyStr content = true
         ∧ fs_mkdir downloadsDir w1 = (Resolve (), w2)
         ∧ date_toISOString w2 = (now, w3)
         ∧ fs_writeFile (filePath args now) (bufferFromBase64url content) w3
           = (Resolve (), w4)).
Proof.
  intros Hm Ha Hget. split; [by apply downloadAttachment_refused|]. split.
  { intros content w2 now w3 w4 -> Hcontent Hmk Hdate Hwr.
    destruct (downloadAttachment_written args st content w1 w2 now w3 w4)
      as (o & st' & Hrun & Hsize & Hpath & _ & Hst & Hevs); try done.
    by exists o, st'. }
  intros o st' Hrun.
  destruct (truthyOpt data) eqn:Hdata.
  2: { rewrite (downloadAttachment_refused args st data w1) in Hrun by done.
       discriminate Hrun. }
  destruct data as [content|]; [|done]. cbn [truthyOpt] in Hdata.
  unfold downloadAttachment in Hrun. rewrite Hm, Ha in Hrun.
  cbn [negb orb] in Hrun.
  match type of Hrun with
  | tryCatch ?m ?h st = _ => set (body := m) in Hrun
  end.
  assert (Hcaught : ∀ e evs st1, steps body st (Throw e) evs st1 → False).
  { intros e evs st1 Hb.
    destruct (steps_caught body "ERROR"
      (λ error, lit "Failed to download attachment: " ++ errorText error)
      (λ error, lit "Failed to download attachment: " ++ errorText error)
      st e evs st1 Hb) as (evs' & st2 & (Hc & _)).
    pose proof (eq_trans (eq_sym Hc) Hrun) as Habs. discriminate Habs. }
  pose proof (perform_Ok _
    (EvAttachmentsGet (orEmpty (DownloadAttachmentRequest.messageId args))
       (orEmpty (DownloadAttachmentRequest.attachmentId args))) st _ _ Hget)
    as Hs1.
  set (st1 := {| world := w1 |}) in Hs1.
  destruct (fs_mkdir downloadsDir w1) as [[[]|e] w2] eqn:Hmk.
  2: { exfalso. eapply Hcaught. unfold body. eapply steps_bind; [exact Hs1|].
       cbn [truthyOpt]. rewrite Hdata. cbn [negb]. apply steps_bind_throw.
       by apply (perform_Throw _ (λ _, EvMkdir downloadsDir)). }
  pose proof (perform_Ok _ (λ _, EvMkdir downloadsDir) st1 _ _ Hmk) as Hs2.
  set (st2 := {| world := w2 |}) in Hs2.
  destruct (date_toISOString w2) as [now w3] eqn:Hdate.
  assert (Hd : (λ w, let '(t, w') := date_toISOString w in (Resolve t, w')) w2
               = (Resolve now, w3)) by (cbv beta; by rewrite Hdate).
  pose proof (perform_Ok _ (λ _, EvDate) st2 _ _ Hd) as Hs3.
  set (st3 := {| world := w3 |}) in Hs3.
  destruct (fs_writeFile (filePath args now) (bufferFromBase64url content) w3)
    as [[[]|e] w4] eqn:Hwr.
  2: { exfalso. eapply Hcaught. unfold body. eapply steps_bind; [exact Hs1|].
       cbn [truthyOpt]. rewrite Hdata. cbn [negb].
       eapply steps_bind; [exact Hs2|]. eapply steps_bind; [exact Hs3|].
       apply steps_bind_throw.
       by apply (perform_Throw _
                   (EvWriteFile (filePath args now) (bufferFromBase64url content))). }
  by exists content, w2, now, w3, w4.
Qed.

(** *** [emptySpam] with confirmation *)

(** The inner loop attempts every message that has an identifier, in
    order; it never throws; each rejected deletion is logged at level
    [ERROR] and is the only thing that keeps the counter from growing. *)
Lemma deleteBatch_steps (batch : list Message) : ∀ d st,
  ∃ d' evs st',
    steps (deleteBatch batch d) st (Ok d') evs st'
    ∧ omap deleteOrPause evs = inl <$> attemptedIds batch
    ∧ (d' + length (omap failedDelete evs)
       = d + length (attemptedIds batch))%nat
    ∧ omap errorAudit evs = deleteFailure <$> omap failedDelete evs.
Proof.
  induction batch as [|message rest IH]; intros d st.
  { exists d, [], st. split_and!; [apply steps_ret|done|simpl; lia|done]. }
  cbn [deleteBatch]. unfold attemptedIds. cbn [omap list_omap].
  fold (omap (λ m : Message, if truthyOpt (id m) then Some (orEmpty (id m)) else None) rest).
  fold (attemptedIds rest).
  destruct (truthyOpt (id message)) eqn:Hid; [|apply IH].
  set (mid := orEmpty (id message)).
  destruct (gmail_messages_delete mid (world st)) as [[[]|e] w1] eqn:Hdel.
  - pose proof (perform_Ok _ (EvMessagesDelete mid) st _ _ Hdel) as Hs1.
    set (st1 := {| world := w1 |}) in Hs1.
    destruct (IH (S d) st1) as (d' & evs & st' & Hs & Hview & Hcount & Haudit).
    exists d', ([EvMessagesDelete mid (Resolve ())] ++ evs), st'. split_and!.
    + eapply steps_bind; [|exact Hs].
      apply steps_try_ok. rewrite <- (app_nil_r [_]).
      eapply steps_bind; [exact Hs1|apply steps_ret].
    + rewrite omap_app, Hview. reflexivity.
    + rewrite omap_app, length_app. cbn [omap list_omap failedDelete length app].
      simpl length. lia.
    + rewrite !omap_app, Haudit. reflexivity.
  - pose proof (perform_Throw _ (EvMessagesDelete mid) st _ _ Hdel) as Hs1.
    set (st1 := {| world := w1 |}) in Hs1.
    destruct (auditLog_steps "ERROR"
      (lit "Failed to delete spam email " ++ mid ++ lit ": " ++ errorText e) st1)
      as (evsA & st2 & Hs2 & HlogIO).
    destruct (logIO_unobserved evsA HlogIO) as (Hv & Hf & Ha & _).
    destruct (IH d st2) as (d' & evs & st' & Hs & Hview & Hcount & Haudit).
    exists d', (([EvMessagesDelete mid (Reject e)]
                 ++ ([EvAudit (lit "ERROR")
                        (lit "Failed to delete spam email " ++ mid ++ lit ": "
                         ++ errorText e)] ++ evsA) ++ []) ++ evs), st'.
    split_and!.
    + eapply steps_bind; [|exact Hs].
      eapply steps_try_throw.
      * apply steps_bind_throw. exact Hs1.
      * eapply steps_bind; [exact Hs2|apply steps_ret].
    + rewrite !omap_app, Hview, Hv. reflexivity.
    + rewrite !omap_app, !length_app, Hf. simpl length. lia.
    + rewrite !omap_app, Haudit, Ha, Hf. reflexivity.
Qed.

Lemma batchLoop_turn fuel (l : list Message) i d :
  (i < length l)%nat →
  batchLoop (S fuel) l i d =
    (let* d' := deleteBatch (slice i (i + batchSize) l) d in
     let* _ := (if (i + batchSize <? length l)%nat
                then setTimeout 1000 else ret ()) in
     batchLoop fuel l (i + batchSize) d').
Proof. intros Hi. cbn [batchLoop]. by apply Nat.ltb_lt in Hi as ->. Qed.

Lemma batchLoop_exit fuel (l : list Message) i d :
  (length l ≤ i)%nat → batchLoop (S fuel) l i d = ret d.
Proof. intros Hi. cbn [batchLoop]. by apply Nat.ltb_ge in Hi as ->. Qed.


(** The outer loop returns for every listing: the fuel that [emptySpam]
    gives it is never used up, and the counter grows by the number of
    attempted deletions that were not rejected. *)
Lemma batchLoop_steps fuel : ∀ (l : list Message) i d st,
  (length l - i < fuel)%nat →
  ∃ d' evs st',
    steps (batchLoop fuel l i d) st (Ok d') evs st'
    ∧ (d' + length (omap failedDelete evs)
       = d + length (attemptedIds (drop i l)))%nat
    ∧ omap errorAudit evs = deleteFailure <$> omap failedDelete evs.
Proof.
  induction fuel as [|fuel IH]; intros l i d st Hfuel; [lia|].
  destruct (decide (i < length l)%nat) as [Hi|Hi].
  - rewrite batchLoop_turn by done.
    assert (Hslice : slice i (i + batchSize) l = take 50 (drop i l)).
    { unfold slice, batchSize. f_equal. lia. }
    rewrite Hslice.
    destruct (deleteBatch_steps (take 50 (drop i l)) d st)
      as (d1 & evs1 & st1 & Hb & _ & Hc1 & Ha1).
    assert (Hpause : ∃ evsP st2,
      steps (if (i + batchSize <? length l)%nat then setTimeout 1000 else ret ())
            st1 (Ok ()) evsP st2
      ∧ omap failedDelete evsP = [] ∧ omap errorAudit evsP = []).
    { destruct (_ <? _)%nat.
      - destruct (setTimeout_steps 1000 st1) as (st2 & Hp).
        by exists [EvSleep 1000], st2.
      - exists [], st1. split; [apply steps_ret|done]. }
    destruct Hpause as (evsP & st2 & Hp & HfP & HaP).
    destruct (IH l (i + batchSize)%nat d1 st2)
      as (d2 & evs2 & st3 & Hrest & Hc2 & Ha2).
    { unfold batchSize. lia. }
    exists d2, (evs1 ++ evsP ++ evs2), st3. split_and!.
    + eapply steps_bind; [exact Hb|]. eapply steps_bind; [exact Hp|exact Hrest].
    + rewrite !omap_app, !length_app, HfP.
      rewrite <- (take_drop 50 (drop i l)) at 1. unfold attemptedIds in *.
      rewrite omap_app, length_app, drop_drop.
      replace (i + 50)%nat with (i + batchSize)%nat by done.
      simpl length. lia.
    + rewrite !omap_app, Ha1, Ha2, HfP, HaP. by rewrite !fmap_app.
  - rewrite batchLoop_exit by lia.
    exists d, [], st. split_and!; [apply steps_ret| |done].
    rewrite drop_ge by lia. simpl. lia.
Qed.

(** [emptySpam] ends with a value or an exception, whatever the answers
    of the outside world. *)
Lemma emptySpam_terminates confirm st :
  ∃ r evs st', steps (emptySpam confirm) st r evs st' ∧ r ≠ OutOfFuel.
Proof.
  unfold emptySpam. destruct (truthy confirm); cbn [negb].
  2: { eexists _, _, _. split; [apply steps_ret|done]. }
  match goal with
  | |- ∃ r evs st', steps (tryCatch ?m ?h) _ _ _ _ ∧ _ => set (body := m)
  end.
  destruct (auditLog_steps "WARN"
    (lit "Starting spam folder cleanup - USER INITIATED") st)
    as (evsA & st1 & Hs1 & _).
  destruct (gmail_messages_list (lit "in:spam") 500 (world st1))
    as [[listed|e] w2] eqn:Hl.
  2: { eassert (Hb : steps body st (Throw e)
         ((EvAudit (lit "WARN")
             (lit "Starting spam folder cleanup - USER INITIATED") :: evsA)
          ++ [EvMessagesList (lit "in:spam") 500]) _).
       { eapply steps_bind; [exact Hs1|]. apply steps_bind_throw.
         by apply (perform_Throw _ (λ _, EvMessagesList (lit "in:spam") 500)). }
       destruct (steps_caught body "ERROR"
         (λ error, lit "Failed to empty spam folder: " ++ errorText error)
         (λ error, lit "Failed to empty spam folder: " ++ errorText error)
         _ _ _ _ Hb) as (evs' & st' & Hc).
       by eexists _, _, _. }
  pose proof (perform_Ok _ (λ _, EvMessagesList (lit "in:spam") 500) st1 _ _ Hl)
    as Hs2.
  set (st2 := {| world := w2 |}) in Hs2.
  destruct (length (default [] listed) =? 0)%nat eqn:Hzero.
  - destruct (auditLog_steps "INFO" (lit "Spam folder is already empty") st2)
      as (evsB & st3 & Hs3 & _).
    eexists _, _, _. split.
    { apply steps_try_ok. eapply steps_bind; [exact Hs1|].
      eapply steps_bind; [exact Hs2|]. cbv beta zeta. rewrite Hzero.
      eapply steps_bind; [exact Hs3|apply steps_ret]. }
    done.
  - destruct (batchLoop_steps (S (length (default [] listed)))
                (default [] listed) 0 0 st2) as (d & evsL & st3 & Hs3 & _); [lia|].
    destruct (auditLog_steps "WARN"
      (lit "Spam cleanup completed - Deleted " ++ natText d ++ lit " emails") st3)
      as (evsB & st4 & Hs4 & _).
    destruct (dateISO_steps st4) as (completedAt & st5 & Hs5).
    eexists _, _, _. split.
    { apply steps_try_ok. eapply steps_bind; [exact Hs1|].
      eapply steps_bind; [exact Hs2|]. cbv beta zeta. rewrite Hzero.
      eapply steps_bind; [exact Hs3|]. eapply steps_bind; [exact Hs4|].
      eapply steps_bind; [exact Hs5|apply steps_ret]. }
    done.
Qed.



End WithWorld.
End ServerFacts.

(** * The handlers at work on the simulated mailbox *)

Module Runs.
Import Regex Validation RateLimit Server Sim.
Import RateLimitFacts ServerFacts.

(** Fifty calls in one instant are granted, the next two are not; the
    first call after the window has passed is granted again. *)
Example burst_then_recovery :
  map snd (serve (lit "default") (replicate 51 0 ++ [59999; 60000; 60000]) ∅).1
  = replicate 50 true ++ [false; false; true; true].
Proof. by vm_compute. Qed.

Definition threeCalls : list Z := [0; 10; 60000].

Lemma rate_limit_sliding_window_witness :
  Sorted Z.le threeCalls
  ∧ (countIn 0 59999 (granted (serve (lit "default") threeCalls ∅).1) ≤ 50)%nat.
Proof.
  assert (Hs : Sorted Z.le threeCalls) by (repeat constructor; lia).
  split; [exact Hs|].
  apply (proj1 (rate_limit_sliding_window (lit "default") _ Hs)).
  unfold windowMs. lia.
Defined.

Lemma emptySpam_refuses_without_confirm_witness :
  truthy VUndefined = false
  ∧ emptySpam VUndefined (start box) = (Ok refusal, start box).
Proof.
  split; [reflexivity|].
  apply (emptySpam_refuses_without_confirm VUndefined (start box)). reflexivity.
Defined.

Definition longSubject : SendEmailRequest.t :=
  {| SendEmailRequest.to := VArr [lit "a@b.co"];
     SendEmailRequest.subject := VStr (replicate 256 (ch "s"));
     SendEmailRequest.body := VStr (lit "hello");
     SendEmailRequest.cc := None;
     SendEmailRequest.bcc := None |}.

Lemma sendEmail_rejects_invalid_witness :
  255 < strlen (replicate 256 (ch "s"))
  ∧ ∃ message, sendEmail longSubject (start box)
               = (Throw (Error message), start box).
Proof.
  assert (Hlong : 255 < strlen (replicate 256 (ch "s"))) by reflexivity.
  split; [exact Hlong|].
  destruct (sendEmail_rejects_invalid longSubject (start box)) as (message & Hrun & _).
  - left. exists (replicate 256 (ch "s")). split; [reflexivity|exact Hlong].
  - exists message. exact Hrun.
Defined.

(** A subject of exactly 255 characters passes and the mail is sent. *)
Example sendEmail_accepts_255 :
  ∃ o st',
    sendEmail {| SendEmailRequest.to := VArr [lit "a@b.co"];
                 SendEmailRequest.subject := VStr (replicate 255 (ch "s"));
                 SendEmailRequest.body := VStr (lit "hello");
                 SendEmailRequest.cc := None;
                 SendEmailRequest.bcc := None |} (start box) = (Ok o, st')
    ∧ length (List.filter isMailApi (trace st')) = 1%nat.
Proof. eexists _, _. split; [by vm_compute|]. by vm_compute. Qed.

Lemma readEmail_scans_top_level_parts_witness :
  ∃ o st',
    readEmail (VStr (lit "m1")) (start box) = (Ok o, st')
    ∧ get "body" o = Some (JStr (lit "B")).
Proof.
  destruct (readEmail_scans_top_level_parts (lit "m1") (start box)
              (message "m1" mixed) box mixed)
    as (o & st' & text & Hrun & Hbody & Htext & _).
  - reflexivity.
  - vm_compute. reflexivity.
  - reflexivity.
  - exists o, st'. split; [exact Hrun|]. rewrite Hbody, Htext.
    vm_compute. reflexivity.
Defined.

(** C6 without its amendment fails on a message of type [text/html]
    only: no top-level part is plain text, yet the body is not empty. *)
Lemma readEmail_html_only_body :
  gmail_messages_get (lit "m2") (lit "full") box
    = (Resolve (message "m2" htmlOnly), box)
  ∧ ∃ o st',
      readEmail (VStr (lit "m2")) (start box) = (Ok o, st')
      ∧ get "body" o = Some (JStr (lit "<b>hi</b>"))
      ∧ firstPlainPart (default [] (parts htmlOnly)) = None
      ∧ get "body" o
        ≠ Some (JStr (substring0 5000 (topLevelPlainBody htmlOnly))).
Proof.
  split; [by vm_compute|].
  eexists _, _. split; [by vm_compute|]. split_and!; [by vm_compute|done|].
  vm_compute. discriminate.
Qed.

Lemma readEmail_prefers_payload_body_witness :
  ∃ o st',
    readEmail (VStr (lit "m4")) (start box) = (Ok o, st')
    ∧ get "body" o = Some (JStr (lit "<b>hi</b>")).
Proof.
  destruct (readEmail_prefers_payload_body (lit "m4") (start box)
              (message "m4" bodyAndParts) box bodyAndParts)
    as (o & st' & Hrun & Hdirect & _).
  - reflexivity.
  - vm_compute. reflexivity.
  - reflexivity.
  - exists o, st'. split; [exact Hrun|].
    destruct Hdirect as (_ & Hbody & _); [reflexivity|].
    rewrite Hbody. vm_compute. reflexivity.
Defined.

Lemma readEmailHtml_walks_whole_tree_witness :
  ∃ o st',
    readEmailHtml (VStr (lit "m1")) (start box) = (Ok o, st')
    ∧ get "textContent" o = Some (JStr (lit "B"))
    ∧ get "attachmentCount" o = Some (JNum 1).
Proof.
  destruct (readEmailHtml_walks_whole_tree (lit "m1") (start box)
              (message "m1" mixed) box mixed)
    as (o & st' & e & text & Hrun & He & _ & _ & _ & Hcount & Htext & _ & Hval).
  - reflexivity.
  - vm_compute. reflexivity.
  - reflexivity.
  - exists o, st'. split; [exact Hrun|]. split.
    + rewrite Htext, Hval, He. vm_compute. reflexivity.
    + rewrite Hcount, He. vm_compute. reflexivity.
Defined.

(** C3 without its amendment fails on [mixed]: the plain-text body kept
    is the last one met (["B"]), not the first (["A"]), and of the two
    parts that carry an attachment identifier only the one with a file
    name is counted. *)
Lemma readEmailHtml_keeps_last_body :
  textBody (extractContent mixed noContent) = lit "B"
  ∧ firstBody "text/plain" (preorder mixed) = lit "A"
  ∧ attachmentCount (extractContent mixed noContent) = 1%nat
  ∧ length (List.filter hasAttachmentId (preorder mixed)) = 2%nat.
Proof. by vm_compute. Qed.

(** The conversion of an HTML body. *)
Example readEmailHtml_converts_html :
  ∃ o st',
    readEmailHtml (VStr (lit "m3")) (start box) = (Ok o, st')
    ∧ htmlBody (extractContent htmlLetter noContent)
      = lit "<p>Hi<br/>there &amp; <b>you</b></p>"
    ∧ get "textContent" o
      = Some (JStr (lit "Hi" ++ [10%N] ++ lit "there & you")).
Proof. eexists _, _. split; [by vm_compute|]. by vm_compute. Qed.

Definition fetch : DownloadAttachmentRequest.t :=
  {| DownloadAttachmentRequest.messageId := Some (lit "m1");
     DownloadAttachmentRequest.attachmentId := Some (lit "att-1");
     DownloadAttachmentRequest.filename := Some (lit "a.pdf") |}.

Lemma downloadAttachment_size_is_bytes_written_witness :
  ∃ o st',
    downloadAttachment fetch (start box) = (Ok o, st')
    ∧ get "size" o = Some (JNum 5)
    ∧ get "filePath" o
      = Some (JStr (lit "/home/user/.secure-gmail-mcp/downloads/a.pdf"))
    ∧ disk (world st')
      = [(lit "/home/user/.secure-gmail-mcp/downloads/a.pdf",
          map byteOf (lit "Hello"))].
Proof.
  destruct (downloadAttachment_size_is_bytes_written fetch (start box)
              (Some (lit "SGVsbG8")) box) as (_ & Hwritten & _).
  - reflexivity.
  - reflexivity.
  - reflexivity.
  - destruct (Hwritten (lit "SGVsbG8") _ _ _ _
                eq_refl eq_refl eq_refl eq_refl eq_refl)
      as (o & st' & Hrun & Hsize & Hpath & Hst & _).
    exists o, st'. split; [exact Hrun|]. split.
    + rewrite Hsize. vm_compute. reflexivity.
    + split; [rewrite Hpath; vm_compute; reflexivity|].
      rewrite Hst. vm_compute. reflexivity.
Defined.

(** C7 without its amendment fails on an attachment without content:
    the endpoint returns the empty payload, and [downloadAttachment]
    throws instead of writing a file of no bytes. *)
Definition hollow : Mailbox :=
  {| inbox := inbox box; spam := spam box; locked := locked box;
     attachment := Some []; disk := []; slept := 0 |}.

Lemma downloadAttachment_empty_payload :
  gmail_attachments_get (lit "m1") (lit "att-1") hollow
    = (Resolve (Some []), hollow)
  ∧ bufferFromBase64url [] = []
  ∧ ∃ st',
      downloadAttachment fetch (start hollow)
      = (Throw (Error (lit "Failed to download attachment: Error: No attachment data received")),
         st')
      ∧ disk (world st') = [].
Proof.
  split; [by vm_compute|]. split; [by vm_compute|].
  eexists. split; [by vm_compute|]. by vm_compute.
Qed.

(** The five bytes of ["Hello"] reach the disk. *)
Example downloadAttachment_hello :
  ∃ o st',
    downloadAttachment fetch (start box) = (Ok o, st')
    ∧ get "size" o = Some (JNum 5)
    ∧ disk (world st')
      = [(lit "/home/user/.secure-gmail-mcp/downloads/a.pdf",
          map byteOf (lit "Hello"))].
Proof. eexists _, _. split; [by vm_compute|]. by vm_compute. Qed.


End Runs.

(** * Further properties *)

(** ** The rate limiter under any traffic *)

Module RateLimitMore.
Import RateLimit RateLimitMany RateLimitFacts.

(** A call of one client leaves the history of every other client as it
    was. *)
Lemma checkRateLimit_other c c' now st :
  c ≠ c' → history c' (checkRateLimit c now st).2 = history c' st.
Proof.
  intros Hne. rewrite checkRateLimit_unfold.
  destruct (decide _); [done|]. simpl. unfold history.
  by rewrite lookup_insert_ne.
Qed.

(** What a call decides, and the history it leaves, depend on the table
    through the history of its client only. *)
Lemma checkRateLimit_history c now st1 st2 :
  history c st1 = history c st2 →
  (checkRateLimit c now st1).1 = (checkRateLimit c now st2).1
  ∧ history c (checkRateLimit c now st1).2
    = history c (checkRateLimit c now st2).2.
Proof.
  intros Heq. rewrite !checkRateLimit_unfold, Heq.
  destruct (decide _); [done|]. simpl. unfold history.
  by rewrite !lookup_insert_eq.
Qed.

Lemma decisionsOf_cons c c' now ok (ds : list (jsstring * Z * bool)) :
  decisionsOf c ((c', now, ok) :: ds)
  = if decide (c' = c) then (now, ok) :: decisionsOf c ds else decisionsOf c ds.
Proof.
  unfold decisionsOf. destruct (decide (c' = c)).
  - by rewrite filter_cons_True.
  - by rewrite filter_cons_False.
Qed.

Lemma callsOf_cons c c' now (calls : list (jsstring * Z)) :
  callsOf c ((c', now) :: calls)
  = if decide (c' = c) then now :: callsOf c calls else callsOf c calls.
Proof.
  unfold callsOf. destruct (decide (c' = c)).
  - by rewrite filter_cons_True.
  - by rewrite filter_cons_False.
Qed.

Lemma serveAll_serve c (calls : list (jsstring * Z)) : ∀ st1 st2,
  history c st1 = history c st2 →
  decisionsOf c (serveAll calls st1).1 = (serve c (callsOf c calls) st2).1
  ∧ history c (serveAll calls st1).2
    = history c (serve c (callsOf c calls) st2).2.
Proof.
  induction calls as [|[c' now] calls IH]; intros st1 st2 Heq; [done|].
  cbn [serveAll]. rewrite callsOf_cons.
  destruct (checkRateLimit c' now st1) as [ok st1'] eqn:Hstep.
  destruct (decide (c' = c)) as [->|Hne].
  - cbn [serve].
    destruct (checkRateLimit c now st2) as [ok2 st2'] eqn:Hstep2.
    destruct (checkRateLimit_history c now st1 st2 Heq) as [Hok Hh].
    rewrite Hstep, Hstep2 in Hok, Hh. cbn [fst snd] in Hok, Hh. subst ok2.
    destruct (IH st1' st2' Hh) as [IH1 IH2].
    destruct (serveAll calls st1') as [ds final].
    destruct (serve c (callsOf c calls) st2') as [ds2 final2].
    cbn [fst snd] in *. rewrite decisionsOf_cons.
    destruct (decide (c = c)); [|done]. by rewrite IH1.
  - assert (Hh : history c st1' = history c st2).
    { rewrite <- Heq. pose proof (checkRateLimit_other c' c now st1 Hne) as H.
      by rewrite Hstep in H. }
    destruct (IH st1' st2 Hh) as [IH1 IH2].
    destruct (serveAll calls st1') as [ds final].
    cbn [fst snd] in *. rewrite decisionsOf_cons.
    by destruct (decide (c' = c)).
Qed.

(** X1. Clients do not interfere: in any sequence of calls by any
    clients at any clock readings, the decisions taken for one client,
    and the history stored for it at the end, are those of the calls of
    that client alone. *)
Theorem clients_are_independent (c : jsstring) (calls : list (jsstring * Z))
    (st : gmap jsstring (list Z)) :
  decisionsOf c (serveAll calls st).1 = (serve c (callsOf c calls) st).1
  ∧ history c (serveAll calls st).2
    = history c (serve c (callsOf c calls) st).2.
Proof. by apply serveAll_serve. Qed.

Lemma checkRateLimit_length c c' now st :
  (length (history c' st) ≤ maxRequests)%nat →
  (length (history c' (checkRateLimit c now st).2) ≤ maxRequests)%nat.
Proof.
  intros Hlen. destruct (decide (c = c')) as [->|Hne].
  - rewrite checkRateLimit_unfold. destruct (decide _) as [|Hfree]; [done|].
    simpl. unfold history at 1. rewrite lookup_insert_eq. simpl.
    rewrite length_app. simpl. lia.
  - by rewrite checkRateLimit_other.
Qed.

(** X2. The table stays small: whatever the clients and whatever the
    clock readings, in any order, no client ever has more than 50
    timestamps stored, starting from the empty table. *)
Theorem history_is_bounded (calls : list (jsstring * Z)) (c : jsstring) :
  (length (history c (serveAll calls ∅).2) ≤ 50)%nat.
Proof.
  assert (H : ∀ st, (length (history c st) ≤ maxRequests)%nat →
    (length (history c (serveAll calls st).2) ≤ maxRequests)%nat).
  { induction calls as [|[c' now] calls IH]; intros st Hlen; [done|].
    cbn [serveAll].
    pose proof (checkRateLimit_length c' c now st Hlen) as Hstep.
    destruct (checkRateLimit c' now st) as [ok st'].
    specialize (IH st' Hstep). by destruct (serveAll calls st'). }
  apply H. unfold history. rewrite lookup_empty. simpl. unfold maxRequests. lia.
Qed.

(** X3. Recovery: on any table, a call made when every timestamp stored
    for its client is at least 60000 ms old is granted, and the history
    of the client is then that call alone. *)
Theorem granted_after_a_quiet_window (c : jsstring) (now : Z)
    (st : gmap jsstring (list Z)) :
  Forall (λ t, t ≤ now - windowMs) (history c st) →
  checkRateLimit c now st = (true, <[c := [now]]> st).
Proof.
  intros Hold. rewrite checkRateLimit_unfold.
  assert (inWindow now (history c st) = []) as ->.
  { unfold inWindow. induction Hold as [|t l Ht _ IH]; [done|].
    rewrite filter_cons_False by lia. done. }
  done.
Qed.

End RateLimitMore.

(** ** More on [sanitizeInput] *)

Module ValidationMore.
Import Regex Validation RegexFacts ValidationFacts.

Lemma sanitizeInput_filter (input : jsstring) :
  sanitizeInput input = trim (filter (λ c, isAngle c = false) input).
Proof. unfold sanitizeInput. by rewrite replaceAll_cls_empty. Qed.

Lemma trimStart_id (s : jsstring) :
  (∀ c, head s = Some c → isSpace c = false) → trimStart s = s.
Proof.
  destruct s as [|c s]; [done|]. intros H. simpl. by rewrite (H c).
Qed.

Lemma trimEnd_id (s : jsstring) :
  (∀ c, last s = Some c → isSpace c = false) → trimEnd s = s.
Proof.
  intros H. unfold trimEnd. rewrite trimStart_id.
  - apply reverse_involutive.
  - intros c. rewrite head_reverse. apply H.
Qed.

Lemma trim_trim (s : jsstring) : trim (trim s) = trim s.
Proof.
  destruct (trim_split s) as (l & r & _ & _ & _ & Hhead & Hlast).
  unfold trim at 1. rewrite (trimStart_id (trim s)) by done.
  by apply trimEnd_id.
Qed.

Lemma trimStart_spaces (s : jsstring) :
  Forall (λ c, isSpace c = true) s → trimStart s = [].
Proof. induction 1 as [|c s Hc _ IH]; [done|]. simpl. by rewrite Hc. Qed.

Lemma trim_elem_of (s : jsstring) c : c ∈ trim s → c ∈ s.
Proof.
  destruct (trim_split s) as (l & r & Hs & _). intros Hc.
  rewrite Hs. apply elem_of_app. right. apply elem_of_app. by left.
Qed.

(** X4. [sanitizeInput] is idempotent: sanitising a sanitised text
    changes nothing, so a query or a subject that went through it once
    can go through it again. *)
Theorem sanitizeInput_idempotent (input : jsstring) :
  sanitizeInput (sanitizeInput input) = sanitizeInput input.
Proof.
  rewrite (sanitizeInput_filter (sanitizeInput input)).
  assert (Hclean : filter (λ c, isAngle c = false) (sanitizeInput input)
                   = sanitizeInput input).
  { apply RateLimitFacts.filter_all_Forall. apply Forall_forall. intros c Hc.
    rewrite sanitizeInput_filter in Hc. apply trim_elem_of in Hc.
    by apply list_elem_of_filter in Hc as [? _]. }
  rewrite Hclean, sanitizeInput_filter. apply trim_trim.
Qed.

(** X5. The result of [sanitizeInput] is empty exactly when the input
    holds nothing but angle brackets and whitespace; so a non-empty
    text such as ["<>"] is sanitised to the empty text. *)
Theorem sanitizeInput_empty_iff (input : jsstring) :
  sanitizeInput input = []
  ↔ Forall (λ c, c = ch "<" ∨ c = ch ">" ∨ isSpace c = true) input.
Proof.
  rewrite sanitizeInput_filter. split.
  - intros Hempty.
    destruct (trim_split (filter (λ c, isAngle c = false) input))
      as (l & r & Hs & Hl & Hr & _).
    rewrite Hempty in Hs. simpl in Hs.
    apply Forall_forall. intros c Hc.
    destruct (isAngle c) eqn:Hangle.
    + unfold isAngle in Hangle.
      apply orb_true_iff in Hangle as [H|H]; apply N.eqb_eq in H; auto.
    + right; right.
      assert (Hin : c ∈ filter (λ c, isAngle c = false) input)
        by (by apply list_elem_of_filter).
      rewrite Hs in Hin. apply elem_of_app in Hin as [Hin|Hin].
      * rewrite Forall_forall in Hl. by apply Hl.
      * rewrite Forall_forall in Hr. by apply Hr.
  - intros Hall. unfold trim. rewrite trimStart_spaces; [done|].
    apply Forall_forall. intros c Hc.
    apply list_elem_of_filter in Hc as [Hangle Hc].
    rewrite Forall_forall in Hall.
    destruct (Hall c Hc) as [->|[->|Hsp]]; [done|done|done].
Qed.

End ValidationMore.

(** ** More on the handlers of [Server] *)

Module ServerMore.
Import Regex Validation Server RegexFacts ServerFacts ObserveMore SendGate Attachments.

Section WithWorld.
Context {RT : NodeRuntime} {ENV : Environment}.

(** The three ways [auditLog] can go. *)
Lemma auditLog_cases level message st :
  ∃ evs st',
    steps (auditLog level message) st (Ok ())
      (EvAudit (lit level) message :: evs) st'
    ∧ forallb isLogIO evs = true
    ∧ (omap appended evs = []
       ∨ ∃ ts, omap appended evs
               = [(AUDIT_LOG_PATH,
                   lit "[" ++ ts ++ lit "] " ++ lit level ++ lit ": "
                   ++ message ++ [10%N])]).
Proof.
  unfold auditLog.
  destruct (steps_record (EvAudit (lit level) message) st) as (st0 & Hrec).
  destruct (fs_mkdir CONFIG_DIR (world st0)) as [[[]|e] w1] eqn:Hmk.
  - pose proof (perform_Ok _ (λ _, EvMkdir CONFIG_DIR) st0 _ _ Hmk) as Hs1.
    set (st1 := {| world := w1 |}) in Hs1.
    destruct (dateISO_steps st1) as (ts & st2 & Hs2).
    set (entry := lit "[" ++ ts ++ lit "] " ++ lit level ++ lit ": "
                  ++ message ++ [10%N]).
    destruct (fs_appendFile AUDIT_LOG_PATH entry (world st2)) as [[[]|e] w3] eqn:Hap.
    + pose proof (perform_Ok _ (λ _, EvAppendFile AUDIT_LOG_PATH entry) st2 _ _ Hap)
        as Hs3.
      eexists _, _. split_and!.
      * eapply (steps_bind _ _ _ _ [_]); [exact Hrec|]. apply steps_try_ok.
        eapply steps_bind; [exact Hs1|]. eapply steps_bind; [exact Hs2|exact Hs3].
      * done.
      * right. by exists ts.
    + pose proof (perform_Throw _ (λ _, EvAppendFile AUDIT_LOG_PATH entry) st2 _ _ Hap)
        as Hs3.
      set (st3 := {| world := w3 |}) in Hs3.
      eexists _, _. split_and!.
      * eapply (steps_bind _ _ _ _ [_]); [exact Hrec|].
        eapply steps_try_throw.
        -- eapply steps_bind; [exact Hs1|]. eapply steps_bind; [exact Hs2|exact Hs3].
        -- by apply (perform_Ok _ (λ _, EvConsoleError (lit "Failed to write audit log:")) st3).
      * done.
      * right. by exists ts.
  - pose proof (perform_Throw _ (λ _, EvMkdir CONFIG_DIR) st0 _ _ Hmk) as Hs1.
    set (st1 := {| world := w1 |}) in Hs1.
    eexists _, _. split_and!.
    + eapply (steps_bind _ _ _ _ [_]); [exact Hrec|].
      eapply steps_try_throw.
      * apply steps_bind_throw. exact Hs1.
      * by apply (perform_Ok _ (λ _, EvConsoleError (lit "Failed to write audit log:")) st1).
    + done.
    + by left.
Qed.

(** X6. [auditLog] is best effort: whatever the file system answers it
    returns normally; it leaves the rate-limit table alone, calls no
    operation of the mail API and writes no file other than by
    appending, at most once, the line
    ["[" timestamp "] " level ": " message] and a newline to the audit
    log. *)
Theorem auditLog_never_throws level message (st : State) :
  ∃ evs st',
    auditLog level message st = (Ok (), st')
    ∧ trace st' = trace st ++ evs
    ∧ requests st' = requests st
    ∧ List.filter isMailApi evs = []
    ∧ omap fileWrite evs = []
    ∧ omap auditCall evs = [(lit level, message)]
    ∧ (omap appended evs = []
       ∨ ∃ ts, omap appended evs
               = [(AUDIT_LOG_PATH,
                   lit "[" ++ ts ++ lit "] " ++ lit level ++ lit ": "
                   ++ message ++ [10%N])]).
Proof.
  destruct (auditLog_cases level message st)
    as (evs & st' & (Hrun & Htrace & Hreq) & Hio & Happ).
  destruct (logIO_unobserved evs Hio) as (_ & _ & _ & Hw & _ & Hapi).
  assert (Haud : omap auditCall evs = []).
  { clear -Hio. induction evs as [|e evs IH]; [done|].
    simpl in Hio. apply andb_true_iff in Hio as [He Hio].
    destruct e; try discriminate; by apply IH. }
  exists (EvAudit (lit level) message :: evs), st'.
  split; [exact Hrun|]. split; [exact Htrace|]. split; [exact Hreq|].
  split; [exact Hapi|]. split; [exact Hw|].
  split; [cbn [omap list_omap auditCall]; by rewrite Haud|].
  exact Happ.
Qed.

(** *** Reading traces piece by piece *)

Lemma omap_cons_eq {A B} (f : A → option B) (x : A) (l : list A) :
  omap f (x :: l)
  = match f x with Some y => y :: omap f l | None => omap f l end.
Proof. reflexivity. Qed.

Lemma omap_nil_eq {A B} (f : A → option B) : omap f [] = [].
Proof. reflexivity. Qed.

Lemma filter_cons_eq {A} (f : A → bool) (x : A) (l : list A) :
  List.filter f (x :: l) = if f x then x :: List.filter f l else List.filter f l.
Proof. reflexivity. Qed.

Lemma filter_nil_eq {A} (f : A → bool) : List.filter f [] = [].
Proof. reflexivity. Qed.

(** An observer that sees none of the events inside [auditLog] sees
    nothing in a run of them. *)
Lemma logIO_omap {B} (f : Event → option B) (evs : list Event) :
  (∀ e, isLogIO e = true → f e = None) →
  forallb isLogIO evs = true → omap f evs = [].
Proof.
  intros Hf. induction evs as [|e evs IH]; [done|]. cbn [forallb].
  intros [He Hevs]%andb_true_iff. rewrite omap_cons_eq, (Hf e He). by apply IH.
Qed.

Lemma logIO_filter (evs : list Event) :
  forallb isLogIO evs = true → List.filter isMailApi evs = [].
Proof. intros H. by destruct (logIO_unobserved evs H) as (_&_&_&_&_&?). Qed.

(** *** [sendEmail] *)

Lemma validateAll_steps (emails : list jsstring) (st : State) :
  if forallb validateEmail emails
  then steps (validateAll emails) st (Ok ()) [] st
  else ∃ m, steps (validateAll emails) st (Throw (Error m)) [] st.
Proof.
  induction emails as [|email rest IH]; [apply steps_ret|].
  cbn [forallb validateAll]. destruct (validateEmail email); cbn [negb andb].
  - exact IH.
  - eexists. apply steps_throw.
Qed.

(** How a call of [sendEmail] ends, and what it has done then. *)
Lemma sendEmail_outcome (args : SendEmailRequest.t) (st : State) :
  ∃ r evs st',
    steps (sendEmail args) st r evs st'
    ∧ if wellFormed args
      then (∃ raw message rest,
              evs = EvAudit (lit "WARN") message :: rest
              ∧ omap sentRaw evs = [raw]
              ∧ List.filter isMailApi evs = [EvMessagesSend raw])
           ∧ ((∃ o, r = Ok o)
              ∨ ∃ e, r = Throw (Error (lit "Failed to send email: " ++ errorText e)))
      else evs = [] ∧ st' = st ∧ ∃ m, r = Throw (Error m).
Proof.
  unfold sendEmail, wellFormed, allEmails.
  destruct (SendEmailRequest.to args) as [| | | | |to];
    try (eexists _, _, _; split; [apply steps_throw|]; split_and!; [done|done|by eexists]).
  destruct to as [|t0 to].
  { eexists _, _, _. split; [apply steps_throw|]. split_and!; [done|done|by eexists]. }
  cbn [length Nat.eqb].
  destruct (SendEmailRequest.subject args) as [| | | |subject|];
    try (eexists _, _, _; split; [apply steps_throw|]; split_and!; [done|done|by eexists]).
  destruct (SendEmailRequest.body args) as [| | | |body|].
  1-4,6: destruct (negb (truthyStr subject) || (strlen subject >? 255));
    eexists _, _, _; (split; [apply steps_throw|]); split_and!; (done || by eexists).
  destruct (truthyStr subject) eqn:Hs; cbn [negb orb andb].
  2: { eexists _, _, _. split; [apply steps_throw|]. split_and!; [done|done|by eexists]. }
  destruct (strlen subject >? 255) eqn:Hsl.
  { eexists _, _, _. split; [apply steps_throw|].
    replace (strlen subject <=? 255) with false by lia.
    split_and!; [done|done|by eexists]. }
  replace (strlen subject <=? 255) with true by lia.
  destruct (truthyStr body) eqn:Hb; cbn [negb orb andb].
  2: { eexists _, _, _. split; [apply steps_throw|]. split_and!; [done|done|by eexists]. }
  destruct (strlen body >? 10000) eqn:Hbl.
  { eexists _, _, _. split; [apply steps_throw|].
    replace (strlen body <=? 10000) with false by lia.
    split_and!; [done|done|by eexists]. }
  replace (strlen body <=? 10000) with true by lia. cbn [andb].
  set (cc := default [] (SendEmailRequest.cc args)).
  set (bcc := default [] (SendEmailRequest.bcc args)).
  set (emails := (t0 :: to) ++ cc ++ bcc).
  pose proof (validateAll_steps emails st) as Hval.
  destruct (forallb validateEmail emails).
  2: { destruct Hval as (m & Hval).
       eexists _, _, _. split; [apply steps_bind_throw; exact Hval|].
       split_and!; [done|done|by eexists]. }
  destruct (auditLog_steps "WARN"
    (lit "Email send attempt - To: " ++ join (lit ", ") (t0 :: to)
     ++ lit ", Subject: " ++ subject) st) as (evsA & st1 & Hs1 & HioA).
  match goal with
  | |- context [messagesSend ?raw] => set (encodedEmail := raw)
  end.
  destruct (gmail_messages_send encodedEmail (world st1))
    as [[responseId|e] w2] eqn:Hsend.
  - pose proof (perform_Ok _ (λ _, EvMessagesSend encodedEmail) st1 _ _ Hsend) as Hs2.
    set (st2 := {| world := w2 |}) in Hs2.
    destruct (auditLog_steps "INFO"
      (lit "Email sent successfully - ID: " ++ optText responseId) st2)
      as (evsB & st3 & Hs3 & HioB).
    destruct (dateISO_steps st3) as (timestamp & st4 & Hs4).
    eexists _, _, _. split.
    { eapply steps_bind; [exact Hval|]. eapply steps_bind; [exact Hs1|].
      apply steps_try_ok. eapply steps_bind; [exact Hs2|].
      eapply steps_bind; [exact Hs3|]. eapply steps_bind; [exact Hs4|].
      apply steps_ret. }
    split; [|left; by eexists].
    exists encodedEmail. eexists _, _. split; [reflexivity|]. split.
    + repeat rewrite ?omap_app, ?omap_cons_eq, ?omap_nil_eq.
      rewrite (logIO_omap sentRaw evsA), (logIO_omap sentRaw evsB);
        [done|by intros []|done|by intros []|done].
    + repeat rewrite ?List.filter_app, ?filter_cons_eq, ?filter_nil_eq.
      by rewrite (logIO_filter evsA), (logIO_filter evsB).
  - pose proof (perform_Throw _ (λ _, EvMessagesSend encodedEmail) st1 _ _ Hsend) as Hs2.
    set (st2 := {| world := w2 |}) in Hs2.
    destruct (auditLog_steps "ERROR"
      (lit "Email send failed: " ++ errorText e) st2)
      as (evsB & st3 & Hs3 & HioB).
    eexists _, _, _. split.
    { eapply steps_bind; [exact Hval|]. eapply steps_bind; [exact Hs1|].
      eapply steps_try_throw; [apply steps_bind_throw; exact Hs2|].
      eapply steps_bind; [exact Hs3|apply steps_throw]. }
    split; [|right; by eexists].
    exists encodedEmail. eexists _, _. split; [reflexivity|]. split.
    + repeat rewrite ?omap_app, ?omap_cons_eq, ?omap_nil_eq.
      rewrite (logIO_omap sentRaw evsA), (logIO_omap sentRaw evsB);
        [done|by intros []|done|by intros []|done].
    + repeat rewrite ?List.filter_app, ?filter_cons_eq, ?filter_nil_eq.
      by rewrite (logIO_filter evsA), (logIO_filter evsB).
Qed.

(** X7. [sendEmail] sends exactly when the request is well formed ([to]
    a non-empty array of addresses that pass [validateEmail], like those
    of [cc] and [bcc]; [subject] and [body] non-empty strings within
    255 and 10000 characters). A request that is not well formed is
    rejected with nothing done at all; a well-formed one makes exactly
    one call to the mail API, a send, after the attempt has been handed
    to [auditLog] at level [WARN], and ends with the answer or with
    the error ["Failed to send email: ..."]. *)
Theorem sendEmail_sends_iff_well_formed (args : SendEmailRequest.t) (st : State) :
  ∃ r evs st',
    sendEmail args st = (r, st')
    ∧ trace st' = trace st ++ evs
    ∧ (wellFormed args = false → evs = [] ∧ st' = st ∧ ∃ m, r = Throw (Error m))
    ∧ (wellFormed args = true →
         (∃ raw message rest,
            evs = EvAudit (lit "WARN") message :: rest
            ∧ List.filter isMailApi evs = [EvMessagesSend raw])
         ∧ ((∃ o, r = Ok o)
            ∨ ∃ e, r = Throw (Error (lit "Failed to send email: " ++ errorText e)))).
Proof.
  destruct (sendEmail_outcome args st) as (r & evs & st' & (Hrun & Htrace & Hreq) & H).
  exists r, evs, st'. split; [done|]. split; [done|].
  destruct (wellFormed args); split; intros Heq; try discriminate.
  - destruct H as [(raw & message & rest & -> & _ & Hapi) Hr].
    split; [|done]. by exists raw, message, rest.
  - by destruct H as (-> & -> & Hr).
Qed.

(** *** [readEmail] and [readEmailHtml] *)

(** X8. [readEmail] and [readEmailHtml] make one request to the mail
    API, for the message in format [full], when the argument is a
    non-empty string, and none otherwise; they hand nothing to
    [auditLog], leave the rate-limit table alone, and fail only with
    ["Invalid messageId parameter"], before any request, or with an
    error that wraps the cause. *)
Theorem read_handlers_fail_cleanly (messageId : jsval) (st : State) :
  (∃ r evs st',
     readEmail messageId st = (r, st')
     ∧ trace st' = trace st ++ evs ∧ requests st' = requests st
     ∧ ((evs = [] ∧ st' = st
         ∧ r = Throw (Error (lit "Invalid messageId parameter"))
         ∧ ∀ mid, messageId = VStr mid → mid = [])
        ∨ ∃ mid, messageId = VStr mid ∧ mid ≠ []
            ∧ evs = [EvMessagesGet mid (lit "full")]
            ∧ ((∃ o, r = Ok o)
               ∨ ∃ e, r = Throw (Error (lit "Failed to read email: "
                                        ++ errorText e)))))
  ∧ (∃ r evs st',
       readEmailHtml messageId st = (r, st')
       ∧ trace st' = trace st ++ evs ∧ requests st' = requests st
       ∧ ((evs = [] ∧ st' = st
           ∧ r = Throw (Error (lit "Invalid messageId parameter"))
           ∧ ∀ mid, messageId = VStr mid → mid = [])
          ∨ ∃ mid, messageId = VStr mid ∧ mid ≠ []
              ∧ evs = [EvMessagesGet mid (lit "full")]
              ∧ ((∃ o, r = Ok o)
                 ∨ ∃ e, r = Throw (Error (lit "Failed to read email HTML: "
                                          ++ errorText e))))).
Proof.
  split.
  - unfold readEmail.
    destruct messageId as [| | | |mid|];
      try (eexists _, [], st; split_and!;
           [reflexivity|by rewrite app_nil_r|done|left; by split_and!]).
    destruct mid as [|c mid].
    { eexists _, [], st. split_and!;
        [reflexivity|by rewrite app_nil_r|done|].
      left. split_and!; [done|done|done|]. by intros ? [= <-]. }
    cbn [truthyStr negb]. set (m := c :: mid).
    unfold tryCatch, bind, messagesGet, perform.
    destruct (gmail_messages_get m (lit "full") (world st)) as [[message|e] w] eqn:Hget.
    + destruct (payload message) as [p|];
        (eexists _, _, _; split_and!; [reflexivity|reflexivity|reflexivity|]);
        right; exists m; (split_and!; [done|done|done|]).
      * left. by eexists.
      * right. by eexists.
    + eexists _, _, _. split_and!; [reflexivity|reflexivity|reflexivity|].
      right. exists m. split_and!; [done|done|done|]. right. by eexists.
  - unfold readEmailHtml.
    destruct messageId as [| | | |mid|];
      try (eexists _, [], st; split_and!;
           [reflexivity|by rewrite app_nil_r|done|left; by split_and!]).
    destruct mid as [|c mid].
    { eexists _, [], st. split_and!;
        [reflexivity|by rewrite app_nil_r|done|].
      left. split_and!; [done|done|done|]. by intros ? [= <-]. }
    cbn [truthyStr negb]. set (m := c :: mid).
    unfold tryCatch, bind, messagesGet, perform.
    destruct (gmail_messages_get m (lit "full") (world st)) as [[message|e] w] eqn:Hget.
    + destruct (payload message) as [p|];
        (eexists _, _, _; split_and!; [reflexivity|reflexivity|reflexivity|]);
        right; exists m; (split_and!; [done|done|done|]).
      * left. by eexists.
      * right. by eexists.
    + eexists _, _, _. split_and!; [reflexivity|reflexivity|reflexivity|].
      right. exists m. split_and!; [done|done|done|]. right. by eexists.
Qed.

(** *** The [to] field *)

Lemma splitOn_cons sep (s : jsstring) : ∃ piece pieces, splitOn sep s = piece :: pieces.
Proof.
  induction s as [|c s (piece & pieces & IH)]; [by eexists _, _|].
  simpl. destruct (N.eqb c sep); [by eexists _, _|]. rewrite IH. by eexists _, _.
Qed.

Lemma splitOn_length sep (s : jsstring) :
  length (splitOn sep s) = S (length (filter (λ c, c = sep) s)).
Proof.
  induction s as [|c s IH]; [done|]. simpl.
  destruct (N.eqb_spec c sep) as [->|Hne].
  - rewrite filter_cons_True by done. simpl. by rewrite IH.
  - rewrite filter_cons_False by done.
    destruct (splitOn_cons sep s) as (piece & pieces & Hs).
    rewrite Hs in *. done.
Qed.

Lemma splitOn_pieces sep (s : jsstring) :
  Forall (λ piece, sep ∉ piece) (splitOn sep s).
Proof.
  induction s as [|c s IH]; [repeat constructor; by intros ?%elem_of_nil|].
  simpl. destruct (N.eqb_spec c sep) as [->|Hne].
  - constructor; [by intros ?%elem_of_nil|done].
  - destruct (splitOn_cons sep s) as (piece & pieces & Hs). rewrite Hs in *.
    apply Forall_cons in IH as [Hp Hps]. constructor; [|done].
    intros [?|?]%elem_of_cons; [congruence|done].
Qed.

(** X9. The [to] field that the read and search handlers report always
    has one entry more than the [To] header has commas; no entry holds a
    comma or starts or ends with whitespace; and a message without a
    [To] header is reported with the single empty recipient [[""]],
    not with an empty list. *)
Theorem recipients_shape (hs : list Header) :
  ∃ entries : list jsstring,
    recipients hs = JArr (JStr <$> entries)
    ∧ length entries
      = S (length (filter (λ c, c = ch ",") (getHeader hs "To")))
    ∧ Forall (λ t, (ch "," ∉ t)
                   ∧ (∀ c, head t = Some c → isSpace c = false)
                   ∧ (∀ c, last t = Some c → isSpace c = false)) entries
    ∧ (List.find (λ h, bool_decide (name h = Some (lit "To"))) hs = None →
       entries = [[]]).
Proof.
  exists (trim <$> splitOn (ch ",") (getHeader hs "To")).
  split_and!.
  - unfold recipients. f_equal. by rewrite <- list_fmap_compose.
  - by rewrite length_fmap, splitOn_length.
  - apply Forall_fmap. eapply Forall_impl; [apply splitOn_pieces|].
    intros piece Hpiece. simpl.
    destruct (ValidationFacts.trim_split piece) as (l & r & Hs & _ & _ & Hh & Hl).
    split_and!; [|done|done].
    intros Hin. apply Hpiece. rewrite Hs.
    apply elem_of_app. right. apply elem_of_app. by left.
  - intros Hnone. unfold getHeader. by rewrite Hnone.
Qed.

(** X10. On a message that is a single [text/plain] part with body
    data, the two read handlers agree: [readEmail] gives the first 5000
    characters of the decoded body and [readEmailHtml] its first 10000,
    without HTML and without attachments. *)
Theorem plain_message_read_both_ways mid st message w' p :
  truthyStr mid = true →
  gmail_messages_get mid (lit "full") (world st) = (Resolve message, w') →
  payload message = Some p →
  parts p = None →
  mimeIs "text/plain" p = true →
  truthyOpt (bodyData p) = true →
  ∃ o oh st1 st2,
    readEmail (VStr mid) st = (Ok o, st1)
    ∧ readEmailHtml (VStr mid) st = (Ok oh, st2)
    ∧ st1 = st2
    ∧ get "body" o = Some (JStr (substring0 5000 (decoded p)))
    ∧ get "textContent" oh = Some (JStr (substring0 10000 (decoded p)))
    ∧ get "hasHtml" oh = Some (JBool false)
    ∧ get "body" o
      = Some (JStr (substring0 5000 (substring0 10000 (decoded p)))).
Proof.
  intros Hmid Hget Hp Hparts Hplain Hdata.
  destruct (readEmail_fetched mid st message w' p Hmid Hget Hp)
    as (o & st1 & Hrun1 & Hbody & _ & Hw1 & Ht1).
  destruct (readEmailHtml_fetched mid st message w' p Hmid Hget Hp)
    as (oh & st2 & Hrun2 & Htext & _ & Hhtml & Hw2 & Ht2).
  assert (Hbody' : extractBody p = decoded p).
  { unfold extractBody. by rewrite Hdata. }
  assert (He : extractContent p noContent
               = {| htmlBody := []; textBody := decoded p;
                    attachmentCount := attachmentCount (extractContent p noContent) |}).
  { destruct p as [type name0 hs b ps]. simpl in Hparts. subst ps.
    cbn [extractContent parts]. unfold visit.
    rewrite Hdata, (mimeIs_plain_not_html _ Hplain), Hplain.
    unfold decoded. by destruct (_ && _). }
  exists o, oh, st1, st2. split_and!; try done.
  - assert (Hst1 := f_equal snd Hrun1). assert (Hst2 := f_equal snd Hrun2).
    unfold readEmail, readEmailHtml in Hst1, Hst2. rewrite Hmid in Hst1, Hst2.
    cbn [negb] in Hst1, Hst2.
    unfold tryCatch, bind, messagesGet, perform in Hst1, Hst2.
    rewrite Hget, Hp in Hst1, Hst2. simpl in Hst1, Hst2. congruence.
  - by rewrite Hbody, Hbody'.
  - rewrite Htext. do 2 f_equal. unfold readableContent. rewrite He. simpl.
    by destruct (truthyStr (decoded p)).
  - rewrite Hhtml. by rewrite He.
  - rewrite Hbody, Hbody'. do 2 f_equal. unfold substring0.
    rewrite take_take. f_equal; lia.
Qed.

(** *** [htmlToText] *)

Lemma replaceFrom_elem_of r repl skip (s : jsstring) x :
  x ∈ replaceFrom r repl skip s → x ∈ repl ∨ x ∈ s.
Proof.
  revert skip. induction s as [|c s IH]; intros skip.
  - cbn [replaceFrom]. destruct skip, (exec r []); auto.
  - cbn [replaceFrom]. rewrite elem_of_cons. destruct skip as [|n].
    + destruct (exec r (c :: s)) as [rest|].
      * destruct (length (c :: s) - length rest)%nat.
        -- rewrite elem_of_app, elem_of_cons. intros [Hx|[Hx|Hx]]; [auto..|].
           apply IH in Hx as [?|?]; auto.
        -- rewrite elem_of_app. intros [Hx|Hx]; [auto|].
           apply IH in Hx as [?|?]; auto.
      * rewrite elem_of_cons. intros [Hx|Hx]; [auto|].
        apply IH in Hx as [?|?]; auto.
    + intros Hx. apply IH in Hx as [?|?]; auto.
Qed.

(** An expression that starts with a given character matches nowhere in
    a text without that character. *)
Lemma replaceAll_lead a r repl (s : jsstring) :
  ch a ∉ s → replaceAll (Cat (Chr a) r) repl s = s.
Proof.
  unfold replaceAll, Chr. induction s as [|c s IH]; [done|].
  intros [Hc Hs]%not_elem_of_cons. cbn [replaceFrom]. unfold exec.
  cbn [matchK]. destruct (N.eqb_spec (ch a) c) as [Heq|_]; [by subst c|].
  by rewrite IH.
Qed.

(** Where a tag can start. *)
Lemma exec_tagRegex_None c (s : jsstring) :
  exec tagRegex (c :: s) = None → c = ch "<" → ch ">" ∉ s.
Proof.
  intros Hnone -> Hin.
  apply list_elem_of_split_l in Hin as (inner & rest & -> & Hinner).
  destruct (exec_complete tagRegex (ch "<" :: inner ++ [ch ">"]) rest) as [o Ho].
  - apply tagRegex_language. exists inner. split; [done|].
    apply Forall_forall. intros x Hx ->. done.
  - replace ((ch "<" :: inner ++ [ch ">"]) ++ rest)
      with (ch "<" :: inner ++ ch ">" :: rest) in Ho
      by (by rewrite <- app_comm_cons, <- app_assoc).
    congruence.
Qed.

Lemma exec_tagRegex_Some (s rest : jsstring) :
  exec tagRegex s = Some rest → ∃ n, (length s - length rest)%nat = S n.
Proof.
  intros (m & -> & (inner & -> & _)%tagRegex_language)%exec_matches.
  exists (length inner + 1)%nat. rewrite length_app, length_cons, length_app.
  simpl. lia.
Qed.

(** A text holds no tag when no [<] in it is followed, however far, by
    a [>]. *)
Definition tagFree (s : jsstring) : Prop :=
  ∀ a b, s = a ++ ch "<" :: b → ch ">" ∉ b.

Lemma tagFree_cons c (s : jsstring) :
  (c = ch "<" → ch ">" ∉ s) → tagFree s → tagFree (c :: s).
Proof.
  intros Hc Hs [|c' a] b; simpl; intros [= -> ->]; [by apply Hc|by eapply Hs].
Qed.

Lemma tagFree_replaceFrom skip (s : jsstring) :
  tagFree (replaceFrom tagRegex [] skip s).
Proof.
  revert skip. induction s as [|c s IH]; intros skip.
  - cbn [replaceFrom]. destruct skip; [|by intros [|??] ?].
    change (exec tagRegex []) with (@None jsstring). by intros [|??] ?.
  - cbn [replaceFrom]. destruct skip as [|n]; [|apply IH].
    destruct (exec tagRegex (c :: s)) as [rest|] eqn:Hexec.
    + apply exec_tagRegex_Some in Hexec as [n ->]. apply IH.
    + apply tagFree_cons; [|apply IH].
      intros Hc Hin. apply replaceFrom_elem_of in Hin as [?%elem_of_nil|Hin]; [done|].
      by apply (exec_tagRegex_None c s).
Qed.

(** X11. A text without [<] and without [&] goes through [htmlToText]
    unchanged but for the whitespace trimmed at its two ends. *)
Theorem htmlToText_keeps_plain_text (html : jsstring) :
  ch "<" ∉ html → ch "&" ∉ html → htmlToText html = trim html.
Proof.
  intros Hlt Hamp. unfold htmlToText.
  unfold brRegex, pCloseRegex, tagRegex.
  do 3 rewrite (replaceAll_lead "<" _ _ html) by done.
  change (Lit "&nbsp;") with (Cat (Chr "&") (Lit "nbsp;")).
  change (Lit "&amp;") with (Cat (Chr "&") (Lit "amp;")).
  change (Lit "&lt;") with (Cat (Chr "&") (Lit "lt;")).
  change (Lit "&gt;") with (Cat (Chr "&") (Lit "gt;")).
  change (Lit "&quot;") with (Cat (Chr "&") (Lit "quot;")).
  by do 5 rewrite (replaceAll_lead "&" _ _ html) by done.
Qed.

(** X12. When the HTML holds no [&], the text that [htmlToText] gives
    holds no tag: no [<] in it is followed, however far, by a [>]. *)
Theorem htmlToText_strips_every_tag (html : jsstring) :
  ch "&" ∉ html → tagFree (htmlToText html).
Proof.
  intros Hamp. unfold htmlToText.
  set (s1 := replaceAll brRegex [10%N] html).
  set (s2 := replaceAll pCloseRegex [10%N; 10%N] s1).
  set (s3 := replaceAll tagRegex [] s2).
  assert (H1 : ch "&" ∉ s1).
  { intros [Hin|Hin]%replaceFrom_elem_of; [|done].
    by apply list_elem_of_singleton in Hin. }
  assert (H2 : ch "&" ∉ s2).
  { intros [Hin|Hin]%replaceFrom_elem_of; [|done].
    apply elem_of_cons in Hin as [?|Hin]; [done|].
    by apply list_elem_of_singleton in Hin. }
  assert (H3 : ch "&" ∉ s3).
  { intros [Hin|Hin]%replaceFrom_elem_of; [|done]. by apply elem_of_nil in Hin. }
  change (Lit "&nbsp;") with (Cat (Chr "&") (Lit "nbsp;")).
  change (Lit "&amp;") with (Cat (Chr "&") (Lit "amp;")).
  change (Lit "&lt;") with (Cat (Chr "&") (Lit "lt;")).
  change (Lit "&gt;") with (Cat (Chr "&") (Lit "gt;")).
  change (Lit "&quot;") with (Cat (Chr "&") (Lit "quot;")).
  do 5 rewrite (replaceAll_lead "&" _ _ s3) by done.
  destruct (ValidationFacts.trim_split s3) as (l & r & Hs & _).
  intros a b Hab Hin.
  apply (tagFree_replaceFrom 0 s2 (l ++ a) (b ++ r)).
  - fold (replaceAll tagRegex [] s2). fold s3.
    rewrite Hs at 1. rewrite Hab. by rewrite <- !app_assoc.
  - apply elem_of_app. by left.
Qed.

(** *** [emptySpam] on any listing *)




(** X14. When the listing is rejected, a confirmed [emptySpam] deletes
    nothing and pauses nowhere: it hands the failure to [auditLog] at
    level [ERROR] and throws ["Failed to empty spam folder: "] followed
    by the cause. *)
Theorem emptySpam_listing_rejected confirm st (e : JsError) :
  truthy confirm = true →
  (gmail_messages_list (lit "in:spam") 500
     (world (auditLog "WARN"
               (lit "Starting spam folder cleanup - USER INITIATED") st).2)).1
    = Reject e →
  ∃ st' evs,
    emptySpam confirm st
      = (Throw (Error (lit "Failed to empty spam folder: " ++ errorText e)), st')
    ∧ trace st' = trace st ++ evs
    ∧ omap deletedId evs = [] ∧ omap pauseOf evs = []
    ∧ List.filter isMailApi evs = [EvMessagesList (lit "in:spam") 500]
    ∧ omap auditCall evs
      = [(lit "WARN", lit "Starting spam folder cleanup - USER INITIATED");
         (lit "ERROR", lit "Failed to empty spam folder: " ++ errorText e)].
Proof.
  intros Hc Hlist. unfold emptySpam. rewrite Hc. cbn [negb].
  destruct (auditLog_steps "WARN"
    (lit "Starting spam folder cleanup - USER INITIATED") st)
    as (evsA & st1 & Hs1 & HioA).
  assert (Hst1 : (auditLog "WARN"
    (lit "Starting spam folder cleanup - USER INITIATED") st).2 = st1).
  { destruct Hs1 as (-> & _). done. }
  rewrite Hst1 in Hlist.
  destruct (gmail_messages_list (lit "in:spam") 500 (world st1))
    as [reply w2] eqn:Hl. simpl in Hlist. subst reply.
  pose proof (perform_Throw _ (λ _, EvMessagesList (lit "in:spam") 500) st1 _ _ Hl)
    as Hs2.
  set (st2 := {| world := w2 |}) in Hs2.
  destruct (auditLog_steps "ERROR"
    (lit "Failed to empty spam folder: " ++ errorText e) st2)
    as (evsB & st3 & Hs3 & HioB).
  match goal with
  | |- context [tryCatch ?m ?h st] =>
      eassert (Hrun : steps (tryCatch m h) st _ _ st3)
  end.
  { eapply steps_try_throw.
    - eapply steps_bind; [exact Hs1|]. apply steps_bind_throw. exact Hs2.
    - eapply steps_bind; [exact Hs3|apply steps_throw]. }
  destruct Hrun as (Hrun & Htr & _).
  eexists st3, _. split; [exact Hrun|]. split; [exact Htr|].
  repeat rewrite ?omap_app, ?omap_cons_eq, ?omap_nil_eq, ?List.filter_app,
    ?filter_cons_eq, ?filter_nil_eq.
  rewrite (logIO_omap deletedId evsA), (logIO_omap deletedId evsB),
    (logIO_omap pauseOf evsA), (logIO_omap pauseOf evsB),
    (logIO_omap auditCall evsA), (logIO_omap auditCall evsB),
    (logIO_filter evsA), (logIO_filter evsB) by (done || by intros []).
  by split_and!.
Qed.

(** *** [listAttachments] *)

(** The fallback name [attachment_<index>] is never used: an entry is
    pushed only for a part with a file name. *)
Lemma attachmentInfo_index (part : MessagePart) (i j : nat) :
  countedAttachment part = true → attachmentInfo part i = attachmentInfo part j.
Proof.
  unfold countedAttachment, attachmentInfo.
  by intros [-> _]%andb_true_iff.
Qed.

Lemma extractFrom_preorder (p : MessagePart) : ∀ i acc,
  extractFrom p i acc
  = acc ++ ((λ n, attachmentInfo n 0) <$> List.filter countedAttachment (preorder p)).
Proof.
  induction p as [type name hs b|type name hs b ps IH]
    using MessagePart_forest_ind; intros i acc.
  - cbn [extractFrom preorder parts List.filter]. unfold countedAttachment.
    destruct (_ && _) eqn:Hc; [|by rewrite app_nil_r].
    cbn [fmap list_fmap]. by rewrite (attachmentInfo_index _ i 0%nat Hc).
  - cbn [extractFrom preorder parts List.filter].
    set (p := mkPart type name hs b (Some ps)).
    fold (countedAttachment p).
    assert (Hhead : ∀ rest : list MessagePart,
      (if countedAttachment p then acc ++ [attachmentInfo p i] else acc)
        ++ ((λ n, attachmentInfo n 0) <$> List.filter countedAttachment rest)
      = acc ++ ((λ n, attachmentInfo n 0)
                  <$> (if countedAttachment p
                       then p :: List.filter countedAttachment rest
                       else List.filter countedAttachment rest))).
    { intros rest. destruct (countedAttachment p) eqn:Hc; [|done].
      cbn [fmap list_fmap]. rewrite <- app_assoc. cbn [app].
      by rewrite (attachmentInfo_index p i 0%nat Hc). }
    rewrite <- Hhead.
    generalize (if countedAttachment p then acc ++ [attachmentInfo p i] else acc).
    generalize 0%nat at 1. clear Hhead.
    induction IH as [|q qs Hq _ IHqs]; intros k acc'; [by rewrite app_nil_r|].
    rewrite IHqs, Hq, List.filter_app, fmap_app. by rewrite app_assoc.
Qed.

Lemma forEach_each (ps : list MessagePart) : ∀ k acc,
  (fix forEach (ps : list MessagePart) (index : nat) (acc : list json)
     : list json :=
     match ps with
     | [] => acc
     | p :: rest => forEach rest (S index) (extractFrom p index acc)
     end) ps k acc
  = acc ++ ((λ n, attachmentInfo n 0)
              <$> List.filter countedAttachment
                    ((fix each (ps : list MessagePart) : list MessagePart :=
                        match ps with
                        | [] => []
                        | p :: ps' => preorder p ++ each ps'
                        end) ps)).
Proof.
  induction ps as [|q qs IH]; intros k acc; [by rewrite app_nil_r|].
  rewrite IH, extractFrom_preorder, List.filter_app, fmap_app.
  by rewrite app_assoc.
Qed.

Lemma attachmentsOf_nodes (p : MessagePart) :
  attachmentsOf (Some p)
  = (λ n, attachmentInfo n 0)
      <$> List.filter countedAttachment
            (match parts p with Some _ => below p | None => [p] end).
Proof.
  unfold attachmentsOf, below. destruct p as [type name hs b [ps|]];
    cbn [parts preorder].
  - apply (forEach_each ps 0%nat []).
  - cbn [List.filter]. unfold countedAttachment, attachmentInfo.
    cbn [filename bodyAttachmentId body mimeType].
    destruct (truthyOpt name) eqn:Hname; [|done]. cbn [andb].
    destruct (truthyOpt (bodyAttachmentId _)); [|done].
    cbn [fmap list_fmap filename mimeType body]. by rewrite Hname.
Qed.

(** X15. [listAttachments] reports the parts that carry both a
    non-empty file name and an attachment identifier, in the order of a
    preorder walk: those below the payload when the payload has parts
    (the payload itself is then left out), the payload alone when it
    has none. Each entry is named by the part's own file name: the
    fallback [attachment_<index>] is never reported. *)
Theorem listAttachments_reports_named_parts mid st message w' p :
  truthyStr mid = true →
  gmail_messages_get mid (lit "full") (world st) = (Resolve message, w') →
  payload message = Some p →
  ∃ o st' reported,
    listAttachments (VStr mid) st = (Ok o, st')
    ∧ reported = List.filter countedAttachment
                   (match parts p with Some _ => below p | None => [p] end)
    ∧ get "attachments" o = Some (JArr ((λ n, attachmentInfo n 0) <$> reported))
    ∧ get "attachmentCount" o = Some (JNum (Z.of_nat (length reported)))
    ∧ Forall (λ n, ∀ i, get "filename" (attachmentInfo n i)
                        = Some (JStr (orEmpty (filename n)))
                        ∧ get "id" (attachmentInfo n i)
                          = Some (JStr (orEmpty (bodyAttachmentId n)))) reported.
Proof.
  intros Hmid Hget Hp. unfold listAttachments. rewrite Hmid. cbn [negb].
  pose proof (perform_Ok _ (λ _, EvMessagesGet mid (lit "full")) st _ _ Hget) as Hs1.
  set (st1 := {| world := w' |}) in Hs1.
  destruct (auditLog_steps "INFO"
    (lit "Listed " ++ natText (length (attachmentsOf (payload message)))
     ++ lit " attachments for message " ++ mid) st1) as (evsA & st2 & Hs2 & _).
  match goal with
  | |- context [tryCatch ?m ?h st] =>
      eassert (Hrun : steps (tryCatch m h) st _ _ st2)
  end.
  { apply steps_try_ok. eapply steps_bind; [exact Hs1|]. cbv beta zeta.
    eapply steps_bind; [exact Hs2|apply steps_ret]. }
  destruct Hrun as (Hrun & _).
  eexists _, st2, _. split; [exact Hrun|]. split; [reflexivity|].
  rewrite Hp, attachmentsOf_nodes, length_fmap. split_and!; [done|done|].
  apply Forall_forall. intros n Hn i.
  apply list_elem_of_In, filter_In in Hn as [_ Hn].
  unfold countedAttachment in Hn. apply andb_true_iff in Hn as [Hname _].
  unfold attachmentInfo. by rewrite Hname.
Qed.

(** X16. The attachment counts of [readEmailHtml] and of
    [listAttachments] for one message differ by at most one:
    [readEmailHtml] also counts the payload itself when it has parts
    and is an attachment, which [listAttachments] leaves out. *)
Theorem attachment_counts_compared (p : MessagePart) :
  attachmentCount (extractContent p noContent)
  = (length (attachmentsOf (Some p))
     + if countedAttachment p && bool_decide (is_Some (parts p)) then 1 else 0)%nat.
Proof.
  rewrite extractContent_preorder, foldl_visit_attachmentCount.
  rewrite attachmentsOf_nodes, length_fmap. unfold below.
  destruct p as [type name hs b [ps|]]; cbn [parts preorder List.filter].
  - rewrite bool_decide_eq_true_2 by done. rewrite andb_true_r.
    destruct (countedAttachment _); simpl; lia.
  - rewrite bool_decide_eq_false_2 by (by intros [? [=]]). rewrite andb_false_r.
    simpl. lia.
Qed.

(** *** [downloadAttachment]: what is written, and where *)

Lemma replaceAll_cls_elem_of p repl (s : jsstring) c :
  c ∈ replaceAll (Cls p) repl s → c ∈ repl ∨ p c = false.
Proof.
  unfold replaceAll. induction s as [|x s IH]; [by intros ?%elem_of_nil|].
  cbn [replaceFrom]. unfold exec. cbn [matchK]. destruct (p x) eqn:Hp.
  - replace (length (x :: s) - length s)%nat with 1%nat by (simpl; lia).
    rewrite elem_of_app. intros [?|?]; auto.
  - rewrite elem_of_cons. intros [->|?]; auto.
Qed.

(** X17. [downloadAttachment] writes at most one file, and the path it
    hands to [fs.writeFile] is [path.join] of the directory [downloads]
    of the configuration directory and a name. A file name given by the
    caller is that name as it is: it does not pass through
    [sanitizeInput] and nothing is tested about it, so where the file
    lands is what [path.join] makes of it. Without one the name is
    ["attachment_"] followed by a time stamp that holds no [:] and no
    [.]. A call without [messageId] or [attachmentId] does nothing; any
    other failure is logged at level [ERROR] and thrown with the
    cause. *)
Theorem downloadAttachment_joins_the_name_given
    (args : DownloadAttachmentRequest.t) (st : State) :
  ∃ r evs st',
    downloadAttachment args st = (r, st') ∧ trace st' = trace st ++ evs
    ∧ (omap fileWrite evs = []
       ∨ ∃ name bytes reply,
           omap fileWrite evs
           = [(pathJoin (pathJoin CONFIG_DIR (lit "downloads")) name, bytes, reply)]
           ∧ (truthyOpt (DownloadAttachmentRequest.filename args) = true →
              name = orEmpty (DownloadAttachmentRequest.filename args))
           ∧ (truthyOpt (DownloadAttachmentRequest.filename args) = false →
              ∃ stamp, name = lit "attachment_" ++ stamp
                       ∧ (ch ":" ∉ stamp) ∧ (ch "." ∉ stamp)))
    ∧ match r with
      | Ok _ =>
          truthyOpt (DownloadAttachmentRequest.messageId args) = true
          ∧ truthyOpt (DownloadAttachmentRequest.attachmentId args) = true
      | Throw e =>
          (e = Error (lit "messageId and attachmentId are required")
           ∧ evs = []
           ∧ (truthyOpt (DownloadAttachmentRequest.messageId args) = false
              ∨ truthyOpt (DownloadAttachmentRequest.attachmentId args) = false))
          ∨ ∃ cause,
              e = Error (lit "Failed to download attachment: " ++ errorText cause)
              ∧ omap errorAudit evs
                = [lit "Failed to download attachment: " ++ errorText cause]
      | OutOfFuel => False
      end.
Proof.
  unfold downloadAttachment.
  destruct (truthyOpt (DownloadAttachmentRequest.messageId args)) eqn:Hm.
  2: { eexists _, [], st. cbn [negb orb].
       split_and!; [done|by rewrite app_nil_r|by left|]. left. auto. }
  destruct (truthyOpt (DownloadAttachmentRequest.attachmentId args)) eqn:Ha.
  2: { eexists _, [], st. cbn [negb orb].
       split_and!; [done|by rewrite app_nil_r|by left|]. left. auto. }
  cbn [negb orb].
  set (messageId := orEmpty (DownloadAttachmentRequest.messageId args)).
  set (attachmentId := orEmpty (DownloadAttachmentRequest.attachmentId args)).
  match goal with
  | |- context [tryCatch ?m ?h st] => set (body := m); set (handler := h)
  end.
  assert (Hthrow : ∀ e evs st1,
    steps body st (Throw e) evs st1 →
    omap errorAudit evs = [] →
    ∃ evsA st',
      tryCatch body handler st
      = (Throw (Error (lit "Failed to download attachment: " ++ errorText e)), st')
      ∧ trace st' = trace st
                    ++ evs ++ (EvAudit (lit "ERROR")
                                 (lit "Failed to download attachment: "
                                  ++ errorText e) :: evsA) ++ []
      ∧ forallb isLogIO evsA = true
      ∧ omap errorAudit
          (evs ++ (EvAudit (lit "ERROR")
                     (lit "Failed to download attachment: " ++ errorText e)
                   :: evsA) ++ [])
        = [lit "Failed to download attachment: " ++ errorText e]).
  { intros e evs st1 Hb Hnone.
    destruct (auditLog_steps "ERROR"
      (lit "Failed to download attachment: " ++ errorText e) st1)
      as (evsA & st' & HA & Hio).
    exists evsA, st'.
    assert (Hrun : steps (tryCatch body handler) st
      (Throw (Error (lit "Failed to download attachment: " ++ errorText e)))
      (evs ++ (EvAudit (lit "ERROR")
                 (lit "Failed to download attachment: " ++ errorText e)
               :: evsA) ++ []) st').
    { eapply steps_try_throw; [exact Hb|].
      eapply steps_bind; [exact HA|apply steps_throw]. }
    destruct Hrun as (Hrun & Htr & _). split_and!; [done|done|done|].
    rewrite !omap_app, Hnone, omap_cons_eq, omap_nil_eq.
    rewrite (logIO_omap errorAudit evsA) by (done || by intros []).
    done. }
  destruct (gmail_attachments_get messageId attachmentId (world st))
    as [[content|e] w1] eqn:Hget.
  2: { destruct (Hthrow e [EvAttachmentsGet messageId attachmentId (Reject e)]
                   {| world := w1; requests := requests st;
                      trace := trace st
                               ++ [EvAttachmentsGet messageId attachmentId (Reject e)] |})
         as (evsA & st' & Hrun & Htr & Hio & Haud); [|done|].
       - apply steps_bind_throw.
         by apply (perform_Throw _ (EvAttachmentsGet messageId attachmentId)).
       - eexists _, _, st'. split; [exact Hrun|]. split; [exact Htr|].
         split; [|right; by exists e]. left.
         rewrite !omap_app, !omap_cons_eq, !omap_nil_eq.
         by rewrite (logIO_omap fileWrite evsA) by (done || by intros []). }
  pose proof (perform_Ok _ (EvAttachmentsGet messageId attachmentId) st _ _ Hget)
    as Hs1.
  set (st1 := {| world := w1 |}) in Hs1.
  destruct (truthyOpt content) eqn:Hcontent.
  2: { destruct (Hthrow (Error (lit "No attachment data received"))
                   ([EvAttachmentsGet messageId attachmentId (Resolve content)] ++ [])
                   st1)
         as (evsA & st' & Hrun & Htr & Hio & Haud); [|done|].
       - eapply steps_bind; [exact Hs1|]. rewrite Hcontent. apply steps_throw.
       - eexists _, _, st'. split; [exact Hrun|]. split; [exact Htr|].
         split; [|right; by eexists]. left.
         rewrite !omap_app, !omap_cons_eq, !omap_nil_eq.
         by rewrite (logIO_omap fileWrite evsA) by (done || by intros []). }
  destruct content as [content|]; [|done].
  set (downloadsDir := pathJoin CONFIG_DIR (lit "downloads")).
  destruct (fs_mkdir downloadsDir (world st1)) as [[[]|e] w2] eqn:Hmk.
  2: { destruct (Hthrow e
                   ([EvAttachmentsGet messageId attachmentId (Resolve (Some content))]
                    ++ [EvMkdir downloadsDir])
                   {| world := w2; requests := requests st1;
                      trace := trace st1 ++ [EvMkdir downloadsDir] |})
         as (evsA & st' & Hrun & Htr & Hio & Haud); [|done|].
       - eapply steps_bind; [exact Hs1|]. rewrite Hcontent.
         apply steps_bind_throw.
         by apply (perform_Throw _ (λ _, EvMkdir downloadsDir)).
       - eexists _, _, st'. split; [exact Hrun|]. split; [exact Htr|].
         split; [|right; by exists e]. left.
         rewrite !omap_app, !omap_cons_eq, !omap_nil_eq.
         by rewrite (logIO_omap fileWrite evsA) by (done || by intros []). }
  pose proof (perform_Ok _ (λ _, EvMkdir downloadsDir) st1 _ _ Hmk) as Hs2.
  set (st2 := {| world := w2 |}) in Hs2.
  destruct (dateISO_steps st2) as (now & st3 & Hs3).
  set (stamp := replaceAll (Cls (λ c, N.eqb c (ch ":") || N.eqb c (ch ".")))
                  (lit "-") now).
  set (finalFilename :=
    if truthyOpt (DownloadAttachmentRequest.filename args)
    then orEmpty (DownloadAttachmentRequest.filename args)
    else lit "attachment_" ++ stamp).
  set (filePath := pathJoin downloadsDir finalFilename).
  set (buffer := bufferFromBase64url content).
  assert (Hname : (truthyOpt (DownloadAttachmentRequest.filename args) = true →
                   finalFilename = orEmpty (DownloadAttachmentRequest.filename args))
                  ∧ (truthyOpt (DownloadAttachmentRequest.filename args) = false →
                     ∃ stamp, finalFilename = lit "attachment_" ++ stamp
                              ∧ (ch ":" ∉ stamp) ∧ (ch "." ∉ stamp))).
  { unfold finalFilename. split; intros ->; [done|]. exists stamp.
    split; [done|].
    split; intros [Hin|Hin]%replaceAll_cls_elem_of;
      solve [by apply list_elem_of_singleton in Hin | done]. }
  destruct (fs_writeFile filePath buffer (world st3)) as [[[]|e] w4] eqn:Hwr.
  2: { destruct (Hthrow e
                   ([EvAttachmentsGet messageId attachmentId (Resolve (Some content))]
                    ++ [EvMkdir downloadsDir] ++ [EvDate]
                    ++ [EvWriteFile filePath buffer (Reject e)])
                   {| world := w4; requests := requests st3;
                      trace := trace st3 ++ [EvWriteFile filePath buffer (Reject e)] |})
         as (evsA & st' & Hrun & Htr & Hio & Haud); [|done|].
       - eapply steps_bind; [exact Hs1|]. rewrite Hcontent.
         eapply steps_bind; [exact Hs2|]. eapply steps_bind; [exact Hs3|].
         apply steps_bind_throw.
         by apply (perform_Throw _ (EvWriteFile filePath buffer)).
       - eexists _, _, st'. split; [exact Hrun|]. split; [exact Htr|].
         split; [|right; by exists e]. right.
         exists finalFilename, buffer, (Reject e). split; [|exact Hname].
         rewrite !omap_app, !omap_cons_eq, !omap_nil_eq.
         by rewrite (logIO_omap fileWrite evsA) by (done || by intros []). }
  pose proof (perform_Ok _ (EvWriteFile filePath buffer) st3 _ _ Hwr) as Hs4.
  set (st4 := {| world := w4 |}) in Hs4.
  destruct (auditLog_steps "INFO"
    (lit "Downloaded attachment " ++ attachmentId ++ lit " as "
     ++ finalFilename ++ lit " (" ++ natText (length buffer) ++ lit " bytes)") st4)
    as (evsA & st5 & Hs5 & Hio).
  destruct (dateISO_steps st5) as (downloadedAt & st6 & Hs6).
  eassert (Hrun : steps (tryCatch body handler) st (Ok _) _ st6).
  { apply steps_try_ok. eapply steps_bind; [exact Hs1|].
    rewrite Hcontent. eapply steps_bind; [exact Hs2|].
    eapply steps_bind; [exact Hs3|]. eapply steps_bind; [exact Hs4|].
    eapply steps_bind; [exact Hs5|]. eapply steps_bind; [exact Hs6|].
    apply steps_ret. }
  destruct Hrun as (Hrun & Htr & _).
  eexists _, _, st6. split; [exact Hrun|]. split; [exact Htr|].
  split; [|done]. right.
  exists finalFilename, buffer, (Resolve ()). split; [|exact Hname].
  rewrite !omap_app, !omap_cons_eq, !omap_nil_eq.
  by rewrite (logIO_omap fileWrite evsA) by (done || by intros []).
Qed.

End WithWorld.
End ServerMore.


(** ** The server object *)

Module DispatchFacts.
Import Regex Validation Server RegexFacts ServerFacts ObserveMore Attachments
  Dispatch ServerMore.

Section WithServices.
Context {RT : NodeRuntime} {ENV : Environment} {SVC : Services}.

(** [runs m p r did p']: from [p] the computation [m] ends with [r] in
    [p'], having appended [did] to the log, and having left the
    rate-limit table and the fields [auth] and [gmail] alone. *)
Definition runs {A} (m : P A) (p : Process) (r : Outcome A)
    (did : list Step) (p' : Process) : Prop :=
  m p = (r, p') ∧ log p' = log p ++ did ∧ limits p' = limits p
  ∧ auth p' = auth p ∧ gmail p' = gmail p.

(** What a handler of [Server] sees of the server object. *)
Definition viewOf (p : Process) : State :=
  {| world := outside p; requests := limits p; trace := [] |}.

Lemma runs_ret {A} (a : A) p : runs (retP a) p (Ok a) [] p.
Proof. split_and!; [done|by rewrite app_nil_r|done..]. Qed.

Lemma runs_throw {A} e p : runs (throwP (A:=A) e) p (Throw e) [] p.
Proof. split_and!; [done|by rewrite app_nil_r|done..]. Qed.

Lemma runs_bind {A B} (m : P A) (k : A → P B) p a did1 p1 r did2 p2 :
  runs m p (Ok a) did1 p1 → runs (k a) p1 r did2 p2 →
  runs (bindP m k) p r (did1 ++ did2) p2.
Proof.
  intros (Hm & Hl1 & ? & ? & ?) (Hk & Hl2 & ? & ? & ?). unfold runs, bindP.
  rewrite Hm. split_and!; [done| |congruence..].
  by rewrite Hl2, Hl1, app_assoc.
Qed.

Lemma runs_bind_throw {A B} (m : P A) (k : A → P B) p e did p1 :
  runs m p (Throw e) did p1 → runs (bindP m k) p (Throw e) did p1.
Proof. intros (Hm & ?). unfold runs, bindP. by rewrite Hm. Qed.

Lemma runs_try_ok {A} (m : P A) h p a did p1 :
  runs m p (Ok a) did p1 → runs (tryCatchP m h) p (Ok a) did p1.
Proof. intros (Hm & ?). unfold runs, tryCatchP. by rewrite Hm. Qed.

Lemma runs_try_throw {A} (m : P A) h p e did1 p1 r did2 p2 :
  runs m p (Throw e) did1 p1 → runs (h e) p1 r did2 p2 →
  runs (tryCatchP m h) p r (did1 ++ did2) p2.
Proof.
  intros (Hm & Hl1 & ? & ? & ?) (Hk & Hl2 & ? & ? & ?). unfold runs, tryCatchP.
  rewrite Hm. split_and!; [done| |congruence..].
  by rewrite Hl2, Hl1, app_assoc.
Qed.

Lemma runs_performP {A} (op : World → Reply A * World) ev p :
  ∃ p', runs (performP op ev) p
          (match (op (outside p)).1 with
           | Resolve a => Ok a
           | Reject e => Throw e
           end) [ev] p'
    ∧ outside p' = (op (outside p)).2.
Proof.
  unfold runs, performP. destruct (op (outside p)) as [[a|e] w]; simpl;
    eexists; split_and!; reflexivity.
Qed.

(** A handler of [Server] that keeps to its trace and leaves the table
    alone does so when the server object runs it. *)
Lemma runs_liftM {A} (m : M A) p r evs st' :
  steps m (viewOf p) r evs st' →
  ∃ p', runs (liftM m) p r (Core <$> evs) p' ∧ outside p' = world st'.
Proof.
  intros (Hm & Ht & Hr). unfold runs, liftM. fold (viewOf p). rewrite Hm.
  eexists. split_and!; try reflexivity.
  - simpl. by rewrite Ht.
  - simpl. by rewrite Hr.
Qed.

Lemma runs_auditLog level message p :
  ∃ evs p',
    runs (liftM (auditLog level message)) p (Ok ())
      (Core (EvAudit (lit level) message) :: (Core <$> evs)) p'
    ∧ forallb isLogIO evs = true.
Proof.
  destruct (auditLog_steps level message (viewOf p)) as (evs & st' & Hs & Hio).
  destruct (runs_liftM _ p _ _ _ Hs) as (p' & Hruns & _).
  by exists evs, p'.
Qed.

(** The steps inside [auditLog] are none of the observed kinds. *)
Lemma logIO_steps {B} (f : Step → option B) (evs : list Event) :
  (∀ e, isLogIO e = true → f (Core e) = None) →
  forallb isLogIO evs = true → omap f (Core <$> evs) = [].
Proof.
  intros Hf. induction evs as [|e evs IH]; [done|]. cbn [forallb].
  intros [He Hevs]%andb_true_iff.
  rewrite fmap_cons, omap_cons_eq, (Hf e He). by apply IH.
Qed.

Lemma logIO_no_api (evs : list Event) :
  forallb isLogIO evs = true → List.filter isApiStep (Core <$> evs) = [].
Proof.
  induction evs as [|e evs IH]; [done|]. cbn [forallb].
  intros [He Hevs]%andb_true_iff.
  rewrite fmap_cons, filter_cons_eq, (IH Hevs).
  by destruct e.
Qed.

(** Reading an observation off a log whose parts are known. *)
Ltac observe evs :=
  repeat rewrite ?omap_app, ?omap_cons_eq, ?omap_nil_eq, ?fmap_cons, ?fmap_nil,
    ?List.filter_app, ?filter_cons_eq, ?filter_nil_eq;
  rewrite ?(logIO_steps _ evs), ?(logIO_no_api evs) by (done || by intros []).

(** *** [searchEmails] *)

(** The request for the metadata of one message of a search. *)
Definition summaryRequest (mid : jsstring) : Step :=
  EvMessagesGetMetadata mid [lit "From"; lit "To"; lit "Subject"; lit "Date"].

Lemma attemptedIds_cons (message : Message) (rest : list Message) :
  attemptedIds (message :: rest)
  = if truthyOpt (id message) then orEmpty (id message) :: attemptedIds rest
    else attemptedIds rest.
Proof.
  unfold attemptedIds. rewrite omap_cons_eq. by destruct (truthyOpt _).
Qed.

(** The loop of [searchEmails]: one request per message with an
    identifier, in order, until one is rejected. *)
Lemma fetchDetails_runs (messages : list Message) : ∀ acc p,
  ∃ r ids p',
    runs (fetchDetails messages acc) p r (summaryRequest <$> ids) p'
    ∧ ids `prefix_of` attemptedIds messages
    ∧ match r with
      | Ok out =>
          ids = attemptedIds messages
          ∧ ∃ entries, out = acc ++ entries
              ∧ get "id" <$> entries = (λ mid, Some (JStr mid)) <$> ids
      | Throw _ => (length ids ≤ length (attemptedIds messages))%nat
      | OutOfFuel => False
      end.
Proof.
  induction messages as [|message rest IH]; intros acc p.
  { exists (Ok acc), [], p. split; [apply runs_ret|]. split; [done|].
    split; [done|]. exists []. by rewrite app_nil_r. }
  cbn [fetchDetails]. rewrite attemptedIds_cons.
  destruct (truthyOpt (id message)) eqn:Hid; [|apply IH].
  set (mid := orEmpty (id message)).
  destruct (runs_performP
    (gmail_messages_get_metadata mid [lit "From"; lit "To"; lit "Subject"; lit "Date"])
    (summaryRequest mid) p) as (p1 & Hs1 & _).
  destruct (gmail_messages_get_metadata mid _ (outside p)).1 as [detail|e].
  - destruct (IH (acc ++ [summary mid detail]) p1) as (r & ids & p2 & Hs2 & Hpre & Hr).
    exists r, (mid :: ids), p2. split_and!.
    + eapply (runs_bind _ _ _ _ [_]); [exact Hs1|exact Hs2].
    + by apply prefix_cons.
    + destruct r as [out|e|]; [|simpl; lia|done].
      destruct Hr as (-> & entries & -> & Hentries). split; [done|].
      exists (summary mid detail :: entries). split; [by rewrite <- app_assoc|].
      by rewrite !fmap_cons, Hentries.
  - exists (Throw e), [mid], p1. split_and!.
    + by apply runs_bind_throw.
    + apply prefix_cons, prefix_nil.
    + simpl. lia.
Qed.

Lemma omap_fmap_None {X Y Z} (f : Y → option Z) (g : X → Y) (l : list X) :
  (∀ x, f (g x) = None) → omap f (g <$> l) = [].
Proof.
  intros Hf. induction l as [|x l IH]; [done|].
  by rewrite fmap_cons, omap_cons_eq, Hf, IH.
Qed.

(** How a search with a usable query ends, by the answer to the
    listing. *)
Lemma searchEmails_outcome (args : SearchEmailsArgs.t) (p : Process) q :
  SearchEmailsArgs.query args = VStr q → truthyStr q = true →
  ∃ r ids p',
    runs (searchEmails args) p r
      (Core (EvMessagesList (sanitizeInput q)
               (Z.min (default 10 (SearchEmailsArgs.maxResults args)) 50))
       :: (summaryRequest <$> ids)) p'
    ∧ match (gmail_messages_list (sanitizeInput q)
               (Z.min (default 10 (SearchEmailsArgs.maxResults args)) 50)
               (outside p)).1 with
      | Reject e =>
          ids = []
          ∧ r = Throw (Error (lit "Failed to search emails: " ++ errorText e))
      | Resolve listed =>
          ids `prefix_of` attemptedIds (default [] listed)
          ∧ ((∃ entries,
                r = Ok (JObj [kv "query" (JStr (sanitizeInput q));
                              kv "resultCount" (JNum (Z.of_nat (length entries)));
                              kv "messages" (JArr entries)])
                ∧ ids = attemptedIds (default [] listed)
                ∧ get "id" <$> entries = (λ mid, Some (JStr mid)) <$> ids)
             ∨ ∃ e, r = Throw (Error (lit "Failed to search emails: "
                                      ++ errorText e)))
      end.
Proof.
  intros Hq Htruthy. unfold searchEmails. rewrite Hq, Htruthy. cbn [negb].
  set (bound := Z.min (default 10 (SearchEmailsArgs.maxResults args)) 50).
  set (sq := sanitizeInput q).
  destruct (gmail_messages_list sq bound (outside p)) as [[listed|e] w] eqn:Hl;
    cbn [fst].
  - pose proof (perform_Ok _ (λ _, EvMessagesList sq bound) (viewOf p) _ _ Hl) as Hs0.
    destruct (runs_liftM (messagesList sq bound) p _ _ _ Hs0) as (p1 & Hs1 & _).
    destruct (fetchDetails_runs (default [] listed) [] p1)
      as (r2 & ids & p2 & Hs2 & Hpre & Hr).
    destruct r2 as [out|e|]; [| |done].
    + destruct Hr as (-> & entries & Hout & Hentries). simpl in Hout. subst out.
      eexists _, _, p2. split.
      * apply runs_try_ok.
        eapply (runs_bind _ _ _ _ [_]); [exact Hs1|].
        rewrite <- (app_nil_r (summaryRequest <$> _)).
        eapply runs_bind; [exact Hs2|apply runs_ret].
      * split; [done|]. left. by exists entries.
    + eexists _, ids, p2. split.
      * rewrite <- (app_nil_r (_ :: _)).
        eapply runs_try_throw; [|apply runs_throw].
        eapply (runs_bind _ _ _ _ [_]); [exact Hs1|].
        apply runs_bind_throw. exact Hs2.
      * split; [done|]. right. by exists e.
  - pose proof (perform_Throw _ (λ _, EvMessagesList sq bound) (viewOf p) _ _ Hl) as Hs0.
    destruct (runs_liftM (messagesList sq bound) p _ _ _ Hs0) as (p1 & Hs1 & _).
    eexists _, [], p1. split.
    + rewrite <- (app_nil_r (_ :: _)).
      eapply runs_try_throw; [|apply runs_throw].
      apply runs_bind_throw. exact Hs1.
    + done.
Qed.

(** X18. [searchEmails] asks the mail API for at most 50 messages: it
    lists once, with the sanitised query and with the smaller of
    [maxResults] (10 when absent) and 50 as bound, and then only asks
    for metadata. It hands nothing to [auditLog], deletes nothing, and
    fails only with ["Invalid query parameter"], before any request, or
    with an error that wraps the cause. *)
Theorem searchEmails_query_and_bound (args : SearchEmailsArgs.t) (p : Process) :
  ∃ r did p',
    runs (searchEmails args) p r did p'
    ∧ omap auditOf did = [] ∧ omap deletionOf did = []
    ∧ ((did = [] ∧ p' = p
        ∧ r = Throw (Error (lit "Invalid query parameter"))
        ∧ ∀ q, SearchEmailsArgs.query args = VStr q → q = [])
       ∨ ∃ q bound ids,
           SearchEmailsArgs.query args = VStr q ∧ q ≠ []
           ∧ bound = Z.min (default 10 (SearchEmailsArgs.maxResults args)) 50
           ∧ bound ≤ 50
           ∧ did = Core (EvMessagesList (sanitizeInput q) bound)
                   :: (summaryRequest <$> ids)
           ∧ ((∃ o, r = Ok o
                 ∧ get "query" o = Some (JStr (sanitizeInput q))
                 ∧ get "resultCount" o = Some (JNum (Z.of_nat (length ids))))
              ∨ ∃ e, r = Throw (Error (lit "Failed to search emails: "
                                       ++ errorText e)))).
Proof.
  destruct (SearchEmailsArgs.query args) as [| | | |q|] eqn:Hq;
    try (exists (Throw (Error (lit "Invalid query parameter"))), [], p;
         split_and!;
         [unfold searchEmails; rewrite Hq; apply runs_throw|done|done|];
         left; by split_and!).
  destruct q as [|c q].
  { exists (Throw (Error (lit "Invalid query parameter"))), [], p.
    split_and!; [unfold searchEmails; rewrite Hq; apply runs_throw|done|done|].
    left. split_and!; [done|done|done|]. by intros ? [= <-]. }
  destruct (searchEmails_outcome args p (c :: q) Hq eq_refl)
    as (r & ids & p' & Hruns & Hr).
  eexists r, _, p'. split; [exact Hruns|].
  split; [by rewrite omap_cons_eq, omap_fmap_None|].
  split; [by rewrite omap_cons_eq, omap_fmap_None|].
  right.
  exists (c :: q), (Z.min (default 10 (SearchEmailsArgs.maxResults args)) 50), ids.
  split_and!; [done|done|reflexivity|lia|done|].
  destruct (gmail_messages_list _ _ _).1 as [listed|e].
  - destruct Hr as (_ & [(entries & -> & _ & Hentries)|(e & ->)]).
    + left. eexists. split_and!; [done|done|].
      apply (f_equal length) in Hentries. rewrite !length_fmap in Hentries.
      cbn. by rewrite Hentries.
    + right. by exists e.
  - destruct Hr as (_ & ->). right. by exists e.
Qed.

(** The metadata requests of a search for [ids], made one after the
    other from the world [w], when the mail API answers every one of
    them: the messages it answers with and the world it leaves. *)
Fixpoint answeredAll (ids : list jsstring) (w : World)
    : option (list Message * World) :=
  match ids with
  | [] => Some ([], w)
  | mid :: rest =>
      match gmail_messages_get_metadata mid
              [lit "From"; lit "To"; lit "Subject"; lit "Date"] w with
      | (Resolve detail, w') =>
          match answeredAll rest w' with
          | Some (details, w'') => Some (detail :: details, w'')
          | None => None
          end
      | (Reject _, _) => None
      end
  end.

Lemma answeredAll_length (ids : list jsstring) : ∀ w details w',
  answeredAll ids w = Some (details, w') → length details = length ids.
Proof.
  induction ids as [|mid ids IH]; intros w details w'; cbn [answeredAll].
  - by intros [= <- _].
  - destruct (gmail_messages_get_metadata mid _ w) as [[detail|e] w1]; [|done].
    destruct (answeredAll ids w1) as [[details1 w2]|] eqn:Hrest; [|done].
    intros [= <- _]. cbn [length]. f_equal. by eapply IH.
Qed.

(** The loop of [searchEmails] against the answers of the mail API: the
    requests are those for the identifiers [done], all answered, and
    then, when identifiers are left, one more, which is rejected and
    ends the loop. *)
Lemma fetchDetails_replies (messages : list Message) : ∀ acc p,
  ∃ r p' done rest details w2,
    attemptedIds messages = done ++ rest
    ∧ answeredAll done (outside p) = Some (details, w2)
    ∧ runs (fetchDetails messages acc) p r
        (summaryRequest <$> (done ++ take 1 rest)) p'
    ∧ match rest with
      | [] => r = Ok (acc ++ zip_with summary done details) ∧ outside p' = w2
      | mid :: _ =>
          ∃ e w3,
            gmail_messages_get_metadata mid
              [lit "From"; lit "To"; lit "Subject"; lit "Date"] w2
            = (Reject e, w3)
            ∧ r = Throw e ∧ outside p' = w3
      end.
Proof.
  induction messages as [|message rest0 IH]; intros acc p.
  { exists (Ok acc), p, [], [], [], (outside p).
    split; [done|]. split; [done|]. split; [apply runs_ret|].
    by rewrite app_nil_r. }
  cbn [fetchDetails]. rewrite attemptedIds_cons.
  destruct (truthyOpt (id message)) eqn:Hid; [|apply IH].
  set (mid := orEmpty (id message)).
  set (hdrs := [lit "From"; lit "To"; lit "Subject"; lit "Date"]).
  destruct (runs_performP (gmail_messages_get_metadata mid hdrs)
              (summaryRequest mid) p) as (p1 & Hs1 & Hw1).
  destruct (gmail_messages_get_metadata mid hdrs (outside p))
    as [[detail|e] w'] eqn:Hreply; cbn [fst snd] in Hs1, Hw1.
  - destruct (IH (acc ++ [summary mid detail]) p1)
      as (r & p2 & done & rest & details & w2 & Hids & Hall & Hs2 & Hr).
    exists r, p2, (mid :: done), rest, (detail :: details), w2.
    split; [by rewrite Hids|]. split.
    { cbn [answeredAll]. fold hdrs. rewrite Hreply. rewrite Hw1 in Hall.
      by rewrite Hall. }
    split.
    { eapply (runs_bind _ _ _ _ [_]); [exact Hs1|exact Hs2]. }
    destruct rest as [|next rest]; [|exact Hr].
    destruct Hr as (-> & Hw2). split; [|done].
    cbn [zip_with]. by rewrite <- app_assoc.
  - exists (Throw e), p1, [], (mid :: attemptedIds rest0), [], (outside p).
    split; [done|]. split; [done|]. split.
    { by apply runs_bind_throw. }
    by exists e, w'.
Qed.

(** X19. Once the listing has answered, [searchEmails] asks for the
    metadata of the listed messages that have an identifier, one
    request each, in the order of the listing, each on the world that
    the request before it left. While the requests are answered it goes
    on; it stops at the first request that the mail API rejects and
    asks nothing after it: the search then fails with the cause of that
    rejection and returns no partial result. It answers only when every
    request was answered, with one entry per request, built from the
    answer to that request, in that order. *)
Theorem searchEmails_one_request_per_message (args : SearchEmailsArgs.t)
    (p : Process) q (listed : option (list Message)) (w1 : World) :
  SearchEmailsArgs.query args = VStr q → truthyStr q = true →
  gmail_messages_list (sanitizeInput q)
    (Z.min (default 10 (SearchEmailsArgs.maxResults args)) 50) (outside p)
    = (Resolve listed, w1) →
  ∃ r did p' done rest details w2,
    runs (searchEmails args) p r did p'
    ∧ attemptedIds (default [] listed) = done ++ rest
    ∧ answeredAll done w1 = Some (details, w2)
    ∧ did = Core (EvMessagesList (sanitizeInput q)
                    (Z.min (default 10 (SearchEmailsArgs.maxResults args)) 50))
            :: (summaryRequest <$> (done ++ take 1 rest))
    ∧ omap metadataOf did = done ++ take 1 rest
    ∧ length (List.filter isApiStep did) = S (length (done ++ take 1 rest))
    ∧ match rest with
      | [] =>
          r = Ok (JObj [kv "query" (JStr (sanitizeInput q));
                        kv "resultCount" (JNum (Z.of_nat (length done)));
                        kv "messages" (JArr (zip_with summary done details))])
          ∧ outside p' = w2
      | mid :: _ =>
          ∃ e w3,
            gmail_messages_get_metadata mid
              [lit "From"; lit "To"; lit "Subject"; lit "Date"] w2
            = (Reject e, w3)
            ∧ r = Throw (Error (lit "Failed to search emails: " ++ errorText e))
            ∧ outside p' = w3
      end.
Proof.
  intros Hq Htruthy Hl. unfold searchEmails. rewrite Hq, Htruthy. cbn [negb].
  set (bound := Z.min (default 10 (SearchEmailsArgs.maxResults args)) 50) in *.
  set (sq := sanitizeInput q) in *.
  pose proof (perform_Ok _ (λ _, EvMessagesList sq bound) (viewOf p) _ _ Hl) as Hs0.
  destruct (runs_liftM (messagesList sq bound) p _ _ _ Hs0) as (p1 & Hs1 & Hw1).
  cbn [world] in Hw1.
  destruct (fetchDetails_replies (default [] listed) [] p1)
    as (r2 & p2 & done & rest & details & w2 & Hids & Hall & Hs2 & Hr).
  rewrite Hw1 in Hall.
  assert (Hmeta : ∀ ids : list jsstring, omap metadataOf (summaryRequest <$> ids) = ids).
  { intros l. induction l as [|x l IH]; [done|].
    rewrite fmap_cons, omap_cons_eq, IH. done. }
  assert (Hapi : ∀ ids : list jsstring,
    length (List.filter isApiStep (summaryRequest <$> ids)) = length ids).
  { intros l. induction l as [|x l IH]; [done|].
    rewrite fmap_cons, filter_cons_eq. cbn [summaryRequest isApiStep].
    rewrite length_cons, IH. done. }
  destruct rest as [|mid rest].
  - destruct Hr as (-> & Hw2).
    eexists _, (Core (EvMessagesList sq bound)
                :: (summaryRequest <$> (done ++ take 1 []))),
      p2, done, [], details, w2. split.
    { apply runs_try_ok.
      eapply (runs_bind _ _ _ _ [_]); [exact Hs1|].
      rewrite <- (app_nil_r (summaryRequest <$> _)).
      eapply runs_bind; [exact Hs2|apply runs_ret]. }
    split; [done|]. split; [done|]. split; [done|].
    split; [by rewrite omap_cons_eq, Hmeta|].
    split.
    { rewrite filter_cons_eq. cbn [isApiStep isMailApi app].
      by rewrite length_cons, Hapi. }
    split; [|done]. cbn [app]. do 4 f_equal.
    rewrite length_zip_with, (answeredAll_length _ _ _ _ Hall). by rewrite Nat.min_id.
  - destruct Hr as (e & w3 & Hreject & -> & Hw3).
    eexists _, (Core (EvMessagesList sq bound)
                :: (summaryRequest <$> (done ++ take 1 (mid :: rest)))),
      p2, done, (mid :: rest), details, w2. split.
    { rewrite <- (app_nil_r (_ :: _)).
      eapply runs_try_throw; [|apply runs_throw].
      eapply (runs_bind _ _ _ _ [_]); [exact Hs1|].
      apply runs_bind_throw. exact Hs2. }
    split; [done|]. split; [done|]. split; [done|].
    split; [by rewrite omap_cons_eq, Hmeta|].
    split.
    { rewrite filter_cons_eq. cbn [isApiStep isMailApi app].
      by rewrite length_cons, Hapi. }
    by exists e, w3.
Qed.

(** *** [deleteEmail] *)

(** X20. [deleteEmail] deletes at most the message it was given, and
    only after the mail API has answered its request for the metadata
    of that message: when that request is rejected nothing is deleted.
    Each call with a usable identifier hands exactly one record to
    [auditLog], at level [WARN] when the message was deleted and at
    level [ERROR], with the cause, when the call fails; with an unusable
    identifier it does nothing at all. *)
Theorem deleteEmail_deletes_only_what_it_read (messageId : jsval) (p : Process) :
  ∃ r did p',
    runs (deleteEmail messageId) p r did p'
    ∧ ((did = [] ∧ p' = p
        ∧ r = Throw (Error (lit "Invalid messageId parameter"))
        ∧ ∀ mid, messageId = VStr mid → mid = [])
       ∨ ∃ mid, messageId = VStr mid ∧ mid ≠ []
           ∧ omap metadataOf did = [mid]
           ∧ head did
             = Some (EvMessagesGetMetadata mid
                       [lit "From"; lit "Subject"; lit "Date"])
           ∧ match (gmail_messages_get_metadata mid
                      [lit "From"; lit "Subject"; lit "Date"] (outside p)).1 with
             | Reject e =>
                 omap deletionOf did = []
                 ∧ r = Throw (Error (lit "Failed to delete email: " ++ errorText e))
                 ∧ omap auditOf did
                   = [(lit "ERROR", lit "Failed to delete email " ++ mid
                                    ++ lit ": " ++ errorText e)]
             | Resolve _ =>
                 omap deletionOf did = [mid]
                 ∧ ((∃ o message,
                       r = Ok o
                       ∧ get "action" o = Some (JStr (lit "permanently_deleted"))
                       ∧ omap auditOf did = [(lit "WARN", message)])
                    ∨ ∃ e,
                        r = Throw (Error (lit "Failed to delete email: "
                                          ++ errorText e))
                        ∧ omap auditOf did
                          = [(lit "ERROR", lit "Failed to delete email " ++ mid
                                           ++ lit ": " ++ errorText e)])
             end).
Proof.
  destruct messageId as [| | | |mid|];
    try (exists (Throw (Error (lit "Invalid messageId parameter"))), [], p;
         split; [apply runs_throw|]; left; by split_and!).
  destruct mid as [|c mid].
  { exists (Throw (Error (lit "Invalid messageId parameter"))), [], p.
    split; [apply runs_throw|]. left. split_and!; [done|done|done|].
    by intros ? [= <-]. }
  set (m := c :: mid). unfold deleteEmail. fold m.
  change (truthyStr m) with true. cbn [negb].
  set (hdrs := [lit "From"; lit "Subject"; lit "Date"]).
  destruct (runs_performP (gmail_messages_get_metadata m hdrs)
              (EvMessagesGetMetadata m hdrs) p) as (p1 & Hs1 & Hw1).
  assert (Hfail : ∀ e p2,
    ∃ evs p3,
      runs (let+ _ := liftM (auditLog "ERROR"
              (lit "Failed to delete email " ++ m ++ lit ": " ++ errorText e)) in
            throwP (A:=json)
              (Error (lit "Failed to delete email: " ++ errorText e)))
        p2 (Throw (Error (lit "Failed to delete email: " ++ errorText e)))
        ((Core (EvAudit (lit "ERROR")
                  (lit "Failed to delete email " ++ m ++ lit ": " ++ errorText e))
          :: (Core <$> evs)) ++ []) p3
      ∧ forallb isLogIO evs = true).
  { intros e p2.
    destruct (runs_auditLog "ERROR"
      (lit "Failed to delete email " ++ m ++ lit ": " ++ errorText e) p2)
      as (evs & p3 & Ha & Hio).
    exists evs, p3. split; [|done].
    eapply runs_bind; [exact Ha|apply runs_throw]. }
  destruct (gmail_messages_get_metadata m hdrs (outside p)).1
    as [emailResponse|e] eqn:Hmeta.
  - set (hs := default [] (match payload emailResponse with
                           | Some p0 => headers p0 | None => None end)).
    destruct (gmail_messages_delete m (outside p1)) as [[[]|e] w2] eqn:Hdel.
    + pose proof (perform_Ok _ (EvMessagesDelete m) (viewOf p1) _ _ Hdel) as Hd0.
      destruct (runs_liftM (messagesDelete m) p1 _ _ _ Hd0) as (p2 & Hs2 & _).
      destruct (runs_auditLog "WARN"
        (lit "Email deleted - ID: " ++ m ++ lit ", Subject: "
         ++ getHeader hs "Subject" ++ lit ", From: " ++ getHeader hs "From") p2)
        as (evsA & p3 & Hs3 & Hio).
      destruct (dateISO_steps (viewOf p3)) as (deletedAt & st4 & Hd4).
      destruct (runs_liftM dateISO p3 _ _ _ Hd4) as (p4 & Hs4 & _).
      eexists _, _, p4. split.
      { apply runs_try_ok. eapply runs_bind; [exact Hs1|]. cbv beta zeta.
        eapply runs_bind; [exact Hs2|]. eapply runs_bind; [exact Hs3|].
        eapply runs_bind; [exact Hs4|apply runs_ret]. }
      right. exists m. do 2 (split; [done|]).
      split; [by observe evsA|]. split; [done|]. fold hdrs. rewrite Hmeta.
      split; [by observe evsA|].
      left. eexists _, _. do 2 (split; [done|]). by observe evsA.
    + pose proof (perform_Throw _ (EvMessagesDelete m) (viewOf p1) _ _ Hdel) as Hd0.
      destruct (runs_liftM (messagesDelete m) p1 _ _ _ Hd0) as (p2 & Hs2 & _).
      destruct (Hfail e p2) as (evs & p3 & Hs3 & Hio).
      eexists _, _, p3. split.
      { eapply runs_try_throw; [|exact Hs3].
        eapply runs_bind; [exact Hs1|]. cbv beta zeta.
        apply runs_bind_throw. exact Hs2. }
      right. exists m. do 2 (split; [done|]).
      split; [by observe evs|]. split; [done|]. fold hdrs. rewrite Hmeta.
      split; [by observe evs|].
      right. exists e. split; [done|]. by observe evs.
  - destruct (Hfail e p1) as (evs & p3 & Hs3 & Hio).
    eexists _, _, p3. split.
    { eapply runs_try_throw; [|exact Hs3]. apply runs_bind_throw. exact Hs1. }
    right. exists m. do 2 (split; [done|]).
    split; [by observe evs|]. split; [done|]. fold hdrs. rewrite Hmeta.
    split; [by observe evs|]. split; [done|]. by observe evs.
Qed.

(** *** [authenticate] *)

(** [yields m p r did p']: as [runs], but the fields [auth] and [gmail]
    may have been set. *)
Definition yields {A} (m : P A) (p : Process) (r : Outcome A)
    (did : list Step) (p' : Process) : Prop :=
  m p = (r, p') ∧ log p' = log p ++ did ∧ limits p' = limits p.

Lemma runs_yields {A} (m : P A) p r did p' :
  runs m p r did p' → yields m p r did p'.
Proof. intros (? & ? & ? & _). by split_and!. Qed.

Lemma yields_bind {A B} (m : P A) (k : A → P B) p a did1 p1 r did2 p2 :
  yields m p (Ok a) did1 p1 → yields (k a) p1 r did2 p2 →
  yields (bindP m k) p r (did1 ++ did2) p2.
Proof.
  intros (Hm & Hl1 & ?) (Hk & Hl2 & ?). unfold yields, bindP.
  rewrite Hm. split_and!; [done| |congruence].
  by rewrite Hl2, Hl1, app_assoc.
Qed.

Lemma yields_bind_throw {A B} (m : P A) (k : A → P B) p e did p1 :
  yields m p (Throw e) did p1 → yields (bindP m k) p (Throw e) did p1.
Proof. intros (Hm & ?). unfold yields, bindP. by rewrite Hm. Qed.

Lemma yields_try_ok {A} (m : P A) h p a did p1 :
  yields m p (Ok a) did p1 → yields (tryCatchP m h) p (Ok a) did p1.
Proof. intros (Hm & ?). unfold yields, tryCatchP. by rewrite Hm. Qed.

Lemma yields_try_throw {A} (m : P A) h p e did1 p1 r did2 p2 :
  yields m p (Throw e) did1 p1 → yields (h e) p1 r did2 p2 →
  yields (tryCatchP m h) p r (did1 ++ did2) p2.
Proof.
  intros (Hm & Hl1 & ?) (Hk & Hl2 & ?). unfold yields, tryCatchP.
  rewrite Hm. split_and!; [done| |congruence].
  by rewrite Hl2, Hl1, app_assoc.
Qed.

(** A handler of the shape [catch { await auditLog(..); throw .. }]. *)
Lemma runs_audit_throw {A} level message (e : JsError) p :
  ∃ evs p',
    runs (let+ _ := liftM (auditLog level message) in throwP (A:=A) e)
      p (Throw e)
      (Core (EvAudit (lit level) message) :: (Core <$> evs)) p'
    ∧ forallb isLogIO evs = true.
Proof.
  destruct (runs_auditLog level message p) as (evs & p' & Ha & Hio).
  exists evs, p'. split; [|done].
  rewrite <- (app_nil_r (_ :: _)).
  eapply runs_bind; [exact Ha|apply runs_throw].
Qed.

(** The two texts that [authenticate] throws; only the second leaves
    it. *)
Definition authRequired : JsError :=
  Error (lit "Authentication required. Please run: npm run auth").
Definition authFailed : JsError :=
  Error (lit "Gmail authentication failed. Check credentials file.").

(** How [authenticate] ends. *)
Lemma authenticate_cases (p : Process) :
  ∃ r did p',
    yields authenticate p r did p'
    ∧ List.filter isApiStep did = []
    ∧ ((r = Ok () ∧ gmail p' = true ∧ is_Some (auth p')
        ∧ omap auditOf did = [(lit "INFO", lit "Authentication successful")]
        ∧ EvGetAccessToken ∈ did)
       ∨ (r = Throw authFailed ∧ gmail p' = gmail p
          ∧ ((∃ e, omap auditOf did
                   = [(lit "ERROR", lit "Authentication failed: " ++ errorText e)]
                   ∧ auth p' = auth p ∧ EvGetAccessToken ∉ did)
             ∨ (omap auditOf did
                = [(lit "WARN",
                    lit "Token validation failed, re-authentication required");
                   (lit "ERROR",
                    lit "Authentication failed: " ++ errorText authRequired)]
                ∧ is_Some (auth p'))))).
Proof.
  unfold authenticate.
  match goal with
  | |- context [tryCatchP ?b ?h] => set (body := b); set (outer := h)
  end.
  (* The outer handler. *)
  assert (Houter : ∀ e did q,
    yields body p (Throw e) did q → gmail q = gmail p →
    List.filter isApiStep did = [] →
    ∃ evs p',
      yields (tryCatchP body outer) p (Throw authFailed)
        (did ++ Core (EvAudit (lit "ERROR")
                        (lit "Authentication failed: " ++ errorText e))
             :: (Core <$> evs)) p'
      ∧ forallb isLogIO evs = true
      ∧ gmail p' = gmail p ∧ auth p' = auth q).
  { intros e did q Hb Hg Hapi.
    destruct (runs_audit_throw (A:=()) "ERROR"
      (lit "Authentication failed: " ++ errorText e) authFailed q)
      as (evs & p' & Ha & Hio).
    exists evs, p'. split_and!; [|done|..].
    - eapply yields_try_throw; [exact Hb|]. apply runs_yields. exact Ha.
    - destruct Ha as (_ & _ & _ & _ & ->). done.
    - by destruct Ha as (_ & _ & _ & -> & _). }
  destruct (runs_performP (fs_readFile CREDENTIALS_PATH)
              (EvReadFile CREDENTIALS_PATH) p) as (p1 & Hs1 & _).
  destruct (fs_readFile CREDENTIALS_PATH (outside p)).1 as [credentialsContent|e].
  2: { destruct (Houter e [EvReadFile CREDENTIALS_PATH] p1)
         as (evs & p' & Hy & Hio & Hg & Ha).
       - apply yields_bind_throw, runs_yields. exact Hs1.
       - by destruct Hs1 as (_ & _ & _ & _ & ->).
       - done.
       - eexists _, _, p'. split; [exact Hy|]. split; [by observe evs|].
         right. split_and!; [done|done|]. left. exists e.
         split_and!.
         + by observe evs.
         + rewrite Ha. by destruct Hs1 as (_ & _ & _ & -> & _).
         + intros [Hin|Hin]%elem_of_app; [by apply list_elem_of_singleton in Hin|].
           apply elem_of_cons in Hin as [?|Hin]; [done|].
           apply list_elem_of_fmap in Hin as (? & ? & _). done. }
  destruct (newOAuth2 credentialsContent) as [client|e] eqn:Hnew.
  2: { destruct (Houter e ([EvReadFile CREDENTIALS_PATH] ++ []) p1)
         as (evs & p' & Hy & Hio & Hg & Ha).
       - eapply yields_bind; [apply runs_yields; exact Hs1|].
         apply yields_bind_throw. rewrite Hnew. apply runs_yields, runs_throw.
       - by destruct Hs1 as (_ & _ & _ & _ & ->).
       - done.
       - eexists _, _, p'. split; [exact Hy|]. split; [by observe evs|].
         right. split_and!; [done|done|]. left. exists e.
         split_and!.
         + by observe evs.
         + rewrite Ha. by destruct Hs1 as (_ & _ & _ & -> & _).
         + rewrite app_nil_r.
           intros [Hin|Hin]%elem_of_app; [by apply list_elem_of_singleton in Hin|].
           apply elem_of_cons in Hin as [?|Hin]; [done|].
           apply list_elem_of_fmap in Hin as (? & ? & _). done. }
  set (p2 := {| outside := outside p1; limits := limits p1; auth := Some client;
                gmail := gmail p1; log := log p1 |}).
  pose (inner :=
    let+ tokenContent := fsReadFile TOKEN_PATH in
    let+ token := attempt (parseToken tokenContent) in
    let+ _ := getAccessToken client token in
    let+ _ := (λ p, (Ok (), {| outside := outside p; limits := limits p;
                               auth := auth p; gmail := true;
                               log := log p |})) in
    liftM (auditLog "INFO" (lit "Authentication successful"))).
  (* The inner handler, and the outer one behind it. *)
  assert (Hinner : ∀ e did q,
    yields inner p2 (Throw e) did q → gmail q = gmail p → is_Some (auth q) →
    List.filter isApiStep did = [] → omap auditOf did = [] →
    ∃ did' p',
      yields (tryCatchP body outer) p (Throw authFailed) did' p'
      ∧ List.filter isApiStep did' = []
      ∧ omap auditOf did'
        = [(lit "WARN", lit "Token validation failed, re-authentication required");
           (lit "ERROR", lit "Authentication failed: " ++ errorText authRequired)]
      ∧ gmail p' = gmail p ∧ is_Some (auth p')).
  { intros e did q Hb Hg Hsome Hapi Haud.
    destruct (runs_audit_throw (A:=()) "WARN"
      (lit "Token validation failed, re-authentication required") authRequired q)
      as (evsW & q1 & Hw & HioW).
    destruct (Houter authRequired
      ([EvReadFile CREDENTIALS_PATH] ++ [] ++ []
       ++ did ++ Core (EvAudit (lit "WARN")
                    (lit "Token validation failed, re-authentication required"))
               :: (Core <$> evsW)) q1)
      as (evs & p' & Hy & Hio & Hg' & Ha').
    - eapply yields_bind; [apply runs_yields; exact Hs1|].
      eapply yields_bind; [rewrite Hnew; apply runs_yields, runs_ret|]. cbv beta.
      eapply (yields_bind _ _ _ _ [] p2);
        [by split_and!; [done|rewrite app_nil_r|done]|].
      eapply yields_try_throw; [exact Hb|]. apply runs_yields. exact Hw.
    - destruct Hw as (_ & _ & _ & _ & ->). done.
    - observe evsW. by rewrite Hapi.
    - eexists _, p'. split; [exact Hy|]. split_and!.
      + observe evs. observe evsW. by rewrite Hapi.
      + observe evs. observe evsW. by rewrite Haud.
      + done.
      + rewrite Ha'. by destruct Hw as (_ & _ & _ & -> & _). }
  assert (Hg2 : gmail p2 = gmail p).
  { unfold p2. cbn [gmail]. by destruct Hs1 as (_ & _ & _ & _ & ->). }
  destruct (runs_performP (fs_readFile TOKEN_PATH) (EvReadFile TOKEN_PATH) p2)
    as (p3 & Hs3 & _).
  assert (Hg3 : gmail p3 = gmail p).
  { destruct Hs3 as (_ & _ & _ & _ & ->). exact Hg2. }
  assert (Ha3 : is_Some (auth p3)).
  { destruct Hs3 as (_ & _ & _ & -> & _). by eexists. }
  destruct (fs_readFile TOKEN_PATH (outside p2)).1 as [tokenContent|e].
  2: { destruct (Hinner e [EvReadFile TOKEN_PATH] p3)
         as (did' & p' & Hy & Hapi & Haud & Hg & Ha); [..|].
       - apply yields_bind_throw, runs_yields. exact Hs3.
       - done.
       - done.
       - done.
       - done.
       - eexists _, _, p'. split; [exact Hy|]. split; [done|].
         right. split_and!; [done|done|]. by right. }
  destruct (parseToken tokenContent) as [tok|e] eqn:Hparse.
  2: { destruct (Hinner e ([EvReadFile TOKEN_PATH] ++ []) p3)
         as (did' & p' & Hy & Hapi & Haud & Hg & Ha); [..|].
       - eapply yields_bind; [apply runs_yields; exact Hs3|].
         apply yields_bind_throw. rewrite Hparse. apply runs_yields, runs_throw.
       - done.
       - done.
       - done.
       - done.
       - eexists _, _, p'. split; [exact Hy|]. split; [done|].
         right. split_and!; [done|done|]. by right. }
  destruct (runs_performP (oauth_getAccessToken client tok) EvGetAccessToken p3)
    as (p4 & Hs4 & _).
  assert (Hg4 : gmail p4 = gmail p).
  { destruct Hs4 as (_ & _ & _ & _ & ->). exact Hg3. }
  assert (Ha4 : is_Some (auth p4)).
  { destruct Hs4 as (_ & _ & _ & -> & _). exact Ha3. }
  destruct (oauth_getAccessToken client tok (outside p3)).1 as [[]|e].
  2: { destruct (Hinner e ([EvReadFile TOKEN_PATH] ++ [] ++ [EvGetAccessToken]) p4)
         as (did' & p' & Hy & Hapi & Haud & Hg & Ha); [..|].
       - eapply yields_bind; [apply runs_yields; exact Hs3|].
         eapply yields_bind; [rewrite Hparse; apply runs_yields, runs_ret|].
         apply yields_bind_throw, runs_yields. exact Hs4.
       - done.
       - done.
       - done.
       - done.
       - eexists _, _, p'. split; [exact Hy|]. split; [done|].
         right. split_and!; [done|done|]. by right. }
  set (p5 := {| outside := outside p4; limits := limits p4; auth := auth p4;
                gmail := true; log := log p4 |}).
  destruct (runs_auditLog "INFO" (lit "Authentication successful") p5)
    as (evs & p6 & Hs6 & Hio).
  eexists _, _, p6. split.
  { apply yields_try_ok.
    eapply yields_bind; [apply runs_yields; exact Hs1|].
    eapply yields_bind; [rewrite Hnew; apply runs_yields, runs_ret|]. cbv beta.
    eapply (yields_bind _ _ _ _ [] p2);
      [by split_and!; [done|rewrite app_nil_r|done]|].
    apply yields_try_ok.
    eapply yields_bind; [apply runs_yields; exact Hs3|].
    eapply yields_bind; [rewrite Hparse; apply runs_yields, runs_ret|]. cbv beta.
    eapply yields_bind; [apply runs_yields; exact Hs4|].
    eapply (yields_bind _ _ _ _ [] p5);
      [by split_and!; [done|rewrite app_nil_r|done]|].
    apply runs_yields. exact Hs6. }
  split; [by observe evs|].
  left. split_and!; [done| | |by observe evs|].
  - by destruct Hs6 as (_ & _ & _ & _ & ->).
  - by destruct Hs6 as (_ & _ & _ & -> & _).
  - rewrite !elem_of_app, !elem_of_cons. tauto.
Qed.

(** X21. [authenticate] ends in one of two ways. Either the credentials
    file, the token file and the token check all went through: then the
    client handle is set and ["Authentication successful"] is logged.
    Or it throws ["Gmail authentication failed. Check credentials
    file."], whatever went wrong, and the client handle is as it was;
    a token that is missing or refused is logged as a warning, and the
    text ["Authentication required. Please run: npm run auth"] thrown
    for it reaches the audit log only, never the caller. No request goes
    to the mail API and the rate-limit table is not touched. *)
Theorem authenticate_outcomes (p : Process) :
  ∃ r did p',
    authenticate p = (r, p') ∧ log p' = log p ++ did
    ∧ limits p' = limits p ∧ List.filter isApiStep did = []
    ∧ ((r = Ok () ∧ gmail p' = true ∧ is_Some (auth p')
        ∧ omap auditOf did = [(lit "INFO", lit "Authentication successful")]
        ∧ EvGetAccessToken ∈ did)
       ∨ (r = Throw (Error (lit "Gmail authentication failed. Check credentials file."))
          ∧ gmail p' = gmail p
          ∧ ((∃ e, omap auditOf did
                   = [(lit "ERROR", lit "Authentication failed: " ++ errorText e)]
                   ∧ auth p' = auth p ∧ EvGetAccessToken ∉ did)
             ∨ (omap auditOf did
                = [(lit "WARN",
                    lit "Token validation failed, re-authentication required");
                   (lit "ERROR",
                    lit "Authentication failed: "
                    ++ errorText (Error (lit "Authentication required. Please run: npm run auth")))]
                ∧ is_Some (auth p'))))).
Proof.
  destruct (authenticate_cases p) as (r & did & p' & (Hrun & Hlog & Hlim) & Hapi & H).
  exists r, did, p'. by split_and!.
Qed.

(** *** The handler of [CallToolRequestSchema] *)

Lemma checkRateLimit_clock (clientId : jsstring) (p : Process) :
  checkRateLimit clientId p
  = (Ok (RateLimit.checkRateLimit clientId (date_now (outside p)).1 (limits p)).1,
     {| outside := (date_now (outside p)).2;
        limits := (RateLimit.checkRateLimit clientId
                     (date_now (outside p)).1 (limits p)).2;
        auth := auth p; gmail := gmail p;
        log := log p ++ [Core EvDate] |}).
Proof.
  unfold checkRateLimit, bindP, liftM, dateNow, perform. cbn [world requests trace].
  destruct (date_now (outside p)) as [now w].
  cbn [world requests trace fst snd outside limits auth gmail log].
  by destruct (RateLimit.checkRateLimit clientId now (limits p)).
Qed.

(** The server object when the rate limiter has taken its decision. *)
Definition afterLimiter (p : Process) : Process :=
  {| outside := (date_now (outside p)).2;
     limits := (RateLimit.checkRateLimit (lit "default")
                  (date_now (outside p)).1 (limits p)).2;
     auth := auth p; gmail := gmail p;
     log := log p ++ [Core EvDate] |}.

(** The decision for the call that [p] is about to serve. *)
Definition allowedNow (p : Process) : bool :=
  (RateLimit.checkRateLimit (lit "default") (date_now (outside p)).1 (limits p)).1.

(** What the request handler runs in its [try] block. *)
Definition routed (request : Request.t) : P json :=
  match route request with
  | Some handler => handler
  | None => throwP (Error (lit "Unknown tool: " ++ Request.name request))
  end.

Definition toolCalled (request : Request.t) : jsstring :=
  lit "Tool called: " ++ Request.name request ++ lit " with args: "
  ++ Request.argumentsText request.

Definition toolFailed (request : Request.t) (error : JsError) : jsstring :=
  lit "Tool " ++ Request.name request ++ lit " failed: " ++ errorText error.

(** A call that the limiter lets through, on a server that holds a
    client handle: the call is logged, then the handler runs. *)
Lemma callTool_dispatch (request : Request.t) (p : Process) :
  allowedNow p = true → gmail p = true →
  ∃ evs p1,
    runs (liftM (auditLog "INFO" (toolCalled request))) (afterLimiter p) (Ok ())
      (Core (EvAudit (lit "INFO") (toolCalled request)) :: (Core <$> evs)) p1
    ∧ forallb isLogIO evs = true
    ∧ callTool request p
      = tryCatchP (routed request)
          (λ error,
             let+ _ := liftM (auditLog "ERROR" (toolFailed request error)) in
             throwP error) p1.
Proof.
  intros Hallowed Hgmail.
  destruct (runs_auditLog "INFO" (toolCalled request) (afterLimiter p))
    as (evs & p1 & Ha & Hio).
  exists evs, p1. split; [exact Ha|]. split; [done|].
  unfold callTool. unfold bindP at 1. rewrite checkRateLimit_clock.
  fold (allowedNow p). fold (afterLimiter p). rewrite Hallowed. cbn [negb].
  unfold bindP at 1. replace (gmail (afterLimiter p)) with true by done.
  unfold retP at 1. unfold bindP at 1.
  fold (toolCalled request). destruct Ha as (-> & _). done.
Qed.

(** X22. A call that the rate limiter refuses does nothing but read the
    clock: the handler throws ["Rate limit exceeded. Please wait before
    making more requests."] without authenticating, without a record in
    the audit log and without a request to the mail API, and the
    refused call is not stored in the table. *)
Theorem callTool_refused_by_the_limiter (request : Request.t) (p : Process) :
  (RateLimit.maxRequests
   ≤ length (RateLimit.inWindow (date_now (outside p)).1
               (RateLimit.history (lit "default") (limits p))))%nat →
  ∃ p',
    callTool request p
    = (Throw (Error (lit "Rate limit exceeded. Please wait before making more requests.")),
       p')
    ∧ log p' = log p ++ [Core EvDate]
    ∧ limits p' = limits p ∧ gmail p' = gmail p ∧ auth p' = auth p.
Proof.
  intros Hfull. exists (afterLimiter p).
  assert (Hdecision : RateLimit.checkRateLimit (lit "default")
            (date_now (outside p)).1 (limits p) = (false, limits p)).
  { rewrite RateLimitFacts.checkRateLimit_unfold. by rewrite decide_True. }
  split_and!; try done.
  - unfold callTool. unfold bindP at 1. rewrite checkRateLimit_clock.
    fold (afterLimiter p). by rewrite Hdecision.
  - unfold afterLimiter. cbn [limits]. by rewrite Hdecision.
Qed.

(** X23. The tools that the handler serves are the eight that the
    server advertises and [list_labels], which it serves without
    advertising it. *)
Theorem route_serves_advertised_and_labels (request : Request.t) :
  is_Some (route request)
  ↔ Request.name request ∈ advertised ∨ Request.name request = lit "list_labels".
Proof.
  unfold route, advertised. rewrite !elem_of_cons, elem_of_nil.
  repeat (case_bool_decide; [split; [tauto|by eexists]|]).
  split; [intros Hnone; by apply is_Some_None in Hnone|tauto].
Qed.

(** X24. A call for a tool that is not served, on a server that holds a
    client handle and under the rate limit, throws ["Unknown tool: "]
    followed by the name. The call is logged with its arguments, the
    failure is logged at level [ERROR], no request goes to the mail
    API, and the call counts against the rate limit all the same. *)
Theorem callTool_unknown_tool (request : Request.t) (p : Process) :
  allowedNow p = true → gmail p = true → route request = None →
  ∃ did p',
    callTool request p
    = (Throw (Error (lit "Unknown tool: " ++ Request.name request)), p')
    ∧ log p' = log p ++ did
    ∧ List.filter isApiStep did = []
    ∧ omap auditOf did
      = [(lit "INFO", lit "Tool called: " ++ Request.name request
                      ++ lit " with args: " ++ Request.argumentsText request);
         (lit "ERROR", lit "Tool " ++ Request.name request ++ lit " failed: "
                       ++ errorText (Error (lit "Unknown tool: "
                                            ++ Request.name request)))]
    ∧ RateLimit.history (lit "default") (limits p')
      = RateLimit.inWindow (date_now (outside p)).1
          (RateLimit.history (lit "default") (limits p))
        ++ [(date_now (outside p)).1].
Proof.
  intros Hallowed Hgmail Hroute.
  destruct (callTool_dispatch request p Hallowed Hgmail)
    as (evs & p1 & Ha & Hio & Hcall).
  set (unknown := Error (lit "Unknown tool: " ++ Request.name request)).
  destruct (runs_audit_throw (A:=json) "ERROR" (toolFailed request unknown)
              unknown p1) as (evsE & p2 & He & HioE).
  assert (Hrun : runs (tryCatchP (routed request)
      (λ error,
         let+ _ := liftM (auditLog "ERROR" (toolFailed request error)) in
         throwP error)) p1 (Throw unknown)
      ([] ++ Core (EvAudit (lit "ERROR") (toolFailed request unknown))
          :: (Core <$> evsE)) p2).
  { eapply runs_try_throw; [|exact He]. unfold routed. rewrite Hroute.
    apply runs_throw. }
  destruct Hrun as (Hrun & Hlog2 & Hlim2 & _).
  destruct Ha as (_ & Hlog1 & Hlim1 & _).
  eexists _, p2. split; [by rewrite Hcall|].
  split.
  { rewrite Hlog2, Hlog1. unfold afterLimiter. cbn [log].
    rewrite <- !app_assoc. reflexivity. }
  split; [by observe evs; observe evsE|].
  split; [by observe evs; observe evsE|].
  rewrite Hlim2, Hlim1. unfold afterLimiter. cbn [limits].
  unfold allowedNow in Hallowed. revert Hallowed.
  rewrite RateLimitFacts.checkRateLimit_unfold. destruct (decide _); [done|].
  intros _. cbn [snd]. unfold RateLimit.history at 1.
  by rewrite lookup_insert_eq.
Qed.

(** X25. On a server without a client handle, a call that the limiter
    lets through first authenticates, and when that fails the call
    fails with the error of [authenticate]: no handler runs, the call
    itself is not logged, no request goes to the mail API, and the call
    counts against the rate limit all the same. *)
Theorem callTool_stops_when_authentication_fails (request : Request.t) (p : Process) :
  allowedNow p = true → gmail p = false →
  (authenticate (afterLimiter p)).1 ≠ Ok () →
  ∃ did p',
    callTool request p
    = (Throw (Error (lit "Gmail authentication failed. Check credentials file.")),
       p')
    ∧ log p' = log p ++ did
    ∧ List.filter isApiStep did = []
    ∧ Forall (λ a, a.1 ≠ lit "INFO") (omap auditOf did)
    ∧ gmail p' = false
    ∧ RateLimit.history (lit "default") (limits p')
      = RateLimit.inWindow (date_now (outside p)).1
          (RateLimit.history (lit "default") (limits p))
        ++ [(date_now (outside p)).1].
Proof.
  intros Hallowed Hgmail Hfails.
  destruct (authenticate_cases (afterLimiter p))
    as (r & did & p1 & (Hrun & Hlog & Hlim) & Hapi & Hcases).
  rewrite Hrun in Hfails. cbn [fst] in Hfails.
  destruct Hcases as [(-> & _)|(-> & Hg & Haudits)]; [done|].
  exists (Core EvDate :: did), p1. split_and!.
  - unfold callTool. unfold bindP at 1. rewrite checkRateLimit_clock.
    fold (allowedNow p). fold (afterLimiter p). rewrite Hallowed. cbn [negb].
    unfold bindP at 1. replace (gmail (afterLimiter p)) with false by done.
    by rewrite Hrun.
  - rewrite Hlog. unfold afterLimiter. cbn [log]. by rewrite <- app_assoc.
  - by rewrite filter_cons_eq, Hapi.
  - rewrite omap_cons_eq. cbn [auditOf app].
    destruct Haudits as [(e & -> & _)|(-> & _)]; by repeat constructor.
  - rewrite Hg. done.
  - rewrite Hlim. unfold afterLimiter. cbn [limits].
    unfold allowedNow in Hallowed. revert Hallowed.
    rewrite RateLimitFacts.checkRateLimit_unfold. destruct (decide _); [done|].
    intros _. cbn [snd]. unfold RateLimit.history at 1.
    by rewrite lookup_insert_eq.
Qed.

(** X26. A call that the limiter lets through, on a server that holds a
    client handle, is logged with the name of the tool and the text of
    its arguments before the handler of the tool starts. What the
    handler returns is returned as it is and nothing more is logged;
    what it throws is thrown on as it is, after a record of the failure
    at level [ERROR]. *)
Theorem callTool_passes_the_answer_on (request : Request.t) (p : Process)
    (handler : P json) :
  allowedNow p = true → gmail p = true → route request = Some handler →
  ∃ evs p1,
    log p1 = log p ++ Core EvDate
                   :: Core (EvAudit (lit "INFO")
                              (lit "Tool called: " ++ Request.name request
                               ++ lit " with args: "
                               ++ Request.argumentsText request))
                   :: (Core <$> evs)
    ∧ forallb isLogIO evs = true
    ∧ match handler p1 with
      | (Ok o, p2) => callTool request p = (Ok o, p2)
      | (Throw e, p2) =>
          ∃ evs' p3,
            callTool request p = (Throw e, p3)
            ∧ log p3 = log p2
                       ++ Core (EvAudit (lit "ERROR")
                                  (lit "Tool " ++ Request.name request
                                   ++ lit " failed: " ++ errorText e))
                       :: (Core <$> evs')
            ∧ forallb isLogIO evs' = true
      | (OutOfFuel, p2) => callTool request p = (OutOfFuel, p2)
      end.
Proof.
  intros Hallowed Hgmail Hroute.
  destruct (callTool_dispatch request p Hallowed Hgmail)
    as (evs & p1 & Ha & Hio & Hcall).
  exists evs, p1. split.
  { destruct Ha as (_ & -> & _). unfold afterLimiter. cbn [log].
    by rewrite <- app_assoc. }
  split; [done|]. rewrite Hcall. unfold tryCatchP, routed. rewrite Hroute.
  destruct (handler p1) as [[o|e|] p2]; [done| |done].
  destruct (runs_audit_throw (A:=json) "ERROR" (toolFailed request e) e p2)
    as (evs' & p3 & (He & Hlog & _) & Hio').
  exists evs', p3. by split_and!.
Qed.

End WithServices.
End DispatchFacts.

(** ** Runs on the simulated mailbox *)

Module RunsMore.
Import Regex Validation Server Attachments ObserveMore Dispatch Sim SimServices.
Import RateLimitFacts ServerFacts RateLimitMore ServerMore DispatchFacts.

Definition quietTable : gmap jsstring (list Z) := {[ lit "default" := [0; 5] ]}.

Lemma granted_after_a_quiet_window_witness :
  Forall (λ t, t ≤ 60005 - RateLimit.windowMs)
    (RateLimit.history (lit "default") quietTable)
  ∧ RateLimit.checkRateLimit (lit "default") 60005 quietTable
    = (true, <[lit "default" := [60005]]> quietTable).
Proof.
  assert (Hold : Forall (λ t, t ≤ 60005 - RateLimit.windowMs)
                   (RateLimit.history (lit "default") quietTable)).
  { change (RateLimit.history (lit "default") quietTable) with [0; 5].
    unfold RateLimit.windowMs. repeat constructor; lia. }
  split; [exact Hold|].
  exact (granted_after_a_quiet_window (lit "default") 60005 quietTable Hold).
Defined.

Lemma plain_message_read_both_ways_witness :
  ∃ o oh st1 st2,
    readEmail (VStr (lit "n1")) (start notes) = (Ok o, st1)
    ∧ readEmailHtml (VStr (lit "n1")) (start notes) = (Ok oh, st2)
    ∧ get "body" o = Some (JStr (lit "Hi"))
    ∧ get "textContent" oh = Some (JStr (lit "Hi")).
Proof.
  destruct (plain_message_read_both_ways (lit "n1") (start notes)
              (message "n1" note) notes note)
    as (o & oh & st1 & st2 & Hrun1 & Hrun2 & _ & Hbody & Htext & _).
  - reflexivity.
  - vm_compute. reflexivity.
  - reflexivity.
  - reflexivity.
  - vm_compute. reflexivity.
  - reflexivity.
  - exists o, oh, st1, st2. split; [exact Hrun1|]. split; [exact Hrun2|]. split.
    + rewrite Hbody. vm_compute. reflexivity.
    + rewrite Htext. vm_compute. reflexivity.
Defined.

Lemma htmlToText_keeps_plain_text_witness :
  (ch "<" ∉ lit "  2 > 1  ") ∧ (ch "&" ∉ lit "  2 > 1  ")
  ∧ htmlToText (lit "  2 > 1  ") = lit "2 > 1".
Proof.
  assert (Hlt : ch "<" ∉ lit "  2 > 1  ")
    by (refine (bool_decide_unpack _ _); vm_compute; exact I).
  assert (Hamp : ch "&" ∉ lit "  2 > 1  ")
    by (refine (bool_decide_unpack _ _); vm_compute; exact I).
  split; [exact Hlt|]. split; [exact Hamp|].
  rewrite (htmlToText_keeps_plain_text _ Hlt Hamp). vm_compute. reflexivity.
Defined.

Lemma htmlToText_strips_every_tag_witness :
  (ch "&" ∉ lit "<p>Hi <b>you</b></p>")
  ∧ tagFree (htmlToText (lit "<p>Hi <b>you</b></p>")).
Proof.
  assert (Hamp : ch "&" ∉ lit "<p>Hi <b>you</b></p>")
    by (refine (bool_decide_unpack _ _); vm_compute; exact I).
  split; [exact Hamp|].
  exact (htmlToText_strips_every_tag _ Hamp).
Defined.


Lemma emptySpam_listing_rejected_witness :
  ∃ st',
    @emptySpam runtime outage (VBool true) (startOutage box)
    = (Throw (Error (lit "Failed to empty spam folder: "
                     ++ errorText (Error (lit "Service Unavailable")))), st').
Proof.
  destruct (@emptySpam_listing_rejected runtime outage (VBool true)
              (startOutage box) (Error (lit "Service Unavailable")))
    as (st' & evs & Hrun & _).
  - reflexivity.
  - vm_compute. reflexivity.
  - exists st'. exact Hrun.
Defined.

Lemma listAttachments_reports_named_parts_witness :
  ∃ o st',
    listAttachments (VStr (lit "m1")) (start box) = (Ok o, st')
    ∧ get "attachmentCount" o = Some (JNum 1).
Proof.
  destruct (listAttachments_reports_named_parts (lit "m1") (start box)
              (message "m1" mixed) box mixed)
    as (o & st' & reported & Hrun & Hreported & _ & Hcount & _).
  - reflexivity.
  - vm_compute. reflexivity.
  - reflexivity.
  - exists o, st'. split; [exact Hrun|].
    rewrite Hcount, Hreported. vm_compute. reflexivity.
Defined.

Definition anything : SearchEmailsArgs.t :=
  {| SearchEmailsArgs.query := VStr (lit "in:anywhere");
     SearchEmailsArgs.maxResults := Some 200 |}.

(** On the mailbox [box] the metadata of the locked message [m3] is
    refused: the search asks for [m0] to [m3], for nothing after it,
    and fails. *)
Lemma searchEmails_one_request_per_message_witness :
  ∃ p',
    searchEmails (SVC := strict) anything (readyStrict box)
    = (Throw (Error (lit "Failed to search emails: Error: Forbidden")), p')
    ∧ omap metadataOf (log p') = attemptedIds (take 4 (spamOf 120)).
Proof.
  destruct (searchEmails_one_request_per_message (SVC := strict)
              anything (readyStrict box) (lit "in:anywhere")
              (Some (spamOf 120)) box eq_refl eq_refl eq_refl)
    as (r & did & p' & done & rest & details & w2 & (Hrun & _) & _).
  assert (Hr : (searchEmails (SVC := strict) anything
                  (readyStrict box)).1
               = Throw (Error (lit "Failed to search emails: Error: Forbidden")))
    by (vm_compute; reflexivity).
  assert (Hlog : omap metadataOf
                   (log (searchEmails (SVC := strict) anything
                           (readyStrict box)).2)
                 = attemptedIds (take 4 (spamOf 120)))
    by (vm_compute; reflexivity).
  rewrite Hrun in Hr, Hlog. cbn [fst snd] in Hr, Hlog. subst r.
  exists p'. split; [exact Hrun|exact Hlog].
Defined.

(** When every request is answered the search returns one entry for
    each of the 120 listed messages. *)
Example searchEmails_all_answered :
  ∃ o p',
    searchEmails anything (ready box) = (Ok o, p')
    ∧ get "resultCount" o = Some (JNum 120)
    ∧ omap metadataOf (log p') = attemptedIds (spamOf 120).
Proof. eexists _, _. split; [by vm_compute|]. by vm_compute. Qed.

(** With a [path.join] that resolves [..], a file name that starts
    with [../] takes the download out of the directory [downloads]. *)
Example downloadAttachment_leaves_downloads :
  ∃ o st',
    downloadAttachment (RT := posix)
      {| DownloadAttachmentRequest.messageId := Some (lit "m1");
         DownloadAttachmentRequest.attachmentId := Some (lit "att-1");
         DownloadAttachmentRequest.filename := Some (lit "../escape.txt") |}
      (start box)
    = (Ok o, st')
    ∧ get "filePath" o
      = Some (JStr (lit "/home/user/.secure-gmail-mcp/escape.txt"))
    ∧ disk (world st')
      = [(lit "/home/user/.secure-gmail-mcp/escape.txt",
          map byteOf (lit "Hello"))].
Proof. eexists _, _. split; [by vm_compute|]. by vm_compute. Qed.

Lemma callTool_refused_by_the_limiter_witness :
  ∃ p',
    callTool (request "read_email" "m1") (saturated box)
    = (Throw (Error (lit "Rate limit exceeded. Please wait before making more requests.")),
       p')
    ∧ log p' = [Core EvDate].
Proof.
  destruct (callTool_refused_by_the_limiter (request "read_email" "m1")
              (saturated box)) as (p' & Hrun & Hlog & _).
  - apply Nat.leb_le. vm_compute. reflexivity.
  - exists p'. split; [exact Hrun|exact Hlog].
Defined.

Lemma callTool_unknown_tool_witness :
  ∃ did p',
    callTool (request "archive_email" "m1") (ready box)
    = (Throw (Error (lit "Unknown tool: archive_email")), p')
    ∧ log p' = did ∧ List.filter isApiStep did = [].
Proof.
  destruct (callTool_unknown_tool (request "archive_email" "m1") (ready box))
    as (did & p' & Hrun & Hlog & Hapi & _).
  - vm_compute. reflexivity.
  - reflexivity.
  - vm_compute. reflexivity.
  - exists did, p'. split; [exact Hrun|]. split; [exact Hlog|exact Hapi].
Defined.

Lemma callTool_stops_when_authentication_fails_witness :
  ∃ did p',
    callTool (request "read_email" "m1") (boot box)
    = (Throw (Error (lit "Gmail authentication failed. Check credentials file.")),
       p')
    ∧ log p' = did ∧ List.filter isApiStep did = [] ∧ gmail p' = false.
Proof.
  destruct (callTool_stops_when_authentication_fails
              (request "read_email" "m1") (boot box))
    as (did & p' & Hrun & Hlog & Hapi & _ & Hgmail & _).
  - vm_compute. reflexivity.
  - reflexivity.
  - vm_compute. discriminate.
  - exists did, p'. split; [exact Hrun|]. split; [exact Hlog|].
    split; [exact Hapi|exact Hgmail].
Defined.

Lemma callTool_passes_the_answer_on_witness :
  ∃ o p',
    callTool (request "read_email" "m1") (ready box) = (Ok o, p')
    ∧ get "id" o = Some (JStr (lit "m1")).
Proof.
  destruct (callTool_passes_the_answer_on (request "read_email" "m1") (ready box)
              (liftM (readEmail (VStr (lit "m1")))))
    as (evs & p1 & Hlog & Hio & Hanswer).
  - vm_compute. reflexivity.
  - reflexivity.
  - reflexivity.
  - destruct (liftM (readEmail (VStr (lit "m1"))) p1) as [[o|e|] p2] eqn:Hhandler.
    + exists o, p2. split; [exact Hanswer|].
      assert (Ho : (callTool (request "read_email" "m1") (ready box)).1 = Ok o)
        by (by rewrite Hanswer).
      vm_compute in Ho. injection Ho as <-. vm_compute. reflexivity.
    + destruct Hanswer as (evs' & p3 & Hrun & _).
      assert (Ho : (callTool (request "read_email" "m1") (ready box)).1 = Throw e)
        by (by rewrite Hrun).
      vm_compute in Ho. discriminate Ho.
    + assert (Ho : (callTool (request "read_email" "m1") (ready box)).1 = OutOfFuel)
        by (by rewrite Hanswer).
      vm_compute in Ho. discriminate Ho.
Defined.

(** A server that starts without a client handle authenticates on the
    first call and answers it. *)
Example callTool_first_call :
  ∃ o p',
    callTool (request "read_email" "m1") (boot configured) = (Ok o, p')
    ∧ gmail p' = true
    ∧ omap auditOf (log p')
      = [(lit "INFO", lit "Authentication successful");
         (lit "INFO", lit "Tool called: read_email with args: {}")].
Proof. eexists _, _. split; [by vm_compute|]. by vm_compute. Qed.

(** A search made of angle brackets only lists with the empty query. *)
Example searchEmails_blank_query :
  ∃ r p',
    searchEmails {| SearchEmailsArgs.query := VStr (lit " <> ");
                    SearchEmailsArgs.maxResults := None |} (ready emptyMailbox)
    = (r, p')
    ∧ omap listingOf (log p') = [([], 10)].
Proof. eexists _, _. split; [by vm_compute|]. by vm_compute. Qed.

(** [list_labels] is served, with one entry per label. *)
Example callTool_list_labels :
  ∃ o p',
    callTool (request "list_labels" "m1") (ready box) = (Ok o, p')
    ∧ get "count" o = Some (JNum 2)
    ∧ List.filter isApiStep (log p') = [EvLabelsList].
Proof. eexists _, _. split; [by vm_compute|]. by vm_compute. Qed.

End RunsMore.
